(** * gopy: a Python-2 flavoured compiler and stack VM written in Go.

    Shallow embedding of the runtime objects (pkg/runtime), the bytecode
    and code objects (pkg/compiler), the compiler, the virtual machine
    (pkg/vm) and the indentation-aware lexer (pkg/lexer), followed by the
    properties established for them. *)

From Stdlib Require Import ZArith Floats Lia.
From stdpp Require Import gmap strings list pretty.

Open Scope Z_scope.

Set Warnings "-register-all".
Set Default Proof Using "Type".

(** ** Outcomes of Go calls

    A Go function of the repository either returns a value, returns an
    [error] (built with [fmt.Errorf]), panics (index out of range, nil
    dereference, "stack underflow"), or does not return.  The last case
    is what running out of fuel stands for. *)

Inductive res (A : Type) : Type :=
| Ok (a : A)
| Error (msg : string)
| Panic (msg : string)
| OutOfFuel.

Arguments Ok {A} a.
Arguments Error {A} msg.
Arguments Panic {A} msg.
Arguments OutOfFuel {A}.

Definition bind {A B : Type} (m : res A) (k : A -> res B) : res B :=
  match m with
  | Ok a => k a
  | Error e => Error e
  | Panic e => Panic e
  | OutOfFuel => OutOfFuel
  end.

Notation "x <- m ;; k" := (bind m (fun x => k))
  (at level 62, m at next level, right associativity, only parsing).

Definition is_Ok {A} (r : res A) : bool :=
  match r with Ok _ => true | _ => false end.

(** [mapM f l] runs [f] on the elements from left to right and stops at
    the first one that does not return a value. *)
Fixpoint mapM {A B} (f : A -> res B) (l : list A) : res (list B) :=
  match l with
  | [] => Ok []
  | x :: l' => y <- f x ;; ys <- mapM f l' ;; Ok (y :: ys)
  end.

(** ** Go's [int] on a 64-bit platform *)

Definition MinInt : Z := - 2 ^ 63.
Definition MaxInt : Z := 2 ^ 63 - 1.

Definition wrap (z : Z) : Z := (z + 2 ^ 63) mod 2 ^ 64 - 2 ^ 63.

Definition in_int (z : Z) : Prop := MinInt <= z <= MaxInt.

Definition int_add (a b : Z) : Z := wrap (a + b).
Definition int_sub (a b : Z) : Z := wrap (a - b).
Definition int_mul (a b : Z) : Z := wrap (a * b).
Definition int_neg (a : Z) : Z := wrap (- a).
(** Go's [/] truncates toward zero; [MinInt / -1] wraps to [MinInt]. *)
Definition int_quo (a b : Z) : Z := wrap (Z.quot a b).
(** Go's [%] has the sign of the dividend. *)
Definition int_rem (a b : Z) : Z := Z.rem a b.

(** ** float64 *)

(** [float64(i)]: conversion of an [int], rounding to nearest even. *)
Definition float_of_int (z : Z) : float :=
  match z with
  | Z0 => PrimFloat.zero
  | Zpos p => SF2Prim (binary_round 53 1024 false p 0)
  | Zneg p => SF2Prim (binary_round 53 1024 true p 0)
  end.

(** [int(f)]: truncation toward zero.  For NaN, infinities and values
    outside the range of [int] Go leaves the result to the platform;
    amd64 gives [MinInt]. *)
Definition int_of_float (f : float) : Z :=
  match Prim2SF f with
  | S754_zero _ => 0
  | S754_finite s m e =>
      let mag := if 0 <=? e then Z.pos m * 2 ^ e else Z.pos m / 2 ^ (- e) in
      let z := if s then - mag else mag in
      if (MinInt <=? z) && (z <=? MaxInt) then z else MinInt
  | _ => MinInt
  end.

Definition float_is_zero (f : float) : bool := PrimFloat.eqb f PrimFloat.zero.

(** ** Go strings

    A Go string is a sequence of bytes; [string] of Rocq is a list of
    8-bit characters. *)

Definition str_len (s : string) : Z := Z.of_nat (String.length s).

Fixpoint str_ltb (a b : string) : bool :=
  match a, b with
  | EmptyString, EmptyString => false
  | EmptyString, String _ _ => true
  | String _ _, EmptyString => false
  | String x a', String y b' =>
      if (Ascii.N_of_ascii x <? Ascii.N_of_ascii y)%N then true
      else if (Ascii.N_of_ascii y <? Ascii.N_of_ascii x)%N then false
      else str_ltb a' b'
  end.

Definition str_leb (a b : string) : bool := negb (str_ltb b a).

Fixpoint join (sep : string) (l : list string) : string :=
  match l with
  | [] => ""
  | [x] => x
  | x :: l' => x +:+ sep +:+ join sep l'
  end.

Definition bytes_of (s : string) : list Z :=
  map (fun a => Z.of_N (Ascii.N_of_ascii a)) (String.list_ascii_of_string s).

Definition str_of_bytes (l : list Z) : string :=
  String.string_of_list_ascii (map (fun b => Ascii.ascii_of_N (Z.to_N b)) l).

(** [string(r)] for a rune [r]: the UTF-8 encoding; surrogates and values
    outside Unicode encode U+FFFD. *)
Definition RuneError : Z := 65533.

Definition utf8_encode (r : Z) : list Z :=
  if (r <? 0) || (1114111 <? r) || ((55296 <=? r) && (r <=? 57343)) then [239; 191; 189]
  else if r <? 128 then [r]
  else if r <? 2048 then [192 + r / 64; 128 + r mod 64]
  else if r <? 65536 then [224 + r / 4096; 128 + (r / 64) mod 64; 128 + r mod 64]
  else [240 + r / 262144; 128 + (r / 4096) mod 64; 128 + (r / 64) mod 64; 128 + r mod 64].

Definition is_cont (b : Z) : bool := (128 <=? b) && (b <=? 191).

(** One step of [for _, char := range s]: the next rune and the bytes
    left.  An ill-formed sequence yields U+FFFD and consumes one byte. *)
Definition utf8_decode1 (b0 : Z) (rest : list Z) : Z * list Z :=
  let bad := (RuneError, rest) in
  if b0 <? 128 then (b0, rest)
  else if (194 <=? b0) && (b0 <=? 223) then
    match rest with
    | b1 :: r1 => if is_cont b1 then ((b0 - 192) * 64 + (b1 - 128), r1) else bad
    | _ => bad
    end
  else if (224 <=? b0) && (b0 <=? 239) then
    match rest with
    | b1 :: b2 :: r2 =>
        let lo := if b0 =? 224 then 160 else 128 in
        let hi := if b0 =? 237 then 159 else 191 in
        if (lo <=? b1) && (b1 <=? hi) && is_cont b2
        then ((b0 - 224) * 4096 + (b1 - 128) * 64 + (b2 - 128), r2) else bad
    | _ => bad
    end
  else if (240 <=? b0) && (b0 <=? 244) then
    match rest with
    | b1 :: b2 :: b3 :: r3 =>
        let lo := if b0 =? 240 then 144 else 128 in
        let hi := if b0 =? 244 then 143 else 191 in
        if (lo <=? b1) && (b1 <=? hi) && is_cont b2 && is_cont b3
        then ((b0 - 240) * 262144 + (b1 - 128) * 4096 + (b2 - 128) * 64 + (b3 - 128), r3)
        else bad
    | _ => bad
    end
  else bad.

Fixpoint runes_fuel (n : nat) (l : list Z) : list Z :=
  match n, l with
  | S n', b0 :: rest =>
      let '(r, rest') := utf8_decode1 b0 rest in r :: runes_fuel n' rest'
  | _, _ => []
  end.

(** The runes of a string, as [range] over it yields them; every step
    consumes at least one byte, so the length bounds the recursion. *)
Definition runes (s : string) : list Z :=
  runes_fuel (String.length s) (bytes_of s).

Definition string_of_rune (r : Z) : string := str_of_bytes (utf8_encode r).

(** Substring test used by [in] on strings: [s] occurs in [c] at some
    offset [0 <= i <= len(c) - len(s)]. *)
Fixpoint has_prefix (p s : string) : bool :=
  match p, s with
  | EmptyString, _ => true
  | String x p', String y s' => if Ascii.eqb x y then has_prefix p' s' else false
  | String _ _, EmptyString => false
  end.

Fixpoint str_contains (c s : string) : bool :=
  if has_prefix s c then true
  else match c with
       | EmptyString => false
       | String _ c' => str_contains c' s
       end.

(** ** Bytecode (pkg/compiler: opcodes, instructions, code objects) *)

Inductive OpCode : Type :=
| OpLoadConst | OpLoadName | OpStoreName | OpLoadGlobal | OpStoreGlobal
| OpLoadFast | OpStoreFast
| OpBinaryAdd | OpBinarySub | OpBinaryMul | OpBinaryDiv | OpBinaryMod
| OpUnaryPos | OpUnaryNeg | OpUnaryNot
| OpCompareEq | OpCompareNe | OpCompareLt | OpCompareLe | OpCompareGt
| OpCompareGe | OpCompareIn
| OpJumpForward | OpJumpIfFalse | OpJumpIfTrue | OpJumpAbsolute
| OpPopJumpIfFalse | OpPopJumpIfTrue
| OpBuildList | OpBuildDict | OpBuildTuple
| OpBinarySubscr | OpStoreSubscr
| OpCallFunction | OpReturnValue
| OpPrintExpr | OpPrintNewline
| OpPopTop | OpRotTwo | OpRotThree | OpDupTop
| OpSetupLoop | OpBreakLoop | OpContinueLoop
| OpGetIter | OpForIter
| OpNop
| OpByte (n : Z).
(** [OpByte n] stands for a byte above [OpNop], which names no opcode. *)

(** The [iota] value of an opcode. *)
Definition OpCode_byte (op : OpCode) : Z :=
  match op with
  | OpLoadConst => 0 | OpLoadName => 1 | OpStoreName => 2 | OpLoadGlobal => 3
  | OpStoreGlobal => 4 | OpLoadFast => 5 | OpStoreFast => 6
  | OpBinaryAdd => 7 | OpBinarySub => 8 | OpBinaryMul => 9 | OpBinaryDiv => 10
  | OpBinaryMod => 11
  | OpUnaryPos => 12 | OpUnaryNeg => 13 | OpUnaryNot => 14
  | OpCompareEq => 15 | OpCompareNe => 16 | OpCompareLt => 17 | OpCompareLe => 18
  | OpCompareGt => 19 | OpCompareGe => 20 | OpCompareIn => 21
  | OpJumpForward => 22 | OpJumpIfFalse => 23 | OpJumpIfTrue => 24
  | OpJumpAbsolute => 25 | OpPopJumpIfFalse => 26 | OpPopJumpIfTrue => 27
  | OpBuildList => 28 | OpBuildDict => 29 | OpBuildTuple => 30
  | OpBinarySubscr => 31 | OpStoreSubscr => 32
  | OpCallFunction => 33 | OpReturnValue => 34
  | OpPrintExpr => 35 | OpPrintNewline => 36
  | OpPopTop => 37 | OpRotTwo => 38 | OpRotThree => 39 | OpDupTop => 40
  | OpSetupLoop => 41 | OpBreakLoop => 42 | OpContinueLoop => 43
  | OpGetIter => 44 | OpForIter => 45
  | OpNop => 46
  | OpByte n => n
  end.

Record Instruction : Type := mkInstruction { Op : OpCode; Arg : Z }.

(** The native functions behind the built-ins that [NewVM] registers. *)
Inductive builtin_fn : Type := BuiltinLen | BuiltinRange | BuiltinType | BuiltinStr.

(** ** Runtime objects (pkg/object, pkg/runtime, compiler.PyFunction)

    An [object.Object] is an interface value: [GoNil] is the nil
    interface, the other constructors are the pointer types that
    implement it.  Integers, floats, strings, booleans and None are never
    mutated, so they are held by value.  A [*PyList] and a [*PyDict] are
    mutated in place and may be reached through several references, so
    they are held as a reference into the store ([Heap] below).  A
    [*PyFunction] holds a [*CodeObject]; [Addr] stands for the address of
    that code object, which is what [p.Code == o.Code] compares.  The
    [Globals] field of a function is always nil and never read. *)

Inductive Object : Type :=
| GoNil
| PyInt (Value : Z)
| PyFloat (Value : float)
| PyString (Value : string)
| PyBool (Value : bool)
| PyNone
| PyList (ref : nat)
| PyDict (ref : nat)
| PyFunction (Code : CodeObject) (Name : string)
| PyBuiltin (Name : string) (Func : option builtin_fn)
with CodeObject : Type :=
| mkCodeObject (Addr : N)
    (Instructions : list Instruction)
    (Consts : list Object)
    (Names : list string)
    (Varnames : list string)
    (Argcount : Z)
    (Filename : string)
    (Name : string)
    (Firstlineno : Z).

Definition Addr (c : CodeObject) : N :=
  match c with mkCodeObject a _ _ _ _ _ _ _ _ => a end.
Definition Instructions (c : CodeObject) : list Instruction :=
  match c with mkCodeObject _ i _ _ _ _ _ _ _ => i end.
Definition Consts (c : CodeObject) : list Object :=
  match c with mkCodeObject _ _ k _ _ _ _ _ _ => k end.
Definition Names (c : CodeObject) : list string :=
  match c with mkCodeObject _ _ _ n _ _ _ _ _ => n end.
Definition Varnames (c : CodeObject) : list string :=
  match c with mkCodeObject _ _ _ _ v _ _ _ _ => v end.
Definition Argcount (c : CodeObject) : Z :=
  match c with mkCodeObject _ _ _ _ _ a _ _ _ => a end.
Definition CodeName (c : CodeObject) : string :=
  match c with mkCodeObject _ _ _ _ _ _ _ n _ => n end.

(** The store of lists and dictionaries.  A dictionary is the Go map
    [Pairs] from rendered key to value together with the slice [Keys] of
    the rendered keys in insertion order. *)
Inductive HeapObj : Type :=
| HList (Elements : list Object)
| HDict (Pairs : gmap string Object) (Keys : list string).

Abbreviation Heap := (list HeapObj).

Definition alloc (h : Heap) (o : HeapObj) : nat * Heap := (length h, h ++ [o]).

Definition nil_deref {A} : res A :=
  Panic "invalid memory address or nil pointer dereference".

Definition get_list (h : Heap) (a : nat) : res (list Object) :=
  match h !! a with
  | Some (HList els) => Ok els
  | _ => nil_deref
  end.

Definition get_dict (h : Heap) (a : nat) : res (gmap string Object * list string) :=
  match h !! a with
  | Some (HDict p ks) => Ok (p, ks)
  | _ => nil_deref
  end.

(** [obj.Type()] *)
Definition Object_Type (o : Object) : res string :=
  match o with
  | GoNil => nil_deref
  | PyInt _ => Ok "int"
  | PyFloat _ => Ok "float"
  | PyString _ => Ok "str"
  | PyBool _ => Ok "bool"
  | PyNone => Ok "NoneType"
  | PyList _ => Ok "list"
  | PyDict _ => Ok "dict"
  | PyFunction _ _ => Ok "function"
  | PyBuiltin _ _ => Ok "builtin_function_or_method"
  end.

(** The [%T] verb of [fmt] on an object. *)
Definition Object_GoType (o : Object) : string :=
  match o with
  | GoNil => "<nil>"
  | PyInt _ => "*runtime.PyInt"
  | PyFloat _ => "*runtime.PyFloat"
  | PyString _ => "*runtime.PyString"
  | PyBool _ => "*runtime.PyBool"
  | PyNone => "*runtime.PyNone"
  | PyList _ => "*runtime.PyList"
  | PyDict _ => "*runtime.PyDict"
  | PyFunction _ _ => "*compiler.PyFunction"
  | PyBuiltin _ _ => "*compiler.PyBuiltin"
  end.

(** [obj.IsTruthy()] *)
Definition Object_IsTruthy (h : Heap) (o : Object) : res bool :=
  match o with
  | GoNil => nil_deref
  | PyInt v => Ok (negb (v =? 0))
  | PyFloat v => Ok (negb (float_is_zero v))
  | PyString s => Ok (0 <? str_len s)
  | PyBool b => Ok b
  | PyNone => Ok false
  | PyList a => els <- get_list h a ;; Ok (0 <? Z.of_nat (length els))
  | PyDict a => d <- get_dict h a ;; Ok (0 <? Z.of_nat (size d.1))
  | PyFunction _ _ => Ok true
  | PyBuiltin _ _ => Ok true
  end.

Section Runtime.

(** [fmt.Sprintf("%g", f)]: the shortest decimal rendering of a float64
    is the work of Go's [strconv]; it is taken as given. *)
Variable format_g : float -> string.

(** [obj.String()].  Rendering a list or a dictionary renders the
    elements in turn; one level of nesting costs one unit of fuel, and a
    container that contains itself is never rendered. *)
Fixpoint Object_String (n : nat) (h : Heap) (o : Object) : res string :=
  match o with
  | GoNil => nil_deref
  | PyInt v => Ok (pretty v)
  | PyFloat v => Ok (format_g v)
  | PyString s => Ok s
  | PyBool b => Ok (if b then "True" else "False")
  | PyNone => Ok "None"
  | PyList a =>
      match n with
      | O => OutOfFuel
      | S n' =>
          els <- get_list h a ;;
          ss <- mapM (Object_String n' h) els ;;
          Ok ("[" +:+ join ", " ss +:+ "]")
      end
  | PyDict a =>
      match n with
      | O => OutOfFuel
      | S n' =>
          d <- get_dict h a ;;
          ss <- mapM (fun key =>
                  s <- Object_String n' h (default GoNil (d.1 !! key)) ;;
                  Ok (key +:+ ": " +:+ s)) d.2 ;;
          Ok ("{" +:+ join ", " ss +:+ "}")
      end
  | PyFunction _ name => Ok ("<function " +:+ name +:+ ">")
  | PyBuiltin name _ => Ok ("<built-in function " +:+ name +:+ ">")
  end.

End Runtime.

(** The element loop of [PyList.Equal]: it returns false at the first
    pair that differs. *)
Fixpoint list_equal (eq : Object -> Object -> res bool) (xs ys : list Object)
  : res bool :=
  match xs, ys with
  | [], _ => Ok true
  | x :: xs', y :: ys' => b <- eq x y ;; if b then list_equal eq xs' ys' else Ok false
  | _ :: _, [] => Panic "index out of range"
  end.

(** [x.Equal(y)].  [PyDict.Equal] ranges over the Go map [p.Pairs], whose
    iteration order is not specified: the model returns a result only
    when the comparison of every entry returns, so that the result does
    not depend on the order. *)
Fixpoint Object_Equal (n : nat) (h : Heap) (x y : Object) : res bool :=
  match x with
  | GoNil => nil_deref
  | PyInt a => Ok (match y with PyInt b => a =? b | _ => false end)
  | PyFloat a => Ok (match y with PyFloat b => PrimFloat.eqb a b | _ => false end)
  | PyString a => Ok (match y with PyString b => String.eqb a b | _ => false end)
  | PyBool a => Ok (match y with PyBool b => Bool.eqb a b | _ => false end)
  | PyNone => Ok (match y with PyNone => true | _ => false end)
  | PyList a =>
      match y with
      | PyList b =>
          match n with
          | O => OutOfFuel
          | S n' =>
              xs <- get_list h a ;;
              ys <- get_list h b ;;
              if negb (length xs =? length ys)%nat then Ok false
              else list_equal (Object_Equal n' h) xs ys
          end
      | _ => Ok false
      end
  | PyDict a =>
      match y with
      | PyDict b =>
          match n with
          | O => OutOfFuel
          | S n' =>
              p <- get_dict h a ;;
              q <- get_dict h b ;;
              if negb (size p.1 =? size q.1)%nat then Ok false
              else
                bs <- mapM (fun kv : string * Object =>
                        match q.1 !! kv.1 with
                        | None => Ok false
                        | Some w => Object_Equal n' h kv.2 w
                        end) (map_to_list p.1) ;;
                Ok (forallb id bs)
          end
      | _ => Ok false
      end
  | PyFunction c _ =>
      Ok (match y with PyFunction d _ => (Addr c =? Addr d)%N | _ => false end)
  | PyBuiltin name _ =>
      Ok (match y with PyBuiltin name' _ => String.eqb name name' | _ => false end)
  end.

(** ** Helpers of the virtual machine (pkg/vm) *)

Definition lookupZ {A} (l : list A) (i : Z) : option A :=
  if i <? 0 then None else l !! Z.to_nat i.

Definition index_panic {A} : res A := Panic "index out of range".

(** [toGoInt] / [runtime.ToGoInt] *)
Definition toGoInt (o : Object) : res Z :=
  match o with
  | PyInt v => Ok v
  | PyFloat v => Ok (int_of_float v)
  | PyBool b => Ok (if b then 1 else 0)
  | _ => t <- Object_Type o ;; Error ("cannot convert " +:+ t +:+ " to int")
  end.

(** [toGoFloat] *)
Definition toGoFloat (o : Object) : res float :=
  match o with
  | PyInt v => Ok (float_of_int v)
  | PyFloat v => Ok v
  | PyBool b => Ok (if b then PrimFloat.one else PrimFloat.zero)
  | _ => t <- Object_Type o ;; Error ("cannot convert " +:+ t +:+ " to float")
  end.

Definition unsupported_operand {A} (op : string) (l r : Object) : res A :=
  tl <- Object_Type l ;;
  tr <- Object_Type r ;;
  Error ("unsupported operand type(s) for " +:+ op +:+ ": '" +:+ tl +:+ "' and '" +:+ tr +:+ "'").

(** [vm.binaryOp] *)
Definition binaryOp (left right : Object) (op : string) : res Object :=
  let fallthrough := unsupported_operand op left right in
  if String.eqb op "+" then
    match left, right with
    | PyInt l, PyInt r => Ok (PyInt (int_add l r))
    | PyInt l, PyFloat r => Ok (PyFloat (float_of_int l + r)%float)
    | PyFloat l, PyInt r => Ok (PyFloat (l + float_of_int r)%float)
    | PyFloat l, PyFloat r => Ok (PyFloat (l + r)%float)
    | PyString l, PyString r => Ok (PyString (l +:+ r))
    | _, _ => fallthrough
    end
  else if String.eqb op "-" then
    match left, right with
    | PyInt l, PyInt r => Ok (PyInt (int_sub l r))
    | PyInt l, PyFloat r => Ok (PyFloat (float_of_int l - r)%float)
    | PyFloat l, PyInt r => Ok (PyFloat (l - float_of_int r)%float)
    | PyFloat l, PyFloat r => Ok (PyFloat (l - r)%float)
    | _, _ => fallthrough
    end
  else if String.eqb op "*" then
    match left, right with
    | PyInt l, PyInt r => Ok (PyInt (int_mul l r))
    | PyInt l, PyFloat r => Ok (PyFloat (float_of_int l * r)%float)
    | PyFloat l, PyInt r => Ok (PyFloat (l * float_of_int r)%float)
    | PyFloat l, PyFloat r => Ok (PyFloat (l * r)%float)
    | _, _ => fallthrough
    end
  else if String.eqb op "/" then
    match left, right with
    | PyInt l, PyInt r =>
        if r =? 0 then Error "division by zero" else Ok (PyInt (int_quo l r))
    | PyInt l, PyFloat r =>
        if float_is_zero r then Error "division by zero"
        else Ok (PyFloat (float_of_int l / r)%float)
    | PyFloat l, PyInt r =>
        if r =? 0 then Error "division by zero"
        else Ok (PyFloat (l / float_of_int r)%float)
    | PyFloat l, PyFloat r =>
        if float_is_zero r then Error "division by zero"
        else Ok (PyFloat (l / r)%float)
    | _, _ => fallthrough
    end
  else if String.eqb op "%" then
    match left, right with
    | PyInt l, PyInt r =>
        if r =? 0 then Error "integer division or modulo by zero"
        else Ok (PyInt (int_rem l r))
    | _, _ => fallthrough
    end
  else fallthrough.

(** [vm.unaryOp] *)
Definition unaryOp (operand : Object) (op : string) : res Object :=
  if String.eqb op "+" then
    match operand with
    | PyInt _ | PyFloat _ => Ok operand
    | _ => t <- Object_Type operand ;; Error ("bad operand type for unary +: '" +:+ t +:+ "'")
    end
  else if String.eqb op "-" then
    match operand with
    | PyInt v => Ok (PyInt (int_neg v))
    | PyFloat v => Ok (PyFloat (- v)%float)
    | _ => t <- Object_Type operand ;; Error ("bad operand type for unary -: '" +:+ t +:+ "'")
    end
  else Error ("unknown unary operator: " +:+ op).

Definition cmp_Z (op : string) (a b : Z) : option bool :=
  if String.eqb op "<" then Some (a <? b)
  else if String.eqb op "<=" then Some (a <=? b)
  else if String.eqb op ">" then Some (b <? a)
  else if String.eqb op ">=" then Some (b <=? a)
  else None.

Definition cmp_float (op : string) (a b : float) : option bool :=
  if String.eqb op "<" then Some (PrimFloat.ltb a b)
  else if String.eqb op "<=" then Some (PrimFloat.leb a b)
  else if String.eqb op ">" then Some (PrimFloat.ltb b a)
  else if String.eqb op ">=" then Some (PrimFloat.leb b a)
  else None.

Definition cmp_str (op : string) (a b : string) : option bool :=
  if String.eqb op "<" then Some (str_ltb a b)
  else if String.eqb op "<=" then Some (str_leb a b)
  else if String.eqb op ">" then Some (str_ltb b a)
  else if String.eqb op ">=" then Some (str_leb b a)
  else None.

(** [vm.compareOp] *)
Definition compareOp (left right : Object) (op : string) : res Object :=
  let r :=
    match left, right with
    | PyInt l, PyInt r => cmp_Z op l r
    | PyInt l, PyFloat r => cmp_float op (float_of_int l) r
    | PyFloat l, PyInt r => cmp_float op l (float_of_int r)
    | PyFloat l, PyFloat r => cmp_float op l r
    | PyString l, PyString r => cmp_str op l r
    | _, _ => None
    end in
  match r with
  | Some b => Ok (PyBool b)
  | None =>
      tl <- Object_Type left ;;
      tr <- Object_Type right ;;
      Error ("'" +:+ op +:+ "' not supported between instances of '"
             +:+ tl +:+ "' and '" +:+ tr +:+ "'")
  end.

(** The loop of [inOp] over the elements of a list. *)
Fixpoint list_member (eq : Object -> res bool) (els : list Object) : res bool :=
  match els with
  | [] => Ok false
  | e :: els' => b <- eq e ;; if b then Ok true else list_member eq els'
  end.

(** The loop of the [range] built-in; [up] tells the sign of the step. *)
Fixpoint range_loop (n : nat) (up : bool) (i stop step : Z) : res (list Object) :=
  if (if up then i <? stop else stop <? i) then
    match n with
    | O => OutOfFuel
    | S n' => l <- range_loop n' up (int_add i step) stop step ;; Ok (PyInt i :: l)
    end
  else Ok [].

Section Machine.

Variable format_g : float -> string.

Abbreviation Object_String' := (Object_String format_g).

(** [toGoString] *)
Definition toGoString (n : nat) (h : Heap) (o : Object) : res string :=
  match o with
  | PyString s => Ok s
  | _ => Object_String' n h o
  end.

(** [PyDict.Set] on the dictionary stored at [a] *)
Definition PyDict_Set (n : nat) (h : Heap) (a : nat) (key value : Object) : res Heap :=
  d <- get_dict h a ;;
  keyStr <- Object_String' n h key ;;
  let keys := match d.1 !! keyStr with
              | Some _ => d.2
              | None => d.2 ++ [keyStr]
              end in
  Ok (<[a := HDict (<[keyStr := value]> d.1) keys]> h).

(** [PyDict.Get] *)
Definition PyDict_Get (n : nat) (h : Heap) (a : nat) (key : Object) : res (option Object) :=
  d <- get_dict h a ;;
  keyStr <- Object_String' n h key ;;
  Ok (d.1 !! keyStr).

(** [vm.inOp] *)
Definition inOp (n : nat) (h : Heap) (left right : Object) : res Object :=
  let fallthrough :=
    t <- Object_Type right ;; Error ("argument of type '" +:+ t +:+ "' is not iterable") in
  match right with
  | PyList a =>
      els <- get_list h a ;;
      b <- list_member (Object_Equal n h left) els ;;
      Ok (PyBool b)
  | PyDict a =>
      v <- PyDict_Get n h a left ;;
      Ok (PyBool (match v with Some _ => true | None => false end))
  | PyString c =>
      match left with
      | PyString s => Ok (PyBool (str_contains c s))
      | _ => fallthrough
      end
  | _ => fallthrough
  end.

(** [vm.subscript] *)
Definition subscript (n : nat) (h : Heap) (container index : Object) : res Object :=
  match container with
  | PyList a =>
      els <- get_list h a ;;
      idx <- toGoInt index ;;
      if (idx <? 0) || (Z.of_nat (length els) <=? idx) then Error "list index out of range"
      else match lookupZ els idx with Some v => Ok v | None => index_panic end
  | PyDict a =>
      v <- PyDict_Get n h a index ;;
      match v with
      | Some v => Ok v
      | None => s <- Object_String' n h index ;; Error ("KeyError: " +:+ s)
      end
  | PyString c =>
      idx <- toGoInt index ;;
      if (idx <? 0) || (str_len c <=? idx) then Error "string index out of range"
      else match lookupZ (bytes_of c) idx with
           | Some b => Ok (PyString (string_of_rune b))
           | None => index_panic
           end
  | _ => t <- Object_Type container ;; Error ("'" +:+ t +:+ "' object is not subscriptable")
  end.

(** [vm.storeSubscript]: the list or dictionary is updated in place. *)
Definition storeSubscript (n : nat) (h : Heap) (container index value : Object) : res Heap :=
  match container with
  | PyList a =>
      els <- get_list h a ;;
      idx <- toGoInt index ;;
      if (idx <? 0) || (Z.of_nat (length els) <=? idx) then Error "list index out of range"
      else Ok (<[a := HList (<[Z.to_nat idx := value]> els)]> h)
  | PyDict a => PyDict_Set n h a index value
  | _ =>
      t <- Object_Type container ;;
      Error ("'" +:+ t +:+ "' object does not support item assignment")
  end.

(** The native functions of the built-ins registered by [NewVM]. *)
Definition call_builtin (n : nat) (h : Heap) (fn : builtin_fn) (args : list Object)
  : res (Object * Heap) :=
  match fn with
  | BuiltinLen =>
      match args with
      | [a] =>
          match a with
          | PyString s => Ok (PyInt (str_len s), h)
          | PyList r => els <- get_list h r ;; Ok (PyInt (Z.of_nat (length els)), h)
          | PyDict r => d <- get_dict h r ;; Ok (PyInt (Z.of_nat (size d.1)), h)
          | _ => t <- Object_Type a ;; Error ("object of type '" +:+ t +:+ "' has no len()")
          end
      | _ => Error ("len() takes exactly one argument ("
                    +:+ pretty (Z.of_nat (length args)) +:+ " given)")
      end
  | BuiltinRange =>
      bounds <-
        match args with
        | [a] => stop <- toGoInt a ;; Ok (0, stop, 1)
        | [a; b] => start <- toGoInt a ;; stop <- toGoInt b ;; Ok (start, stop, 1)
        | [a; b; c] =>
            start <- toGoInt a ;; stop <- toGoInt b ;; step <- toGoInt c ;;
            if step =? 0 then Error "range() step argument must not be zero"
            else Ok (start, stop, step)
        | _ => Error "range() takes 1 to 3 arguments"
        end ;;
      let '(start, stop, step) := bounds in
      elements <- range_loop n (0 <? step) start stop step ;;
      let '(a, h') := alloc h (HList elements) in
      Ok (PyList a, h')
  | BuiltinType =>
      match args with
      | [a] => t <- Object_Type a ;; Ok (PyString t, h)
      | _ => Error "type() takes exactly one argument"
      end
  | BuiltinStr =>
      match args with
      | [a] => s <- toGoString n h a ;; Ok (PyString s, h)
      | _ => Error "str() takes exactly one argument"
      end
  end.

(** The [builtins] map built by [NewVM]. *)
Definition builtins : gmap string Object :=
  <["len" := PyBuiltin "len" (Some BuiltinLen)]>
  (<["range" := PyBuiltin "range" (Some BuiltinRange)]>
  (<["type" := PyBuiltin "type" (Some BuiltinType)]>
  (<["str" := PyBuiltin "str" (Some BuiltinStr)]> ∅))).


(** ** Frames and the machine state *)

(** A frame.  [Stack] lists the live slots [Stack[SP-1] .. Stack[0]] of
    the Go array, top first, so that [SP] is its length; the slots at and
    above [SP] are never read.  Every frame shares the [globals] and
    [builtins] maps of its VM, which are kept in the machine state. *)
Record Frame : Type := mkFrame {
  Code : CodeObject;
  IP : Z;
  Stack : list Object;
  Locals : list Object;
}.

Definition StackSize : nat := 1000.
Definition MaxFrames : nat := 1000.

Definition NewFrame (code : CodeObject) : Frame :=
  mkFrame code 0 [] (replicate (length (Varnames code)) PyNone).

Definition set_IP (f : Frame) (ip : Z) : Frame :=
  mkFrame (Code f) ip (Stack f) (Locals f).
Definition set_Stack (f : Frame) (s : list Object) : Frame :=
  mkFrame (Code f) (IP f) s (Locals f).
Definition set_Locals (f : Frame) (l : list Object) : Frame :=
  mkFrame (Code f) (IP f) (Stack f) l.

(** [Frame.push] *)
Definition push (obj : Object) (f : Frame) : res Frame :=
  if (length (Stack f) <? StackSize)%nat then Ok (set_Stack f (obj :: Stack f))
  else index_panic.

(** [Frame.pop] *)
Definition pop (f : Frame) : res (Object * Frame) :=
  match Stack f with
  | [] => Panic "stack underflow"
  | o :: s => Ok (o, set_Stack f s)
  end.

(** [Frame.peek] *)
Definition peek (f : Frame) : Object :=
  match Stack f with
  | [] => GoNil
  | o :: _ => o
  end.

(** Pops [k] objects; the result lists them in the order they were
    pushed, as the loops [for i := Arg - 1; i >= 0; i--] fill a slice. *)
Fixpoint pop_n (k : nat) (acc : list Object) (f : Frame) : res (list Object * Frame) :=
  match k with
  | O => Ok (acc, f)
  | S k' => r <- pop f ;; pop_n k' (r.1 :: acc) r.2
  end.

(** The state of a run: the frame stack of the VM (top first), its
    globals, the store of lists and dictionaries, and what has been
    written to standard output. *)
Record VM : Type := mkVM {
  frames : list Frame;
  globals : gmap string Object;
  heap : Heap;
  stdout : string;
}.

Definition set_frames (vm : VM) (fs : list Frame) : VM :=
  mkVM fs (globals vm) (heap vm) (stdout vm).
Definition set_globals (vm : VM) (g : gmap string Object) : VM :=
  mkVM (frames vm) g (heap vm) (stdout vm).
Definition set_heap (vm : VM) (h : Heap) : VM :=
  mkVM (frames vm) (globals vm) h (stdout vm).
Definition set_stdout (vm : VM) (s : string) : VM :=
  mkVM (frames vm) (globals vm) (heap vm) s.

(** [NewVM], with the memory the process already holds. *)
Definition NewVM (h : Heap) : VM := mkVM [] ∅ h "".

(** [VM.pushFrame] *)
Definition pushFrame (vm : VM) (f : Frame) : res VM :=
  if (length (frames vm) <? MaxFrames)%nat then Ok (set_frames vm (f :: frames vm))
  else index_panic.

(** One turn of the loop of [VM.Run] either goes on or returns. *)
Inductive turn : Type :=
| Continue (vm : VM)
| Return (v : Object) (vm : VM).

(** The active frame [f] is written back over the caller frames [fs]. *)
Definition resume (vm : VM) (f : Frame) (fs : list Frame) : res turn :=
  Ok (Continue (set_frames vm (f :: fs))).

Definition binary (vm : VM) (f : Frame) (fs : list Frame)
    (op : Object -> Object -> res Object) : res turn :=
  r <- pop f ;;
  l <- pop r.2 ;;
  v <- op l.1 r.1 ;;
  f' <- push v l.2 ;;
  resume vm f' fs.

Definition load_name (vm : VM) (f : Frame) (fs : list Frame) (arg : Z) (what : string)
  : res turn :=
  match lookupZ (Names (Code f)) arg with
  | None => index_panic
  | Some name =>
      match globals vm !! name with
      | Some obj => f' <- push obj f ;; resume vm f' fs
      | None =>
          match builtins !! name with
          | Some obj => f' <- push obj f ;; resume vm f' fs
          | None => Error (what +:+ "'" +:+ name +:+ "' is not defined")
          end
      end
  end.

Definition store_name (vm : VM) (f : Frame) (fs : list Frame) (arg : Z) : res turn :=
  match lookupZ (Names (Code f)) arg with
  | None => index_panic
  | Some name =>
      r <- pop f ;;
      resume (set_globals vm (<[name := r.1]> (globals vm))) r.2 fs
  end.

Definition jump_if (vm : VM) (f : Frame) (fs : list Frame) (o : Object)
    (want : bool) (target : Z) : res turn :=
  b <- Object_IsTruthy (heap vm) o ;;
  resume vm (if Bool.eqb b want then set_IP f target else f) fs.

(** The [switch instruction.Op] of [VM.Run].  [f] is the active frame
    with [IP] already advanced, [fs] the frames below it; [n] bounds the
    recursion of the calls that render or compare containers. *)
Definition exec (n : nat) (ins : Instruction) (f : Frame) (fs : list Frame) (vm : VM)
  : res turn :=
  let arg := Arg ins in
  match Op ins with
  | OpLoadConst =>
      match lookupZ (Consts (Code f)) arg with
      | None => index_panic
      | Some c => f' <- push c f ;; resume vm f' fs
      end
  | OpLoadName => load_name vm f fs arg "name "
  | OpStoreName => store_name vm f fs arg
  | OpLoadGlobal => load_name vm f fs arg "global name "
  | OpStoreGlobal => store_name vm f fs arg
  | OpLoadFast =>
      match lookupZ (Locals f) arg with
      | None => index_panic
      | Some v => f' <- push v f ;; resume vm f' fs
      end
  | OpStoreFast =>
      r <- pop f ;;
      match lookupZ (Locals f) arg with
      | None => index_panic
      | Some _ => resume vm (set_Locals r.2 (<[Z.to_nat arg := r.1]> (Locals f))) fs
      end
  | OpBinaryAdd => binary vm f fs (fun l r => binaryOp l r "+")
  | OpBinarySub => binary vm f fs (fun l r => binaryOp l r "-")
  | OpBinaryMul => binary vm f fs (fun l r => binaryOp l r "*")
  | OpBinaryDiv => binary vm f fs (fun l r => binaryOp l r "/")
  | OpBinaryMod => binary vm f fs (fun l r => binaryOp l r "%")
  | OpUnaryPos =>
      r <- pop f ;; v <- unaryOp r.1 "+" ;; f' <- push v r.2 ;; resume vm f' fs
  | OpUnaryNeg =>
      r <- pop f ;; v <- unaryOp r.1 "-" ;; f' <- push v r.2 ;; resume vm f' fs
  | OpUnaryNot =>
      r <- pop f ;;
      b <- Object_IsTruthy (heap vm) r.1 ;;
      f' <- push (PyBool (negb b)) r.2 ;;
      resume vm f' fs
  | OpCompareEq =>
      binary vm f fs (fun l r => b <- Object_Equal n (heap vm) l r ;; Ok (PyBool b))
  | OpCompareNe =>
      binary vm f fs (fun l r => b <- Object_Equal n (heap vm) l r ;; Ok (PyBool (negb b)))
  | OpCompareLt => binary vm f fs (fun l r => compareOp l r "<")
  | OpCompareLe => binary vm f fs (fun l r => compareOp l r "<=")
  | OpCompareGt => binary vm f fs (fun l r => compareOp l r ">")
  | OpCompareGe => binary vm f fs (fun l r => compareOp l r ">=")
  | OpCompareIn => binary vm f fs (fun l r => inOp n (heap vm) l r)
  | OpJumpForward => resume vm (set_IP f (int_add (IP f) arg)) fs
  | OpJumpIfFalse => jump_if vm f fs (peek f) false arg
  | OpJumpIfTrue => jump_if vm f fs (peek f) true arg
  | OpJumpAbsolute => resume vm (set_IP f arg) fs
  | OpPopJumpIfFalse => r <- pop f ;; jump_if vm r.2 fs r.1 false arg
  | OpPopJumpIfTrue => r <- pop f ;; jump_if vm r.2 fs r.1 true arg
  | OpBuildList =>
      if arg <? 0 then Panic "makeslice: len out of range"
      else
        r <- pop_n (Z.to_nat arg) [] f ;;
        let '(a, h') := alloc (heap vm) (HList r.1) in
        f' <- push (PyList a) r.2 ;;
        resume (set_heap vm h') f' fs
  | OpBuildDict =>
      let '(a, h0) := alloc (heap vm) (HDict ∅ []) in
      r <- (fix loop (k : nat) (h : Heap) (f : Frame) : res (Heap * Frame) :=
              match k with
              | O => Ok (h, f)
              | S k' =>
                  value <- pop f ;;
                  key <- pop value.2 ;;
                  h' <- PyDict_Set n h a key.1 value.1 ;;
                  loop k' h' key.2
              end) (Z.to_nat arg) h0 f ;;
      f' <- push (PyDict a) r.2 ;;
      resume (set_heap vm r.1) f' fs
  | OpBinarySubscr =>
      binary vm f fs (fun container index => subscript n (heap vm) container index)
  | OpStoreSubscr =>
      index <- pop f ;;
      container <- pop index.2 ;;
      value <- pop container.2 ;;
      h' <- storeSubscript n (heap vm) container.1 index.1 value.1 ;;
      resume (set_heap vm h') value.2 fs
  | OpCallFunction =>
      if arg <? 0 then Panic "makeslice: len out of range"
      else
        r <- pop_n (Z.to_nat arg) [] f ;;
        let args := r.1 in
        fn <- pop r.2 ;;
        match fn.1 with
        | PyBuiltin _ None => nil_deref
        | PyBuiltin _ (Some native) =>
            v <- call_builtin n (heap vm) native args ;;
            f' <- push v.1 fn.2 ;;
            resume (set_heap vm v.2) f' fs
        | PyFunction code _ =>
            if negb (Z.of_nat (length args) =? Argcount code) then
              Error ("function takes " +:+ pretty (Argcount code)
                     +:+ " arguments but " +:+ pretty (Z.of_nat (length args))
                     +:+ " were given")
            else
              let funcFrame := NewFrame code in
              let locals := take (length (Locals funcFrame)) args
                            ++ drop (length args) (Locals funcFrame) in
              vm' <- pushFrame (set_frames vm (fn.2 :: fs)) (set_Locals funcFrame locals) ;;
              Ok (Continue vm')
        | other =>
            t <- Object_Type other ;; Error ("'" +:+ t +:+ "' object is not callable")
        end
  | OpReturnValue =>
      r <- pop f ;;
      match fs with
      | caller :: fs' => caller' <- push r.1 caller ;; resume vm caller' fs'
      | [] => Ok (Return r.1 (set_frames vm []))
      end
  | OpPrintExpr =>
      r <- pop f ;;
      s <- Object_String' n (heap vm) r.1 ;;
      resume (set_stdout vm (stdout vm +:+ s)) r.2 fs
  | OpPrintNewline => resume (set_stdout vm (stdout vm +:+ "
")) f fs
  | OpPopTop => r <- pop f ;; resume vm r.2 fs
  | OpRotTwo =>
      a <- pop f ;; b <- pop a.2 ;;
      f1 <- push a.1 b.2 ;; f2 <- push b.1 f1 ;;
      resume vm f2 fs
  | OpRotThree =>
      a <- pop f ;; b <- pop a.2 ;; c <- pop b.2 ;;
      f1 <- push a.1 c.2 ;; f2 <- push c.1 f1 ;; f3 <- push b.1 f2 ;;
      resume vm f3 fs
  | OpDupTop => f' <- push (peek f) f ;; resume vm f' fs
  | OpGetIter =>
      r <- pop f ;;
      match r.1 with
      | PyList a => f' <- push (PyList a) r.2 ;; resume vm f' fs
      | PyString s =>
          let chars := map (fun char => PyString (string_of_rune char)) (runes s) in
          let '(a, h') := alloc (heap vm) (HList chars) in
          f' <- push (PyList a) r.2 ;;
          resume (set_heap vm h') f' fs
      | other =>
          t <- Object_Type other ;;
          Error ("OpGetIter: '" +:+ t +:+ "' object is not iterable")
      end
  | OpForIter =>
      r <- pop f ;;
      let iterable := r.1 in
      let '(iterIndex, f1) :=
        match Stack r.2 with
        | PyInt idx :: s => (idx, set_Stack r.2 s)
        | _ => (0, r.2)
        end in
      match iterable with
      | PyList a =>
          els <- get_list (heap vm) a ;;
          if iterIndex <? Z.of_nat (length els) then
            f2 <- push (PyInt (int_add iterIndex 1)) f1 ;;
            f3 <- push (PyList a) f2 ;;
            match lookupZ els iterIndex with
            | None => index_panic
            | Some e => f4 <- push e f3 ;; resume vm f4 fs
            end
          else resume vm (set_IP f1 arg) fs
      | other =>
          t <- Object_Type other ;;
          Error ("OpForIter:'" +:+ t +:+ "' object is not iterable")
      end
  | OpNop => resume vm f fs
  | OpBuildTuple | OpSetupLoop | OpBreakLoop | OpContinueLoop | OpByte _ =>
      Error ("unknown opcode: " +:+ pretty (OpCode_byte (Op ins)))
  end.

(** One turn of [for vm.currentFrame() != nil]. *)
Definition step (n : nat) (vm : VM) : res turn :=
  match frames vm with
  | [] => Ok (Return PyNone vm)
  | f :: fs =>
      if Z.of_nat (length (Instructions (Code f))) <=? IP f then
        Ok (Continue (set_frames vm fs))
      else
        match lookupZ (Instructions (Code f)) (IP f) with
        | None => index_panic
        | Some ins => exec n ins (set_IP f (IP f + 1)) fs vm
        end
  end.

(** The loop of [VM.Run]; the state returned with an error or a panic is
    the one in which the failing instruction started. *)
Fixpoint run_loop (n : nat) (vm : VM) : res Object * VM :=
  match n with
  | O => (OutOfFuel, vm)
  | S n' =>
      match step n' vm with
      | Ok (Continue vm') => run_loop n' vm'
      | Ok (Return v vm') => (Ok v, vm')
      | Error e => (Error e, vm)
      | Panic e => (Panic e, vm)
      | OutOfFuel => (OutOfFuel, vm)
      end
  end.

(** [vm.Run(code)] *)
Definition Run (n : nat) (vm : VM) (code : CodeObject) : res Object * VM :=
  match pushFrame vm (NewFrame code) with
  | Ok vm' => run_loop n vm'
  | Error e => (Error e, vm)
  | Panic e => (Panic e, vm)
  | OutOfFuel => (OutOfFuel, vm)
  end.

End Machine.

(** ** The syntax tree (pkg/ast)

    Every node also carries a source position; the compiler reads only
    the line of a function definition, which is the one kept here.  A
    [GoValue] is the [interface{}] held by number literals and named
    constants. *)

Module ast.

Inductive GoValue : Type :=
| GoInt (v : Z)
| GoFloat (v : float)
| GoString (v : string)
| GoBool (v : bool)
| GoNilValue.

Inductive Expr : Type :=
| BinaryOp (Left : Expr) (Op : string) (Right : Expr)
| UnaryOp (Op : string) (E : Expr)
| BoolOp (Op : string) (Values : list Expr)
| Compare (Left : Expr) (Ops : list string) (Right : list Expr)
| Call (Func : Expr) (Args : list Expr)
| Subscript (Value : Expr) (Slice : Expr)
| Name (Id : string)
| Num (N : GoValue)
| Str (S : string)
| NameConstant (Value : GoValue)
| List (Elts : list Expr)
| Dict (Keys : list Expr) (Values : list Expr).

Inductive Stmt : Type :=
| AssignStmt (Target : Expr) (Value : Expr)
| AugAssignStmt (Target : Expr) (Op : string) (Value : Expr)
| ExprStmt (E : Expr)
| PrintStmt (Values : list Expr)
| IfStmt (Test : Expr) (Body : list Stmt) (Orelse : list Stmt)
| WhileStmt (Test : Expr) (Body : list Stmt)
| ForStmt (Target : Expr) (Iter : Expr) (Body : list Stmt)
| FuncDef (Name : string) (Args : list string) (Body : list Stmt) (Line : Z)
| ReturnStmt (Value : option Expr)
| PassStmt.

Record Module : Type := mkModule { Body : list Stmt }.

End ast.

(** [runtime.ToPyObject] *)
Definition ToPyObject (value : ast.GoValue) : Object :=
  match value with
  | ast.GoInt v => PyInt v
  | ast.GoFloat v => PyFloat v
  | ast.GoString v => PyString v
  | ast.GoBool v => PyBool v
  | ast.GoNilValue => PyNone
  end.

(** [fmt]'s [%T] of the pointer to a syntax node. *)
Definition Expr_GoType (e : ast.Expr) : string :=
  match e with
  | ast.BinaryOp _ _ _ => "*ast.BinaryOp"
  | ast.UnaryOp _ _ => "*ast.UnaryOp"
  | ast.BoolOp _ _ => "*ast.BoolOp"
  | ast.Compare _ _ _ => "*ast.Compare"
  | ast.Call _ _ => "*ast.Call"
  | ast.Subscript _ _ => "*ast.Subscript"
  | ast.Name _ => "*ast.Name"
  | ast.Num _ => "*ast.Num"
  | ast.Str _ => "*ast.Str"
  | ast.NameConstant _ => "*ast.NameConstant"
  | ast.List _ => "*ast.List"
  | ast.Dict _ _ => "*ast.Dict"
  end.

(** ** The compiler (pkg/compiler) *)

(** The state of a [Compiler].  [nextAddr] is not a field of the Go
    struct: it numbers the code objects allocated so far, so that every
    [&CodeObject{...}] gets an address of its own. *)
Record Compiler : Type := mkCompiler {
  instructions : list Instruction;
  consts : list Object;
  names : list string;
  varnames : list string;
  constMap : gmap string Z;
  nameMap : gmap string Z;
  varnameMap : gmap string Z;
  loopStack : list Z;
  scopeDepth : Z;
  nextAddr : N;
}.

Definition NewCompiler (addr : N) : Compiler :=
  mkCompiler [] [] [] [] ∅ ∅ ∅ [] 0 addr.

Definition set_instructions (c : Compiler) (l : list Instruction) : Compiler :=
  mkCompiler l (consts c) (names c) (varnames c) (constMap c) (nameMap c)
             (varnameMap c) (loopStack c) (scopeDepth c) (nextAddr c).
Definition set_loopStack (c : Compiler) (l : list Z) : Compiler :=
  mkCompiler (instructions c) (consts c) (names c) (varnames c) (constMap c) (nameMap c)
             (varnameMap c) l (scopeDepth c) (nextAddr c).
Definition set_scopeDepth (c : Compiler) (d : Z) : Compiler :=
  mkCompiler (instructions c) (consts c) (names c) (varnames c) (constMap c) (nameMap c)
             (varnameMap c) (loopStack c) d (nextAddr c).
Definition set_nextAddr (c : Compiler) (a : N) : Compiler :=
  mkCompiler (instructions c) (consts c) (names c) (varnames c) (constMap c) (nameMap c)
             (varnameMap c) (loopStack c) (scopeDepth c) a.

Definition len {A} (l : list A) : Z := Z.of_nat (length l).

(** [Compiler.emit]: appends the instruction and returns its position. *)
Definition emit (c : Compiler) (op : OpCode) (arg : Z) : Z * Compiler :=
  (len (instructions c), set_instructions c (instructions c ++ [mkInstruction op arg])).

(** [emit] when the position is not used. *)
Definition emit_ (op : OpCode) (arg : Z) (c : Compiler) : Compiler := (emit c op arg).2.

(** [Compiler.changeOperand] *)
Definition changeOperand (c : Compiler) (pos : Z) (arg : Z) : res Compiler :=
  match lookupZ (instructions c) pos with
  | None => index_panic
  | Some i =>
      Ok (set_instructions c (<[Z.to_nat pos := mkInstruction (Op i) arg]> (instructions c)))
  end.

(** [Compiler.addName] *)
Definition addName (c : Compiler) (name : string) : Z * Compiler :=
  match nameMap c !! name with
  | Some idx => (idx, c)
  | None =>
      let idx := len (names c) in
      (idx, mkCompiler (instructions c) (consts c) (names c ++ [name]) (varnames c)
              (constMap c) (<[name := idx]> (nameMap c)) (varnameMap c)
              (loopStack c) (scopeDepth c) (nextAddr c))
  end.

(** [Compiler.addVarname] *)
Definition addVarname (c : Compiler) (name : string) : Z * Compiler :=
  match varnameMap c !! name with
  | Some idx => (idx, c)
  | None =>
      let idx := len (varnames c) in
      (idx, mkCompiler (instructions c) (consts c) (names c) (varnames c ++ [name])
              (constMap c) (nameMap c) (<[name := idx]> (varnameMap c))
              (loopStack c) (scopeDepth c) (nextAddr c))
  end.

Section Compile.

Variable format_g : float -> string.

(** [Compiler.addConstant]: constants are pooled under the key
    [fmt.Sprintf("%T:%s", obj, obj.String())].  The constants of the
    compiler are numbers, strings, booleans, None and functions, whose
    rendering reads no list or dictionary. *)
Definition addConstant (c : Compiler) (obj : Object) : res (Z * Compiler) :=
  s <- Object_String format_g 0 [] obj ;;
  let key := Object_GoType obj +:+ ":" +:+ s in
  match constMap c !! key with
  | Some idx => Ok (idx, c)
  | None =>
      let idx := len (consts c) in
      Ok (idx, mkCompiler (instructions c) (consts c ++ [obj]) (names c) (varnames c)
                 (<[key := idx]> (constMap c)) (nameMap c) (varnameMap c)
                 (loopStack c) (scopeDepth c) (nextAddr c))
  end.

(** [c.emit(OpLoadConst, c.addConstant(obj))] *)
Definition emitConst (obj : Object) (c : Compiler) : res Compiler :=
  r <- addConstant c obj ;; Ok (emit_ OpLoadConst r.1 r.2).

(** Runs the compilation steps of a sequence of nodes in order. *)
Fixpoint seqM (steps : list (Compiler -> res Compiler)) (c : Compiler) : res Compiler :=
  match steps with
  | [] => Ok c
  | s :: steps' => c' <- s c ;; seqM steps' c'
  end.

(** [Compiler.compileName] *)
Definition compileName (Id : string) (c : Compiler) : Compiler :=
  if scopeDepth c =? 0 then
    let '(idx, c') := addName c Id in emit_ OpLoadName idx c'
  else
    match varnameMap c !! Id with
    | Some _ => let '(idx, c') := addVarname c Id in emit_ OpLoadFast idx c'
    | None => let '(idx, c') := addName c Id in emit_ OpLoadGlobal idx c'
    end.

(** The store emitted for a name target: [STORE_NAME] at module level,
    [STORE_FAST] inside a function. *)
Definition storeTarget (Id : string) (c : Compiler) : Compiler :=
  if scopeDepth c =? 0 then
    let '(idx, c') := addName c Id in emit_ OpStoreName idx c'
  else
    let '(idx, c') := addVarname c Id in emit_ OpStoreFast idx c'.

Definition binaryOpcode (op : string) : option OpCode :=
  if String.eqb op "+" then Some OpBinaryAdd
  else if String.eqb op "-" then Some OpBinarySub
  else if String.eqb op "*" then Some OpBinaryMul
  else if String.eqb op "/" then Some OpBinaryDiv
  else if String.eqb op "%" then Some OpBinaryMod
  else None.

Definition unaryOpcode (op : string) : option OpCode :=
  if String.eqb op "+" then Some OpUnaryPos
  else if String.eqb op "-" then Some OpUnaryNeg
  else if String.eqb op "not" then Some OpUnaryNot
  else None.

Definition compareOpcode (op : string) : option OpCode :=
  if String.eqb op "==" then Some OpCompareEq
  else if String.eqb op "!=" then Some OpCompareNe
  else if String.eqb op "<" then Some OpCompareLt
  else if String.eqb op "<=" then Some OpCompareLe
  else if String.eqb op ">" then Some OpCompareGt
  else if String.eqb op ">=" then Some OpCompareGe
  else if String.eqb op "in" then Some OpCompareIn
  else None.

(** The loop of [compileBoolOp] over [Values[1:]]: it returns the
    positions of the jumps that are still to be patched. *)
Fixpoint boolOpLoop (jump : OpCode) (rest : list (Compiler -> res Compiler))
    (jumpPositions : list Z) (c : Compiler) : res (list Z * Compiler) :=
  match rest with
  | [] => Ok (jumpPositions, c)
  | value :: rest' =>
      let c1 := emit_ OpDupTop 0 c in
      let '(pos, c2) := emit c1 jump 0 in
      let c3 := emit_ OpPopTop 0 c2 in
      c4 <- value c3 ;;
      boolOpLoop jump rest' (jumpPositions ++ [pos]) c4
  end.

(** [for _, pos := range jumpPositions { c.changeOperand(pos, len(c.instructions)) }] *)
Fixpoint patchJumps (jumpPositions : list Z) (c : Compiler) : res Compiler :=
  match jumpPositions with
  | [] => Ok c
  | pos :: rest => c' <- changeOperand c pos (len (instructions c)) ;; patchJumps rest c'
  end.

(** The loop of [compileCompare] over [Ops], reading [Right[i]]. *)
Fixpoint compareLoop (ops : list string) (right : list (Compiler -> res Compiler))
    (c : Compiler) : res Compiler :=
  match ops with
  | [] => Ok c
  | op :: ops' =>
      match right with
      | [] => index_panic
      | r :: right' =>
          c1 <- r c ;;
          match compareOpcode op with
          | Some o => compareLoop ops' right' (emit_ o 0 c1)
          | None => Error ("unsupported comparison operator: " +:+ op)
          end
      end
  end.

(** The loop of [compileDict] over [Keys], reading [Values[i]]. *)
Fixpoint dictLoop (keys values : list (Compiler -> res Compiler)) (c : Compiler)
  : res Compiler :=
  match keys with
  | [] => Ok c
  | k :: keys' =>
      c1 <- k c ;;
      match values with
      | [] => index_panic
      | v :: values' => c2 <- v c1 ;; dictLoop keys' values' c2
      end
  end.

(** [Compiler.compileExpr] and the functions it dispatches to. *)
Fixpoint compileExpr (expr : ast.Expr) (c : Compiler) {struct expr} : res Compiler :=
  match expr with
  | ast.BinaryOp l op r =>
      c1 <- compileExpr l c ;;
      c2 <- compileExpr r c1 ;;
      match binaryOpcode op with
      | Some o => Ok (emit_ o 0 c2)
      | None => Error ("unsupported binary operator: " +:+ op)
      end
  | ast.UnaryOp op e =>
      c1 <- compileExpr e c ;;
      match unaryOpcode op with
      | Some o => Ok (emit_ o 0 c1)
      | None => Error ("unsupported unary operator: " +:+ op)
      end
  | ast.BoolOp op values =>
      match List.map compileExpr values with
      | first :: ((_ :: _) as rest) =>
          c1 <- first c ;;
          r <- boolOpLoop (if String.eqb op "and" then OpPopJumpIfFalse else OpPopJumpIfTrue)
                 rest [] c1 ;;
          patchJumps r.1 r.2
      | _ => Error "boolean operation needs at least 2 values"
      end
  | ast.Compare l ops rights =>
      c1 <- compileExpr l c ;;
      compareLoop ops (List.map compileExpr rights) c1
  | ast.Call fn args =>
      c1 <- compileExpr fn c ;;
      c2 <- seqM (List.map compileExpr args) c1 ;;
      Ok (emit_ OpCallFunction (len args) c2)
  | ast.Subscript v s =>
      c1 <- compileExpr v c ;;
      c2 <- compileExpr s c1 ;;
      Ok (emit_ OpBinarySubscr 0 c2)
  | ast.Name id => Ok (compileName id c)
  | ast.Num n => emitConst (ToPyObject n) c
  | ast.Str s => emitConst (PyString s) c
  | ast.NameConstant v => emitConst (ToPyObject v) c
  | ast.List elts =>
      c1 <- seqM (List.map compileExpr elts) c ;;
      Ok (emit_ OpBuildList (len elts) c1)
  | ast.Dict keys values =>
      c1 <- dictLoop (List.map compileExpr keys) (List.map compileExpr values) c ;;
      Ok (emit_ OpBuildDict (len keys) c1)
  end.

(** The loop of [compilePrintStmt]: between two values the constant
    [" "] is loaded and printed. *)
Fixpoint printLoop (values : list (Compiler -> res Compiler)) (c : Compiler)
  : res Compiler :=
  match values with
  | [] => Ok c
  | value :: rest =>
      c1 <- value c ;;
      let c2 := emit_ OpPrintExpr 0 c1 in
      match rest with
      | [] => Ok c2
      | _ :: _ =>
          c3 <- emitConst (PyString " ") c2 ;;
          printLoop rest (emit_ OpPrintExpr 0 c3)
      end
  end.

Definition mkCode (c : Compiler) (argcount : Z) (filename name : string) (line : Z)
  : CodeObject :=
  mkCodeObject (nextAddr c) (instructions c) (consts c) (names c) (varnames c)
               argcount filename name line.

(** [Compiler.compileStmt] and the functions it dispatches to;
    [compileFuncDefStmt] runs [compileFuncDef] in a new compiler one
    scope deeper. *)
Fixpoint compileStmt (stmt : ast.Stmt) (c : Compiler) {struct stmt} : res Compiler :=
  match stmt with
  | ast.AssignStmt target value =>
      c1 <- compileExpr value c ;;
      match target with
      | ast.Name id => Ok (storeTarget id c1)
      | ast.Subscript v s =>
          c2 <- compileExpr v c1 ;;
          c3 <- compileExpr s c2 ;;
          Ok (emit_ OpStoreSubscr 0 c3)
      | _ => Error ("unsupported assignment target: " +:+ Expr_GoType target)
      end
  | ast.AugAssignStmt target op value =>
      match target with
      | ast.Name id =>
          let c1 :=
            if scopeDepth c =? 0 then
              let '(idx, c') := addName c id in emit_ OpLoadName idx c'
            else
              let '(idx, c') := addVarname c id in emit_ OpLoadFast idx c' in
          c2 <- compileExpr value c1 ;;
          if String.eqb op "+=" then Ok (storeTarget id (emit_ OpBinaryAdd 0 c2))
          else if String.eqb op "-=" then Ok (storeTarget id (emit_ OpBinarySub 0 c2))
          else Error ("unsupported augmented assignment operator: " +:+ op)
      | _ => Error ("unsupported augmented assignment target: " +:+ Expr_GoType target)
      end
  | ast.ExprStmt e =>
      c1 <- compileExpr e c ;;
      Ok (emit_ OpPopTop 0 c1)
  | ast.PrintStmt values =>
      c1 <- printLoop (List.map compileExpr values) c ;;
      Ok (emit_ OpPrintNewline 0 c1)
  | ast.IfStmt test body orelse =>
      c1 <- compileExpr test c ;;
      let '(jumpIfFalse, c2) := emit c1 OpPopJumpIfFalse 0 in
      c3 <- seqM (List.map compileStmt body) c2 ;;
      match orelse with
      | [] => changeOperand c3 jumpIfFalse (len (instructions c3))
      | _ :: _ =>
          let '(jumpEnd, c4) := emit c3 OpJumpForward 0 in
          c5 <- changeOperand c4 jumpIfFalse (len (instructions c4)) ;;
          c6 <- seqM (List.map compileStmt orelse) c5 ;;
          changeOperand c6 jumpEnd (len (instructions c6))
      end
  | ast.WhileStmt test body =>
      let loopStart := len (instructions c) in
      let c0 := set_loopStack c (loopStack c ++ [loopStart]) in
      c1 <- compileExpr test c0 ;;
      let '(jumpIfFalse, c2) := emit c1 OpPopJumpIfFalse 0 in
      c3 <- seqM (List.map compileStmt body) c2 ;;
      let c4 := emit_ OpJumpAbsolute loopStart c3 in
      c5 <- changeOperand c4 jumpIfFalse (len (instructions c4)) ;;
      Ok (set_loopStack c5 (removelast (loopStack c5)))
  | ast.ForStmt target iter body =>
      c1 <- compileExpr iter c ;;
      let c2 := emit_ OpGetIter 0 c1 in
      let loopStart := len (instructions c2) in
      let c3 := set_loopStack c2 (loopStack c2 ++ [loopStart]) in
      let '(forIter, c4) := emit c3 OpForIter 0 in
      match target with
      | ast.Name id =>
          let c5 := storeTarget id c4 in
          c6 <- seqM (List.map compileStmt body) c5 ;;
          let c7 := emit_ OpJumpAbsolute loopStart c6 in
          c8 <- changeOperand c7 forIter (len (instructions c7)) ;;
          Ok (set_loopStack c8 (removelast (loopStack c8)))
      | _ => Error ("unsupported for target: " +:+ Expr_GoType target)
      end
  | ast.FuncDef name args body line =>
      let compiler := set_scopeDepth (NewCompiler (nextAddr c)) (scopeDepth c + 1) in
      let f0 := fold_left (fun k arg => (addVarname k arg).2) args compiler in
      f1 <- seqM (List.map compileStmt body) f0 ;;
      f2 <- emitConst PyNone f1 ;;
      let f3 := emit_ OpReturnValue 0 f2 in
      let codeObj := mkCode f3 (len args) "<function>" name line in
      let pyFunc := PyFunction codeObj name in
      r <- addConstant (set_nextAddr c (nextAddr f3 + 1)%N) pyFunc ;;
      let c1 := emit_ OpLoadConst r.1 r.2 in
      let '(idx, c2) := addName c1 name in
      Ok (emit_ OpStoreName idx c2)
  | ast.ReturnStmt value =>
      c1 <- match value with
            | Some e => compileExpr e c
            | None => emitConst PyNone c
            end ;;
      Ok (emit_ OpReturnValue 0 c1)
  | ast.PassStmt => Ok c
  end.

Definition moduleCode (c : Compiler) : CodeObject :=
  mkCode c 0 "<module>" "<module>" 1.

(** The loop of [compileModule]: the last statement, when it is an
    expression statement, is compiled without [POP_TOP] and returned. *)
Fixpoint compileModuleBody (body : list ast.Stmt) (c : Compiler) : res CodeObject :=
  match body with
  | [] =>
      c1 <- emitConst PyNone c ;;
      Ok (moduleCode (emit_ OpReturnValue 0 c1))
  | [ast.ExprStmt e] =>
      c1 <- compileExpr e c ;;
      Ok (moduleCode (emit_ OpReturnValue 0 c1))
  | stmt :: rest =>
      c1 <- compileStmt stmt c ;;
      compileModuleBody rest c1
  end.

(** [Compiler.compileModule] *)
Definition compileModule (module : ast.Module) (c : Compiler) : res CodeObject :=
  compileModuleBody (ast.Body module) c.

(** [compiler.Compile] *)
Definition Compile (module : ast.Module) : res CodeObject :=
  compileModule module (NewCompiler 0).

End Compile.

(** ** The lexer (pkg/lexer) *)

Module lexer.

Inductive TokenType : Type :=
| ILLEGAL | EOF
| IDENT | INT | FLOAT | STRING
| ASSIGN | PLUS | MINUS | MULTIPLY | DIVIDE | MODULO | PLUS_ASSIGN | MINUS_ASSIGN
| EQ | NOT_EQ | LT | GT | LTE | GTE
| AND | OR | NOT
| COMMA | COLON | SEMICOLON | LPAREN | RPAREN | LBRACKET | RBRACKET | LBRACE | RBRACE
| NEWLINE | INDENT | DEDENT
| IF | ELIF | ELSE | WHILE | FOR | IN | DEF | RETURN | PRINT
| TRUE | FALSE | NONE | RANGE | PASS.

Record Token : Type := mkToken {
  Type_ : TokenType;
  Lexeme : string;
  Line : Z;
  Column : Z;
}.

(** [LookupIdent] with the [keywords] table *)
Definition LookupIdent (ident : string) : TokenType :=
  if String.eqb ident "if" then IF
  else if String.eqb ident "elif" then ELIF
  else if String.eqb ident "else" then ELSE
  else if String.eqb ident "while" then WHILE
  else if String.eqb ident "for" then FOR
  else if String.eqb ident "in" then IN
  else if String.eqb ident "def" then DEF
  else if String.eqb ident "return" then RETURN
  else if String.eqb ident "print" then PRINT
  else if String.eqb ident "True" then TRUE
  else if String.eqb ident "False" then FALSE
  else if String.eqb ident "None" then NONE
  else if String.eqb ident "and" then AND
  else if String.eqb ident "or" then OR
  else if String.eqb ident "not" then NOT
  else if String.eqb ident "range" then RANGE
  else if String.eqb ident "pass" then PASS
  else IDENT.

(** The lexer.  [src] is the source as runes.  [indentStack] lists the
    open indentation levels with the innermost first: its head is
    [indentStack[len(indentStack)-1]] of the Go slice, and its last
    element the level 0 pushed by [NewLexer]. *)
Record Lexer : Type := mkLexer {
  src : list Z;
  position : nat;
  line : Z;
  column : Z;
  indentStack : list Z;
  atLineStart : bool;
  pendingDedents : Z;
}.

(** [string(rs)] for a slice of runes *)
Definition string_of_runes (rs : list Z) : string :=
  str_of_bytes (flat_map utf8_encode rs).

Definition NewLexer (source : string) : Lexer :=
  mkLexer (runes source) 0 1 1 [0] true 0.

(** The number of runes not yet read. *)
Definition remaining (l : Lexer) : nat := length (src l) - position l.

Definition peekChar (l : Lexer) : Z := default 0 (src l !! position l).

Definition readChar (l : Lexer) : Z * Lexer :=
  match src l !! position l with
  | None => (0, l)
  | Some ch =>
      (ch,
       if ch =? 10 then
         mkLexer (src l) (S (position l)) (line l + 1) 1 (indentStack l) true
                 (pendingDedents l)
       else
         mkLexer (src l) (S (position l)) (line l) (column l + 1) (indentStack l)
                 (atLineStart l) (pendingDedents l))
  end.

(** [for { if cond(l.peekChar()) { l.readChar() } else { break } }].
    [n] is the number of runes left: at the end of the input [peekChar]
    is 0, on which no condition of the lexer's loops holds
    ([unicode.IsDigit(0)] and [unicode.IsLetter(0)] are false). *)
Fixpoint readWhile (cond : Z -> bool) (n : nat) (l : Lexer) : Lexer :=
  match n with
  | O => l
  | S n' => if cond (peekChar l) then readWhile cond n' (readChar l).2 else l
  end.

Definition skipWhitespace (l : Lexer) : Lexer :=
  readWhile (fun ch => (ch =? 32) || (ch =? 9) || (ch =? 13)) (remaining l) l.

Definition skipComment (l : Lexer) : Lexer :=
  readWhile (fun ch => negb ((ch =? 0) || (ch =? 10))) (remaining l) l.

Definition unescape (next : Z) : Z :=
  if next =? 110 then 10
  else if next =? 116 then 9
  else if next =? 114 then 13
  else next.

Fixpoint readStringLoop (n : nat) (quote : Z) (result : list Z) (l : Lexer)
  : list Z * Lexer :=
  match n with
  | O => (result, l)
  | S n' =>
      let ch := peekChar l in
      if (ch =? 0) || (ch =? quote) then (result, l)
      else if ch =? 92 then
        let l1 := (readChar l).2 in
        let '(next, l2) := readChar l1 in
        readStringLoop n' quote (result ++ [unescape next]) l2
      else
        let '(c, l1) := readChar l in
        readStringLoop n' quote (result ++ [c]) l1
  end.

(** [Lexer.readString] *)
Definition readString (quote : Z) (l : Lexer) : string * Lexer :=
  let '(result, l1) := readStringLoop (remaining l) quote [] l in
  let l2 := if peekChar l1 =? quote then (readChar l1).2 else l1 in
  (string_of_runes result, l2).

Definition slice (l : Lexer) (start stop : nat) : string :=
  string_of_runes (take (stop - start) (drop start (src l))).

Section Unicode.

(** [unicode.IsDigit] and [unicode.IsLetter] of the Go library. *)
Variable IsDigit : Z -> bool.
Variable IsLetter : Z -> bool.

Fixpoint readNumberLoop (n : nat) (hasDecimal : bool) (l : Lexer) : bool * Lexer :=
  match n with
  | O => (hasDecimal, l)
  | S n' =>
      let ch := peekChar l in
      if IsDigit ch then readNumberLoop n' hasDecimal (readChar l).2
      else if (ch =? 46) && negb hasDecimal then readNumberLoop n' true (readChar l).2
      else (hasDecimal, l)
  end.

(** [Lexer.readNumber] *)
Definition readNumber (l : Lexer) : string * TokenType * Lexer :=
  let start := position l in
  let '(hasDecimal, l1) := readNumberLoop (remaining l) false l in
  (slice l1 start (position l1), if hasDecimal then FLOAT else INT, l1).

(** [Lexer.readIdentifier] *)
Definition readIdentifier (l : Lexer) : string * Lexer :=
  let start := position l in
  let ch := peekChar l in
  if negb (IsLetter ch) && negb (ch =? 95) then ("", l)
  else
    let l1 := readWhile (fun ch => IsLetter ch || IsDigit ch || (ch =? 95)) (remaining l) l in
    (slice l1 start (position l1), l1).

(** The loop of [handleIndentation] that measures the indentation. *)
Fixpoint readIndent (n : nat) (indentLevel : Z) (l : Lexer) : Z * Lexer :=
  match n with
  | O => (indentLevel, l)
  | S n' =>
      let ch := peekChar l in
      if ch =? 32 then readIndent n' (indentLevel + 1) (readChar l).2
      else if ch =? 9 then readIndent n' (indentLevel + 8) (readChar l).2
      else (indentLevel, l)
  end.

(** [for len(l.indentStack) > 1 && l.indentStack[len(l.indentStack)-1] > indentLevel] *)
Fixpoint popLevels (stack : list Z) (indentLevel : Z) (dedentCount : Z) : list Z * Z :=
  match stack with
  | top :: ((_ :: _) as rest) =>
      if indentLevel <? top then popLevels rest indentLevel (dedentCount + 1)
      else (stack, dedentCount)
  | _ => (stack, dedentCount)
  end.

Definition set_indent (l : Lexer) (stack : list Z) (start : bool) (pending : Z) : Lexer :=
  mkLexer (src l) (position l) (line l) (column l) stack start pending.

(** [Lexer.handleIndentation]: the token it returns, if any. *)
Definition handleIndentation (l : Lexer) : option Token * Lexer :=
  if 0 <? pendingDedents l then
    (Some (mkToken DEDENT "" (line l) (column l)),
     set_indent l (indentStack l) (atLineStart l) (pendingDedents l - 1))
  else if negb (atLineStart l) then (None, l)
  else
    let l0 := set_indent l (indentStack l) false (pendingDedents l) in
    let start := column l0 in
    let '(indentLevel, l1) := readIndent (remaining l0) 0 l0 in
    if (peekChar l1 =? 10) || (peekChar l1 =? 35) || (peekChar l1 =? 0) then (None, l1)
    else
      let currentIndent := hd 0 (indentStack l1) in
      if currentIndent <? indentLevel then
        (Some (mkToken INDENT "" (line l1) start),
         set_indent l1 (indentLevel :: indentStack l1) (atLineStart l1) (pendingDedents l1))
      else if indentLevel <? currentIndent then
        let '(stack, dedentCount) := popLevels (indentStack l1) indentLevel 0 in
        let l2 := set_indent l1 stack (atLineStart l1) (pendingDedents l1) in
        match stack with
        | top :: _ =>
            if top =? indentLevel then
              (Some (mkToken DEDENT "" (line l2) start),
               set_indent l2 stack (atLineStart l2) (dedentCount - 1))
            else (Some (mkToken ILLEGAL "indentation error" (line l2) start), l2)
        | [] => (Some (mkToken ILLEGAL "indentation error" (line l2) start), l2)
        end
      else (None, l1).

(** A two-character operator when the next rune is [=]. *)
Definition withEq (l : Lexer) (two one : TokenType) (lex2 lex1 : string)
    (ln col : Z) : Token * Lexer :=
  if peekChar l =? 61 then (mkToken two lex2 ln col, (readChar l).2)
  else (mkToken one lex1 ln col, l).

Definition unread (l : Lexer) : Lexer :=
  mkLexer (src l) (position l - 1) (line l) (column l - 1) (indentStack l)
          (atLineStart l) (pendingDedents l).

(** [Lexer.NextToken].  The call after a comment is the only recursive
    one; [n] bounds the depth of the recursion. *)
Fixpoint NextToken_rec (n : nat) (l : Lexer) : option (Token * Lexer) :=
  match handleIndentation l with
  | (Some token, l') => Some (token, l')
  | (None, l0) =>
      let l1 := skipWhitespace l0 in
      let ln := line l1 in
      let col := column l1 in
      let '(ch, l2) := readChar l1 in
      let simple t lex := Some (mkToken t lex ln col, l2) in
      if ch =? 0 then
        match indentStack l2 with
        | _ :: ((_ :: _) as rest) =>
            Some (mkToken DEDENT "" ln col,
                  set_indent l2 rest (atLineStart l2) (pendingDedents l2))
        | _ => simple EOF ""
        end
      else if ch =? 10 then simple NEWLINE "
"
      else if ch =? 35 then
        match n with
        | O => None
        | S n' => NextToken_rec n' (skipComment l2)
        end
      else if ch =? 61 then Some (withEq l2 EQ ASSIGN "==" "=" ln col)
      else if ch =? 33 then Some (withEq l2 NOT_EQ ILLEGAL "!=" "!" ln col)
      else if ch =? 60 then Some (withEq l2 LTE LT "<=" "<" ln col)
      else if ch =? 62 then Some (withEq l2 GTE GT ">=" ">" ln col)
      else if ch =? 43 then Some (withEq l2 PLUS_ASSIGN PLUS "+=" "+" ln col)
      else if ch =? 45 then Some (withEq l2 MINUS_ASSIGN MINUS "-=" "-" ln col)
      else if ch =? 42 then simple MULTIPLY "*"
      else if ch =? 47 then simple DIVIDE "/"
      else if ch =? 37 then simple MODULO "%"
      else if ch =? 44 then simple COMMA ","
      else if ch =? 58 then simple COLON ":"
      else if ch =? 59 then simple SEMICOLON ";"
      else if ch =? 40 then simple LPAREN "("
      else if ch =? 41 then simple RPAREN ")"
      else if ch =? 91 then simple LBRACKET "["
      else if ch =? 93 then simple RBRACKET "]"
      else if ch =? 123 then simple LBRACE "{"
      else if ch =? 125 then simple RBRACE "}"
      else if (ch =? 34) || (ch =? 39) then
        let '(lexeme, l3) := readString ch l2 in
        Some (mkToken STRING lexeme ln col, l3)
      else if IsDigit ch then
        let '(lexeme, tokenType, l3) := readNumber (unread l2) in
        Some (mkToken tokenType lexeme ln col, l3)
      else if IsLetter ch || (ch =? 95) then
        let '(lexeme, l3) := readIdentifier (unread l2) in
        Some (mkToken (LookupIdent lexeme) lexeme ln col, l3)
      else simple ILLEGAL (string_of_runes [ch])
  end.

(** A comment is followed by a newline or by the end of the input, so
    one nested call is the most [NextToken] makes. *)
Definition NextToken (l : Lexer) : option (Token * Lexer) := NextToken_rec 1 l.

Definition isEOF (t : Token) : bool :=
  match Type_ t with EOF => true | _ => false end.

(** [Lexer.AllTokens]: [n] bounds the number of tokens. *)
Fixpoint AllTokens_loop (n : nat) (l : Lexer) : option (list Token) :=
  match n with
  | O => None
  | S n' =>
      match NextToken l with
      | None => None
      | Some (token, l') =>
          if isEOF token then Some [token]
          else tokens ← AllTokens_loop n' l'; Some (token :: tokens)
      end
  end.

(** Between two tokens the lexer reads a rune, closes a level or works
    off a pending DEDENT, so twice the length of the source and two
    bound the number of tokens. *)
Definition AllTokens (l : Lexer) : option (list Token) :=
  AllTokens_loop (2 * length (src l) + 2) l.

End Unicode.

Definition isINDENT (t : Token) : bool :=
  match Type_ t with INDENT => true | _ => false end.
Definition isDEDENT (t : Token) : bool :=
  match Type_ t with DEDENT => true | _ => false end.

(** The ILLEGAL token that [handleIndentation] returns when no open
    level matches the indentation of a line. *)
Definition isIndentationError (t : Token) : bool :=
  match Type_ t with
  | ILLEGAL => String.eqb (Lexeme t) "indentation error"
  | _ => false
  end.

Definition count (p : Token -> bool) (tokens : list Token) : nat :=
  length (List.filter p tokens).

End lexer.

(** ** Definitions used to state the properties *)

(** Structural equality as the specification words it: the same variant
    with equal contents.  Floats are compared with the equality of
    float64, functions by the code object they point to, built-ins by
    name; lists and dictionaries through the store [h]. *)
Inductive StructEq (h : Heap) : Object -> Object -> Prop :=
| StructEq_int a : StructEq h (PyInt a) (PyInt a)
| StructEq_float a b : PrimFloat.eqb a b = true -> StructEq h (PyFloat a) (PyFloat b)
| StructEq_string s : StructEq h (PyString s) (PyString s)
| StructEq_bool b : StructEq h (PyBool b) (PyBool b)
| StructEq_none : StructEq h PyNone PyNone
| StructEq_list a b xs ys :
    h !! a = Some (HList xs) -> h !! b = Some (HList ys) ->
    Forall2 (StructEq h) xs ys ->
    StructEq h (PyList a) (PyList b)
| StructEq_dict a b p pk q qk :
    h !! a = Some (HDict p pk) -> h !! b = Some (HDict q qk) ->
    size p = size q ->
    (forall k v, p !! k = Some v -> exists w, q !! k = Some w /\ StructEq h v w) ->
    StructEq h (PyDict a) (PyDict b)
| StructEq_function c d n m : Addr c = Addr d -> StructEq h (PyFunction c n) (PyFunction d m)
| StructEq_builtin name f g : StructEq h (PyBuiltin name f) (PyBuiltin name g).

(** [finite d h o]: through the store [h], [o] holds lists and
    dictionaries nested at most [d] deep, every reference in it names a
    cell of its kind, and no element is the nil interface.  A list or a
    dictionary that contains itself is finite for no [d]. *)
Fixpoint finite (d : nat) (h : Heap) (o : Object) : bool :=
  match o with
  | GoNil => false
  | PyList a =>
      match d with
      | O => false
      | S d' =>
          match h !! a with
          | Some (HList els) => forallb (finite d' h) els
          | _ => false
          end
      end
  | PyDict a =>
      match d with
      | O => false
      | S d' =>
          match h !! a with
          | Some (HDict p _) =>
              forallb (fun kv : string * Object => finite d' h kv.2) (map_to_list p)
          | _ => false
          end
      end
  | _ => true
  end.

Definition is_PyInt (o : Object) : bool :=
  match o with PyInt _ => true | _ => false end.

(** The examples render no float: they run with a formatter that is
    never called. *)
Definition no_float_format (f : float) : string := "".

(** [unicode.IsDigit] and [unicode.IsLetter] on the ASCII range, for the
    examples of the lexer. *)
Definition ascii_IsDigit (ch : Z) : bool := (48 <=? ch) && (ch <=? 57).
Definition ascii_IsLetter (ch : Z) : bool :=
  ((65 <=? ch) && (ch <=? 90)) || ((97 <=? ch) && (ch <=? 122)).

Definition ins (op : OpCode) (arg : Z) : Instruction := mkInstruction op arg.

(** * Properties *)

(** ** Machine integers *)

Lemma wrap_small z : in_int z -> wrap z = z.
Proof.
  unfold in_int, wrap, MinInt, MaxInt. intros H.
  rewrite Z.mod_small; lia.
Qed.

Lemma quot_in_int a b :
  in_int a -> in_int b -> b <> 0 -> ~ (a = MinInt /\ b = -1) -> in_int (Z.quot a b).
Proof.
  unfold in_int, MinInt, MaxInt. intros Ha Hb Hb0 Hex.
  destruct (Z.eq_dec b 1) as [->|H1]; [rewrite Z.quot_1_r; lia|].
  destruct (Z.eq_dec b (-1)) as [->|H2].
  { replace (-1) with (- (1)) by reflexivity.
    rewrite Z.quot_opp_r, Z.quot_1_r by lia. lia. }
  assert (Hq : Z.abs (Z.quot a b) <= 2 ^ 62).
  { rewrite <- Z.quot_abs by lia.
    rewrite Z.quot_div_nonneg by lia.
    apply Z.div_le_upper_bound; lia. }
  lia.
Qed.

Lemma rem_in_int a b : in_int b -> b <> 0 -> in_int (Z.rem a b).
Proof.
  unfold in_int, MinInt, MaxInt. intros Hb Hb0.
  pose proof (Z.rem_bound_abs a b Hb0). lia.
Qed.

(** ** Division and modulo ([binaryOp]) *)

Lemma binaryOp_mod_not_int l r :
  is_PyInt l && is_PyInt r = false ->
  binaryOp l r "%" = unsupported_operand "%" l r.
Proof.
  unfold binaryOp. simpl.
  destruct l; try reflexivity. destruct r; try reflexivity. discriminate.
Qed.

(** C6 (as amended).  For integers [a] and [b] of the machine: when
    [b <> 0], [a / b] is the integer quotient truncated toward zero,
    wrapped to the machine word (it is the mathematical quotient except
    for [MinInt / -1]), and [a % b] is Go's remainder, both integers;
    when [b = 0] both are runtime errors.  Modulo with an operand that is
    not an integer is a runtime error.  With a float operand and a
    numeric other operand, [/] is the float64 division of the promoted
    operands, unless the divisor is zero (the integer 0, or a float equal
    to 0.0), which is the runtime error "division by zero". *)
Theorem C6_division_modulo (a b : Z) (Ha : in_int a) (Hb : in_int b) :
  (b <> 0 ->
     binaryOp (PyInt a) (PyInt b) "/" = Ok (PyInt (int_quo a b)) /\
     (~ (a = MinInt /\ b = -1) -> int_quo a b = Z.quot a b) /\
     binaryOp (PyInt a) (PyInt b) "%" = Ok (PyInt (Z.rem a b)) /\
     in_int (int_quo a b) /\ in_int (Z.rem a b))
  /\ (b = 0 ->
     binaryOp (PyInt a) (PyInt b) "/" = Error "division by zero" /\
     binaryOp (PyInt a) (PyInt b) "%" = Error "integer division or modulo by zero")
  /\ (forall l r tl tr,
     is_PyInt l && is_PyInt r = false ->
     Object_Type l = Ok tl -> Object_Type r = Ok tr ->
     binaryOp l r "%" =
       Error ("unsupported operand type(s) for %: '" +:+ tl +:+ "' and '" +:+ tr +:+ "'"))
  /\ (forall f g : float,
     binaryOp (PyInt a) (PyFloat g) "/" =
       (if float_is_zero g then Error "division by zero"
        else Ok (PyFloat (float_of_int a / g)%float)) /\
     binaryOp (PyFloat f) (PyInt b) "/" =
       (if b =? 0 then Error "division by zero"
        else Ok (PyFloat (f / float_of_int b)%float)) /\
     binaryOp (PyFloat f) (PyFloat g) "/" =
       (if float_is_zero g then Error "division by zero"
        else Ok (PyFloat (f / g)%float))).
Proof.
  split; [|split; [|split]].
  - intros Hb0.
    assert (Hdiv : binaryOp (PyInt a) (PyInt b) "/" = Ok (PyInt (int_quo a b))).
    { unfold binaryOp; simpl. destruct (Z.eqb_spec b 0); [contradiction | reflexivity]. }
    assert (Hmod : binaryOp (PyInt a) (PyInt b) "%" = Ok (PyInt (Z.rem a b))).
    { unfold binaryOp; simpl. destruct (Z.eqb_spec b 0); [contradiction | reflexivity]. }
    assert (Hexact : ~ (a = MinInt /\ b = -1) -> int_quo a b = Z.quot a b).
    { intros Hex. unfold int_quo. apply wrap_small. now apply quot_in_int. }
    assert (Hrange : in_int (int_quo a b)).
    { destruct (Z.eq_dec a MinInt) as [->|Hna]; [destruct (Z.eq_dec b (-1)) as [->|Hnb]|].
      - vm_compute. split; discriminate.
      - rewrite Hexact by tauto. apply quot_in_int; auto; tauto.
      - rewrite Hexact by tauto. apply quot_in_int; auto; tauto. }
    pose proof (rem_in_int a b Hb Hb0). tauto.
  - intros ->. split; reflexivity.
  - intros l r tl tr Hnot Hl Hr.
    rewrite binaryOp_mod_not_int by exact Hnot.
    unfold unsupported_operand. rewrite Hl, Hr. reflexivity.
  - intros f g. split; [|split]; reflexivity.
Qed.

Lemma C6_division_modulo_witness :
  binaryOp (PyInt (-7)) (PyInt 2) "/" = Ok (PyInt (-3)) /\
  binaryOp (PyInt (-7)) (PyInt 2) "%" = Ok (PyInt (-1)).
Proof.
  assert (Ha : in_int (-7)) by (unfold in_int, MinInt, MaxInt; lia).
  assert (Hb : in_int 2) by (unfold in_int, MinInt, MaxInt; lia).
  destruct (C6_division_modulo (-7) 2 Ha Hb) as [H _].
  destruct H as (Hq & _ & Hr & _); [lia|].
  split; [exact Hq | exact Hr].
Defined.

(** C6 as stated fails on a float divisor equal to zero: float64
    division would give an infinity, the code returns an error. *)
Lemma C6_float_zero_divisor :
  binaryOp (PyFloat 1%float) (PyFloat 0%float) "/" = Error "division by zero" /\
  (1 / 0)%float = infinity.
Proof. split; reflexivity. Qed.

(** ** Equality of objects *)

Lemma mapM_Ok {A B} (f : A -> res B) l bs :
  mapM f l = Ok bs -> Forall2 (fun x b => f x = Ok b) l bs.
Proof.
  revert bs. induction l as [|x l IH]; simpl; intros bs H.
  - injection H as <-. constructor.
  - destruct (f x) as [y| | |] eqn:Hx; simpl in H; try discriminate.
    destruct (mapM f l) as [ys| | |] eqn:Hl; simpl in H; try discriminate.
    injection H as <-. constructor; auto.
Qed.

Lemma list_equal_spec (h : Heap) (eq : Object -> Object -> res bool) xs ys b :
  (forall x y b, eq x y = Ok b -> (b = true <-> StructEq h x y)) ->
  length xs = length ys ->
  list_equal eq xs ys = Ok b ->
  (b = true <-> Forall2 (StructEq h) xs ys).
Proof.
  intros Heq. revert ys b.
  induction xs as [|x xs IH]; intros [|y ys] b Hlen H; simpl in *; try discriminate.
  - injection H as <-. split; auto.
  - destruct (eq x y) as [c| | |] eqn:Hxy; simpl in H; try discriminate.
    specialize (Heq _ _ _ Hxy). destruct c.
    + injection Hlen as Hlen. specialize (IH _ _ Hlen H).
      split.
      * intros Hb. constructor; [apply Heq; reflexivity | apply IH, Hb].
      * intros HF. inversion HF; subst. apply IH. assumption.
    + injection H as <-. split; [discriminate|].
      intros HF. inversion HF; subst. apply Heq. assumption.
Qed.

Lemma forallb_Forall2 {A} (P : A -> Prop) (g : A -> res bool) l bs :
  Forall2 (fun x b => g x = Ok b) l bs ->
  (forall x b, g x = Ok b -> (b = true <-> P x)) ->
  (forallb id bs = true <-> Forall P l).
Proof.
  intros HF Hg. induction HF as [|x b l bs Hx HF IH]; simpl.
  - split; auto.
  - specialize (Hg _ _ Hx). rewrite andb_true_iff, IH. unfold id.
    split.
    + intros [Hb Hl]. constructor; tauto.
    + intros HFa. inversion HFa; subst. tauto.
Qed.

Lemma Object_Equal_scalar n h x y b :
  match x with PyList _ | PyDict _ | GoNil => False | _ => True end ->
  Object_Equal n h x y = Ok b -> (b = true <-> StructEq h x y).
Proof.
  intros Hx H.
  destruct x; try contradiction; destruct n; simpl in H; injection H as <-;
    destruct y; try (split; [discriminate | intros HS; inversion HS]).
  all: try (rewrite Z.eqb_eq; split; [intros ->; constructor | intros HS; inversion HS; reflexivity]).
  all: try (rewrite String.eqb_eq; split; [intros ->; constructor | intros HS; inversion HS; reflexivity]).
  all: try (rewrite Bool.eqb_true_iff; split; [intros ->; constructor | intros HS; inversion HS; reflexivity]).
  all: try (rewrite N.eqb_eq; split; [intros Hc; constructor; exact Hc | intros HS; inversion HS; assumption]).
  all: try (split; [intros Hc; constructor; exact Hc | intros HS; inversion HS; assumption]).
  all: split; [constructor | reflexivity].
Qed.

Lemma Object_Equal_spec n h x y b :
  Object_Equal n h x y = Ok b -> (b = true <-> StructEq h x y).
Proof.
  revert x y b. induction n as [|n IH]; intros x y b H.
  - destruct x; try (refine (Object_Equal_scalar _ h _ y b _ H); exact I); simpl in H; try discriminate.
    + destruct y; try discriminate; injection H as <-; (split; [discriminate | intros HS; inversion HS]).
    + destruct y; try discriminate; injection H as <-; (split; [discriminate | intros HS; inversion HS]).
  - destruct x; try (refine (Object_Equal_scalar _ h _ y b _ H); exact I); simpl in H; try discriminate.
    + (* lists *)
      destruct y; try (injection H as <-; split; [discriminate | intros HS; inversion HS]).
      unfold get_list in H.
      destruct (h !! ref) as [[xs|]|] eqn:Ha; simpl in H; try discriminate.
      destruct (h !! ref0) as [[ys|]|] eqn:Hb; simpl in H; try discriminate.
      destruct (Nat.eqb_spec (length xs) (length ys)) as [Hlen|Hlen]; simpl in H.
      * rewrite (list_equal_spec h _ xs ys b (IH) Hlen H).
        split.
        -- intros HF. econstructor; eauto.
        -- intros HS. inversion HS; subst. congruence.
      * injection H as <-. split; [discriminate|].
        intros HS. inversion HS; subst.
        match goal with HF : Forall2 _ _ _ |- _ => apply Forall2_length in HF end.
        congruence.
    + (* dictionaries *)
      destruct y; try (injection H as <-; split; [discriminate | intros HS; inversion HS]).
      unfold get_dict in H.
      destruct (h !! ref) as [[|p pk]|] eqn:Ha; simpl in H; try discriminate.
      destruct (h !! ref0) as [[|q qk]|] eqn:Hb; simpl in H; try discriminate.
      destruct (Nat.eqb_spec (size p) (size q)) as [Hsz|Hsz]; simpl in H.
      * match type of H with
        | bind (mapM ?g ?l) _ = _ => destruct (mapM g l) as [bs| | |] eqn:Hm; simpl in H;
                                      try discriminate; set (G := g) in *
        end.
        injection H as <-. apply mapM_Ok in Hm.
        rewrite (forallb_Forall2
                   (fun kv => exists w, q !! kv.1 = Some w /\ StructEq h kv.2 w) G _ _ Hm).
        -- rewrite Forall_forall. split.
           ++ intros HF. econstructor; eauto.
              intros k v Hkv. apply (HF (k, v)). now apply elem_of_map_to_list.
           ++ intros HS [k v] Hin. inversion HS; subst.
              apply elem_of_map_to_list in Hin. simpl.
              assert (p0 = p) by congruence. assert (q0 = q) by congruence. subst. eauto.
        -- intros [k v] c. unfold G. simpl.
           destruct (q !! k) as [w|] eqn:Hq.
           ++ intros Hc. rewrite (IH _ _ _ Hc). split; eauto.
              intros (w' & Hw' & HS). congruence.
           ++ intros Hc. injection Hc as <-. split; [discriminate|].
              intros (w' & Hw' & _). discriminate.
      * injection H as <-. split; [discriminate|].
        intros HS. inversion HS; subst. congruence.
Qed.

Lemma finite_mono d : forall n h o,
  finite d h o = true -> (d <= n)%nat -> finite n h o = true.
Proof.
  induction d as [|d IH]; intros n h o Hf Hn.
  - destruct o, n; simpl in *; try discriminate; reflexivity.
  - destruct n as [|n]; [lia|].
    destruct o; simpl in *; try discriminate; try reflexivity.
    + destruct (h !! ref) as [[els|]|]; try discriminate.
      rewrite forallb_forall in *. intros x Hx. apply IH; [apply Hf, Hx | lia].
    + destruct (h !! ref) as [[|p ks]|]; try discriminate.
      rewrite forallb_forall in *. intros x Hx. apply IH; [apply Hf, Hx | lia].
Qed.

Lemma mapM_total {A B} (f : A -> res B) l :
  Forall (fun x => exists b, f x = Ok b) l -> exists bs, mapM f l = Ok bs.
Proof.
  induction 1 as [|x l [b Hb] _ [bs Hbs]]; simpl; [eauto|].
  rewrite Hb, Hbs. simpl. eauto.
Qed.

Lemma list_equal_total (eq : Object -> Object -> res bool) xs : forall ys,
  length xs = length ys ->
  Forall (fun x => forall y, y ∈ ys -> exists b, eq x y = Ok b) xs ->
  exists b, list_equal eq xs ys = Ok b.
Proof.
  induction xs as [|x xs IH]; intros [|y ys] Hlen HF; simpl in *; try discriminate; eauto.
  inversion HF as [|? ? Hx HF']; subst.
  destruct (Hx y) as [b Hb]; [constructor|]. rewrite Hb. simpl.
  destruct b; [|eauto]. apply IH; [congruence|].
  eapply Forall_impl; [exact HF'|]. intros x' Hx' y' Hy'. apply Hx'. now constructor.
Qed.

(** [Equal] returns on values of finite nesting, with fuel for their
    depth. *)
Lemma Object_Equal_total n : forall h x y,
  finite n h x = true -> finite n h y = true ->
  exists b, Object_Equal n h x y = Ok b.
Proof.
  induction n as [|n IH]; intros h x y Hx Hy.
  - destruct x; simpl in *; try discriminate; eauto.
  - destruct x; simpl in *; try discriminate; eauto.
    + (* lists *)
      destruct y; eauto. simpl in Hy. unfold get_list.
      destruct (h !! ref) as [[xs|]|]; try discriminate.
      destruct (h !! ref0) as [[ys|]|]; try discriminate.
      cbn [bind]. destruct (Nat.eqb_spec (length xs) (length ys)) as [Hlen|Hlen];
        simpl; [|eauto].
      apply list_equal_total; [exact Hlen|].
      rewrite forallb_forall in Hx, Hy. apply Forall_forall. intros x Hin y Hiny.
      apply IH; [apply Hx | apply Hy]; apply list_elem_of_In; assumption.
    + (* dictionaries *)
      destruct y; eauto. simpl in Hy. unfold get_dict.
      destruct (h !! ref) as [[|p pk]|]; try discriminate.
      destruct (h !! ref0) as [[|q qk]|]; try discriminate.
      cbn [bind fst]. destruct (negb (size p =? size q)%nat); [eauto|].
      match goal with
      | |- exists b, bind (mapM ?g ?l) _ = _ =>
          destruct (mapM_total g l) as [bs Hbs]; [|rewrite Hbs; simpl; eauto]
      end.
      rewrite forallb_forall in Hx, Hy. apply Forall_forall. intros [k v] Hin. simpl.
      destruct (q !! k) as [w|] eqn:Hq; [|eauto].
      apply IH.
      * apply (Hx (k, v)), list_elem_of_In, Hin.
      * apply (Hy (k, w)), list_elem_of_In, elem_of_map_to_list, Hq.
Qed.

Lemma StructEq_int_float h i g : ~ StructEq h (PyInt i) (PyFloat g).
Proof. intros HS. inversion HS. Qed.



(** A list that contains itself is finite for no depth, and comparing
    it with itself returns with no fuel: in Go the recursion of
    [PyList.Equal] does not end. *)
Lemma Object_Equal_cyclic n :
  Object_Equal n [HList [PyList 0]] (PyList 0) (PyList 0) = OutOfFuel /\
  finite n [HList [PyList 0]] (PyList 0) = false.
Proof. induction n as [|n [IH1 IH2]]; [split; reflexivity|]. simpl in *. rewrite IH1, IH2. split; reflexivity. Qed.


(** ** GET_ITER *)

Definition is_ascii_string (s : string) : Prop :=
  Forall (fun a => (Ascii.N_of_ascii a < 128)%N) (String.list_ascii_of_string s).

(** On a string of ASCII characters [range] yields the characters. *)
Lemma runes_ascii s :
  is_ascii_string s ->
  map string_of_rune (runes s)
  = map (fun a => String a EmptyString) (String.list_ascii_of_string s).
Proof.
  unfold runes, is_ascii_string.
  induction s as [|a s IH]; simpl; intros HF; [reflexivity|].
  inversion HF as [|? ? Ha HF']; subst.
  unfold bytes_of in *. simpl.
  unfold utf8_decode1.
  assert (Hlt : (Z.of_N (Ascii.N_of_ascii a) <? 128) = true) by (apply Z.ltb_lt; lia).
  rewrite Hlt. simpl. f_equal.
  - unfold string_of_rune, utf8_encode.
    assert (Hnn : (Z.of_N (Ascii.N_of_ascii a) <? 0) = false) by (apply Z.ltb_ge; lia).
    assert (Hmax : (1114111 <? Z.of_N (Ascii.N_of_ascii a)) = false) by (apply Z.ltb_ge; lia).
    assert (Hsur : (55296 <=? Z.of_N (Ascii.N_of_ascii a)) = false) by (apply Z.leb_gt; lia).
    rewrite Hnn, Hmax, Hsur, Hlt. simpl.
    unfold str_of_bytes. simpl.
    rewrite N2Z.id, Ascii.ascii_N_embedding. reflexivity.
  - apply IH. assumption.
Qed.



(** ** Induction on the syntax tree *)

Section Expr_induction.

Variable P : ast.Expr -> Prop.
Hypothesis HBinaryOp : forall l op r, P l -> P r -> P (ast.BinaryOp l op r).
Hypothesis HUnaryOp : forall op e, P e -> P (ast.UnaryOp op e).
Hypothesis HBoolOp : forall op vs, Forall P vs -> P (ast.BoolOp op vs).
Hypothesis HCompare : forall l ops rs, P l -> Forall P rs -> P (ast.Compare l ops rs).
Hypothesis HCall : forall fn args, P fn -> Forall P args -> P (ast.Call fn args).
Hypothesis HSubscript : forall v s, P v -> P s -> P (ast.Subscript v s).
Hypothesis HName : forall id, P (ast.Name id).
Hypothesis HNum : forall n, P (ast.Num n).
Hypothesis HStr : forall s, P (ast.Str s).
Hypothesis HNameConstant : forall v, P (ast.NameConstant v).
Hypothesis HList : forall elts, Forall P elts -> P (ast.List elts).
Hypothesis HDict : forall ks vs, Forall P ks -> Forall P vs -> P (ast.Dict ks vs).

Fixpoint Expr_induction (e : ast.Expr) : P e :=
  let all := fix all (l : list ast.Expr) : Forall P l :=
               match l with
               | [] => @List.Forall_nil _ P
               | x :: l' => @List.Forall_cons _ P x l' (Expr_induction x) (all l')
               end in
  match e with
  | ast.BinaryOp l op r => HBinaryOp l op r (Expr_induction l) (Expr_induction r)
  | ast.UnaryOp op e' => HUnaryOp op e' (Expr_induction e')
  | ast.BoolOp op vs => HBoolOp op vs (all vs)
  | ast.Compare l ops rs => HCompare l ops rs (Expr_induction l) (all rs)
  | ast.Call fn args => HCall fn args (Expr_induction fn) (all args)
  | ast.Subscript v s => HSubscript v s (Expr_induction v) (Expr_induction s)
  | ast.Name id => HName id
  | ast.Num n => HNum n
  | ast.Str s => HStr s
  | ast.NameConstant v => HNameConstant v
  | ast.List elts => HList elts (all elts)
  | ast.Dict ks vs => HDict ks vs (all ks) (all vs)
  end.

End Expr_induction.

Section Stmt_induction.

Variable P : ast.Stmt -> Prop.
Hypothesis HAssign : forall t v, P (ast.AssignStmt t v).
Hypothesis HAugAssign : forall t op v, P (ast.AugAssignStmt t op v).
Hypothesis HExprStmt : forall e, P (ast.ExprStmt e).
Hypothesis HPrint : forall vs, P (ast.PrintStmt vs).
Hypothesis HIf : forall t body orelse,
  Forall P body -> Forall P orelse -> P (ast.IfStmt t body orelse).
Hypothesis HWhile : forall t body, Forall P body -> P (ast.WhileStmt t body).
Hypothesis HFor : forall t it body, Forall P body -> P (ast.ForStmt t it body).
Hypothesis HFuncDef : forall name args body line,
  Forall P body -> P (ast.FuncDef name args body line).
Hypothesis HReturn : forall v, P (ast.ReturnStmt v).
Hypothesis HPass : P ast.PassStmt.

Fixpoint Stmt_induction (s : ast.Stmt) : P s :=
  let all := fix all (l : list ast.Stmt) : Forall P l :=
               match l with
               | [] => @List.Forall_nil _ P
               | x :: l' => @List.Forall_cons _ P x l' (Stmt_induction x) (all l')
               end in
  match s with
  | ast.AssignStmt t v => HAssign t v
  | ast.AugAssignStmt t op v => HAugAssign t op v
  | ast.ExprStmt e => HExprStmt e
  | ast.PrintStmt vs => HPrint vs
  | ast.IfStmt t body orelse => HIf t body orelse (all body) (all orelse)
  | ast.WhileStmt t body => HWhile t body (all body)
  | ast.ForStmt t it body => HFor t it body (all body)
  | ast.FuncDef name args body line => HFuncDef name args body line (all body)
  | ast.ReturnStmt v => HReturn v
  | ast.PassStmt => HPass
  end.

End Stmt_induction.

(** ** What compiling an expression changes *)

(** [table_sync m l]: the map [m] sends a name to its index in the
    table [l], as [addName] and [addVarname] keep them. *)
Definition table_sync (m : gmap string Z) (l : list string) : Prop :=
  forall id idx, m !! id = Some idx <-> (0 <= idx /\ l !! Z.to_nat idx = Some id).

Definition names_sync (c : Compiler) : Prop := table_sync (nameMap c) (names c).
Definition vars_sync (c : Compiler) : Prop := table_sync (varnameMap c) (varnames c).

Lemma table_sync_add m l name :
  m !! name = None -> table_sync m l -> table_sync (<[name := len l]> m) (l ++ [name]).
Proof.
  intros Hn Hs id idx. unfold len.
  destruct (decide (name = id)) as [->|Hne].
  - rewrite lookup_insert_eq. split.
    + intros H; injection H as <-. split; [lia|].
      rewrite Nat2Z.id. apply list_lookup_middle. reflexivity.
    + intros [Hnn Hl]. f_equal.
      destruct (decide (Z.to_nat idx < length l)%nat) as [Hlt|Hge].
      * rewrite lookup_app_l in Hl by exact Hlt.
        assert (m !! id = Some idx) by (apply Hs; auto). congruence.
      * apply lookup_lt_Some in Hl. rewrite length_app in Hl. simpl in Hl. lia.
  - rewrite lookup_insert_ne by exact Hne. rewrite (Hs id idx). split.
    + intros [Hnn Hl]. split; [exact Hnn|]. apply lookup_app_l_Some. exact Hl.
    + intros [Hnn Hl]. split; [exact Hnn|].
      apply lookup_app_Some in Hl as [Hl|[Hge Hl]]; [exact Hl|].
      apply list_lookup_singleton_Some in Hl as [_ ->]. contradiction.
Qed.

Lemma table_sync_elem m l id : table_sync m l -> (id ∈ l <-> is_Some (m !! id)).
Proof.
  intros Hs. split.
  - intros Hin. apply list_elem_of_lookup in Hin as [i Hi].
    exists (Z.of_nat i). apply Hs. rewrite Nat2Z.id. split; [lia | exact Hi].
  - intros [idx Hidx]. apply Hs in Hidx as [_ Hl].
    apply list_elem_of_lookup. eauto.
Qed.

(** [extends base c]: the instructions of [c] start with [base]. *)
Definition extends (base : list Instruction) (c : Compiler) : Prop :=
  exists code, instructions c = base ++ code.

(** [expr_step c c']: from [c] to [c'] instructions were appended after
    those of [c], neither the scope nor the local names changed, and the
    name table stays in step with its map. *)
Definition expr_step (c c' : Compiler) : Prop :=
  extends (instructions c) c' /\
  scopeDepth c' = scopeDepth c /\
  varnames c' = varnames c /\
  varnameMap c' = varnameMap c /\
  (names_sync c -> names_sync c').

Lemma expr_step_intro c c' :
  extends (instructions c) c' -> scopeDepth c' = scopeDepth c ->
  varnames c' = varnames c -> varnameMap c' = varnameMap c ->
  names c' = names c -> nameMap c' = nameMap c ->
  expr_step c c'.
Proof.
  intros E D V M N NM. split; [exact E | split; [exact D | split; [exact V | split; [exact M|]]]].
  unfold names_sync. rewrite N, NM. auto.
Qed.

Lemma extends_refl c : extends (instructions c) c.
Proof. exists []. now rewrite app_nil_r. Qed.

Lemma extends_trans base c c' :
  extends base c -> extends (instructions c) c' -> extends base c'.
Proof. intros [k1 H1] [k2 H2]. exists (k1 ++ k2). rewrite H2, H1. now rewrite app_assoc. Qed.

Lemma extends_len base c : extends base c -> len base <= len (instructions c).
Proof. intros [k H]. unfold len. rewrite H, length_app. lia. Qed.

Lemma expr_step_refl c : expr_step c c.
Proof. apply expr_step_intro; auto. apply extends_refl. Qed.

Lemma expr_step_trans c1 c2 c3 : expr_step c1 c2 -> expr_step c2 c3 -> expr_step c1 c3.
Proof.
  intros (E1 & D1 & V1 & M1 & N1) (E2 & D2 & V2 & M2 & N2).
  split; [eapply extends_trans; eauto|].
  split; [congruence | split; [congruence | split; [congruence | auto]]].
Qed.

Lemma expr_step_emit op arg c : expr_step c (emit_ op arg c).
Proof. apply expr_step_intro; auto. now eexists. Qed.

Lemma expr_step_addName c name : expr_step c (addName c name).2.
Proof.
  unfold addName. destruct (nameMap c !! name) eqn:Hn; simpl; [apply expr_step_refl|].
  split; [exists []; simpl; now rewrite app_nil_r|].
  split; [reflexivity | split; [reflexivity | split; [reflexivity|]]].
  unfold names_sync. simpl. apply table_sync_add. exact Hn.
Qed.

Section CompileFacts.

Variable format_g : float -> string.

Abbreviation compileExpr' := (compileExpr format_g).
Abbreviation compileStmt' := (compileStmt format_g).

Lemma expr_step_addConstant c obj r :
  addConstant format_g c obj = Ok r -> expr_step c r.2.
Proof.
  unfold addConstant. destruct (Object_String _ _ _ _); simpl; try discriminate.
  destruct (constMap c !! _); intros H; injection H as <-; simpl; [apply expr_step_refl|].
  apply expr_step_intro; auto. exists []. simpl. now rewrite app_nil_r.
Qed.

Lemma expr_step_emitConst obj c c' :
  emitConst format_g obj c = Ok c' -> expr_step c c'.
Proof.
  unfold emitConst. destruct (addConstant _ _ _) as [r| | |] eqn:H; simpl; try discriminate.
  intros H'; injection H' as <-.
  eapply expr_step_trans; [eapply expr_step_addConstant; eauto | apply expr_step_emit].
Qed.

Lemma expr_step_compileName id c : expr_step c (compileName id c).
Proof.
  unfold compileName.
  destruct (scopeDepth c =? 0).
  - destruct (addName c id) as [idx c'] eqn:H.
    eapply expr_step_trans; [|apply expr_step_emit].
    replace c' with (addName c id).2 by now rewrite H. apply expr_step_addName.
  - destruct (varnameMap c !! id) eqn:Hv.
    + unfold addVarname. rewrite Hv. apply expr_step_emit.
    + destruct (addName c id) as [idx c'] eqn:H.
      eapply expr_step_trans; [|apply expr_step_emit].
      replace c' with (addName c id).2 by now rewrite H. apply expr_step_addName.
Qed.

(** The tables of [c'] are those of [c]. *)
Definition expr_step_tables (c c' : Compiler) : Prop :=
  scopeDepth c' = scopeDepth c /\ varnames c' = varnames c /\
  varnameMap c' = varnameMap c /\ names c' = names c /\ nameMap c' = nameMap c.

(** Patching an instruction that lies after [base] keeps [base]. *)
Lemma extends_changeOperand base c pos arg c' :
  extends base c -> len base <= pos ->
  changeOperand c pos arg = Ok c' ->
  extends base c' /\ expr_step_tables c c'
  /\ len (instructions c') = len (instructions c).
Proof.
  intros [k Hk] Hpos. unfold changeOperand, lookupZ, len in *.
  destruct (pos <? 0) eqn:Hneg; [discriminate|].
  destruct (instructions c !! Z.to_nat pos) as [i|]; [|discriminate].
  intros H; injection H as <-. simpl. split; [|split].
  - exists (<[(Z.to_nat pos - length base)%nat := mkInstruction (Op i) arg]> k).
    rewrite Hk. apply insert_app_r_alt. lia.
  - repeat split.
  - now rewrite length_insert.
Qed.

Definition good_step (step : Compiler -> res Compiler) : Prop :=
  forall c c', step c = Ok c' -> expr_step c c'.

Lemma seqM_expr_step steps c c' :
  Forall good_step steps -> seqM steps c = Ok c' -> expr_step c c'.
Proof.
  intros HF. revert c. induction HF as [|s steps Hs HF IH]; simpl; intros c H.
  - injection H as <-. apply expr_step_refl.
  - destruct (s c) as [c1| | |] eqn:H1; simpl in H; try discriminate.
    eapply expr_step_trans; [apply Hs; eauto | apply IH; eauto].
Qed.

Lemma boolOpLoop_expr_step jump rest js c js' c' :
  Forall good_step rest ->
  boolOpLoop jump rest js c = Ok (js', c') ->
  expr_step c c' /\
  (forall p, p ∈ js' -> p ∈ js \/ len (instructions c) <= p).
Proof.
  intros HF. revert js c. induction HF as [|s rest Hs HF IH]; simpl; intros js c H.
  - injection H as <- <-. split; [apply expr_step_refl | auto].
  - destruct (s _) as [c4| | |] eqn:H4; simpl in H; try discriminate.
    apply Hs in H4. apply IH in H as [HE Hp].
    assert (H3 : expr_step c (emit_ OpPopTop 0 (emit_ jump 0 (emit_ OpDupTop 0 c)))).
    { eapply expr_step_trans; [apply expr_step_emit|].
      eapply expr_step_trans; apply expr_step_emit. }
    split.
    + eapply expr_step_trans; [exact H3|]. eapply expr_step_trans; eauto.
    + intros p Hin. apply Hp in Hin as [Hin|Hin].
      * apply elem_of_app in Hin as [Hin|Hin]; [auto|].
        apply list_elem_of_singleton in Hin as ->. right.
        unfold emit_, emit, len; simpl. rewrite length_app. simpl. lia.
      * right. pose proof (extends_len _ _ (proj1 (expr_step_trans _ _ _ H3 H4))). lia.
Qed.

Lemma patchJumps_expr_step base js c c' :
  extends base c -> (forall p, p ∈ js -> len base <= p) ->
  patchJumps js c = Ok c' ->
  extends base c' /\ expr_step_tables c c'
  /\ len (instructions c') = len (instructions c).
Proof.
  revert c. induction js as [|p js IH]; simpl; intros c HE Hp H.
  - injection H as <-. repeat split; auto.
  - destruct (changeOperand c p _) as [c1| | |] eqn:H1; simpl in H; try discriminate.
    eapply extends_changeOperand in H1 as (E1 & T1 & L1); eauto.
    2:{ apply Hp. constructor. }
    apply IH in H as (E2 & T2 & L2); auto.
    2:{ intros q Hq. apply Hp. now constructor. }
    split; [exact E2 | split; [|congruence]].
    destruct T1 as (? & ? & ? & ? & ?), T2 as (? & ? & ? & ? & ?).
    repeat split; congruence.
Qed.

Lemma compareLoop_expr_step ops rights c c' :
  Forall good_step rights -> compareLoop ops rights c = Ok c' -> expr_step c c'.
Proof.
  intros HF. revert rights HF c. induction ops as [|op ops IH]; simpl; intros rights HF c H.
  - injection H as <-. apply expr_step_refl.
  - destruct HF as [|r rights Hr HF]; [discriminate|].
    destruct (r c) as [c1| | |] eqn:H1; simpl in H; try discriminate.
    destruct (compareOpcode op); [|discriminate].
    eapply expr_step_trans; [apply Hr; eauto|].
    eapply expr_step_trans; [apply expr_step_emit | eapply IH; eauto].
Qed.

Lemma dictLoop_expr_step keys values c c' :
  Forall good_step keys -> Forall good_step values ->
  dictLoop keys values c = Ok c' -> expr_step c c'.
Proof.
  intros HK. revert values c. induction HK as [|k keys Hk HK IH]; simpl; intros values c HV H.
  - injection H as <-. apply expr_step_refl.
  - destruct (k c) as [c1| | |] eqn:H1; simpl in H; try discriminate.
    destruct HV as [|v values Hv HV]; [discriminate|].
    destruct (v c1) as [c2| | |] eqn:H2; simpl in H; try discriminate.
    eapply expr_step_trans; [apply Hk; eauto|].
    eapply expr_step_trans; [apply Hv; eauto | eapply IH; eauto].
Qed.

Lemma good_steps (es : list ast.Expr) :
  Forall (fun e => good_step (compileExpr' e)) es ->
  Forall good_step (List.map compileExpr' es).
Proof. intros H. apply Forall_map. exact H. Qed.

(** Compiling an expression appends instructions and leaves the scope
    and the local names alone. *)
Lemma compileExpr_BoolOp op first second rest c :
  compileExpr' (ast.BoolOp op (first :: second :: rest)) c =
  (c1 <- compileExpr' first c ;;
   r <- boolOpLoop (if String.eqb op "and" then OpPopJumpIfFalse else OpPopJumpIfTrue)
          (List.map compileExpr' (second :: rest)) [] c1 ;;
   patchJumps r.1 r.2).
Proof. reflexivity. Qed.

Lemma compileExpr_expr_step e : good_step (compileExpr' e).
Proof.
  induction e as [l op r IHl IHr | op e IHe | op vs IHvs | l ops rs IHl IHrs
                 | fn args IHfn IHargs | v s IHv IHs | id | n | s | v | elts IHelts
                 | ks vs IHks IHvs] using Expr_induction;
    intros c c' H; [simpl in H | simpl in H | | simpl in H ..].
  - destruct (compileExpr' l c) as [c1| | |] eqn:H1; simpl in H; try discriminate.
    destruct (compileExpr' r c1) as [c2| | |] eqn:H2; simpl in H; try discriminate.
    destruct (binaryOpcode op); [|discriminate]. injection H as <-.
    eapply expr_step_trans; [eapply IHl; eauto|].
    eapply expr_step_trans; [eapply IHr; eauto | apply expr_step_emit].
  - destruct (compileExpr' e c) as [c1| | |] eqn:H1; simpl in H; try discriminate.
    destruct (unaryOpcode op); [|discriminate]. injection H as <-.
    eapply expr_step_trans; [eapply IHe; eauto | apply expr_step_emit].
  - destruct vs as [|first [|second rest]]; try discriminate.
    inversion_clear IHvs as [|? ? Hfirst Hrest].
    rewrite compileExpr_BoolOp in H.
    destruct (compileExpr' first c) as [c1| | |] eqn:H1; cbn [bind] in H; try discriminate.
    match type of H with
    | bind ?m _ = _ =>
        destruct m as [[js c2]| | |] eqn:H2; cbn [bind fst snd] in H; try discriminate
    end.
    apply Hfirst in H1.
    apply (boolOpLoop_expr_step _ (List.map compileExpr' (second :: rest))) in H2 as [HE Hp];
      [|apply good_steps; assumption].
    pose proof (expr_step_trans _ _ _ H1 HE) as H12.
    eapply (patchJumps_expr_step (instructions c)) in H as (E & T & _).
    + destruct H12 as (_ & D' & V' & M' & N'), T as (D & V & M & N & NM).
      split; [exact E|].
      split; [congruence | split; [congruence | split; [congruence|]]].
      intros Hs. specialize (N' Hs). unfold names_sync in *. rewrite N, NM. exact N'.
    + apply H12.
    + intros p Hin. apply Hp in Hin as [Hin|Hin]; [inversion Hin|].
      pose proof (extends_len _ _ (proj1 H1)). lia.
  - destruct (compileExpr' l c) as [c1| | |] eqn:H1; simpl in H; try discriminate.
    eapply expr_step_trans; [eapply IHl; eauto|].
    eapply compareLoop_expr_step; [apply good_steps|]; eauto.
  - destruct (compileExpr' fn c) as [c1| | |] eqn:H1; simpl in H; try discriminate.
    destruct (seqM _ c1) as [c2| | |] eqn:H2; simpl in H; try discriminate.
    injection H as <-.
    eapply expr_step_trans; [eapply IHfn; eauto|].
    eapply expr_step_trans; [eapply seqM_expr_step; [apply good_steps|]; eauto|].
    apply expr_step_emit.
  - destruct (compileExpr' v c) as [c1| | |] eqn:H1; simpl in H; try discriminate.
    destruct (compileExpr' s c1) as [c2| | |] eqn:H2; simpl in H; try discriminate.
    injection H as <-.
    eapply expr_step_trans; [eapply IHv; eauto|].
    eapply expr_step_trans; [eapply IHs; eauto | apply expr_step_emit].
  - injection H as <-. apply expr_step_compileName.
  - eapply expr_step_emitConst; eauto.
  - eapply expr_step_emitConst; eauto.
  - eapply expr_step_emitConst; eauto.
  - destruct (seqM _ c) as [c1| | |] eqn:H1; simpl in H; try discriminate.
    injection H as <-.
    eapply expr_step_trans; [eapply seqM_expr_step; [apply good_steps|]; eauto|].
    apply expr_step_emit.
  - destruct (dictLoop _ _ c) as [c1| | |] eqn:H1; simpl in H; try discriminate.
    injection H as <-.
    eapply expr_step_trans;
      [eapply (dictLoop_expr_step (List.map compileExpr' ks) (List.map compileExpr' vs));
       [apply good_steps; exact IHks | apply good_steps; exact IHvs | exact H1]|].
    apply expr_step_emit.
Qed.

End CompileFacts.

(** ** What compiling a statement changes *)

(** [stmt_step c c']: instructions were appended after those of [c], the
    scope is the same, and the names and the local names stay in step
    with their maps. *)
Definition stmt_step (c c' : Compiler) : Prop :=
  extends (instructions c) c' /\
  scopeDepth c' = scopeDepth c /\
  (vars_sync c -> vars_sync c') /\
  (names_sync c -> names_sync c').

Lemma stmt_step_refl c : stmt_step c c.
Proof. split; [apply extends_refl | split; auto]. Qed.

Lemma stmt_step_trans c1 c2 c3 : stmt_step c1 c2 -> stmt_step c2 c3 -> stmt_step c1 c3.
Proof.
  intros (E1 & D1 & V1 & N1) (E2 & D2 & V2 & N2).
  split; [eapply extends_trans; eauto | split; [congruence | auto]].
Qed.

Lemma expr_stmt_step c c' : expr_step c c' -> stmt_step c c'.
Proof.
  intros (E & D & V & M & N). split; [exact E | split; [exact D | split; [|exact N]]].
  unfold vars_sync. rewrite V, M. auto.
Qed.

Lemma vars_sync_addVarname c name : vars_sync c -> vars_sync (addVarname c name).2.
Proof.
  unfold addVarname. destruct (varnameMap c !! name) as [i|] eqn:Hn; simpl; [auto|].
  unfold vars_sync. simpl. apply table_sync_add. exact Hn.
Qed.

Lemma stmt_step_addVarname c name : stmt_step c (addVarname c name).2.
Proof.
  split; [|split].
  - unfold addVarname. destruct (varnameMap c !! name); simpl; [apply extends_refl|].
    exists []. now rewrite app_nil_r.
  - unfold addVarname. destruct (varnameMap c !! name); reflexivity.
  - split; [apply vars_sync_addVarname|].
    unfold addVarname. destruct (varnameMap c !! name); auto.
Qed.

Lemma stmt_step_emit op arg c : stmt_step c (emit_ op arg c).
Proof. apply expr_stmt_step, expr_step_emit. Qed.

Lemma stmt_step_storeTarget id c : stmt_step c (storeTarget id c).
Proof.
  unfold storeTarget. destruct (scopeDepth c =? 0).
  - destruct (addName c id) as [idx c'] eqn:H.
    eapply stmt_step_trans; [|apply stmt_step_emit].
    replace c' with (addName c id).2 by now rewrite H.
    apply expr_stmt_step, expr_step_addName.
  - destruct (addVarname c id) as [idx c'] eqn:H.
    eapply stmt_step_trans; [|apply stmt_step_emit].
    replace c' with (addVarname c id).2 by now rewrite H.
    apply stmt_step_addVarname.
Qed.

Lemma stmt_step_set_loopStack c l : stmt_step c (set_loopStack c l).
Proof. split; [exists []; simpl; now rewrite app_nil_r | split; auto]. Qed.

Section CompileStmtFacts.

Variable format_g : float -> string.

Abbreviation compileExpr' := (compileExpr format_g).
Abbreviation compileStmt' := (compileStmt format_g).

Definition good_stmt (step : Compiler -> res Compiler) : Prop :=
  forall c c', step c = Ok c' -> stmt_step c c'.

Lemma compileExpr_stmt_step e c c' : compileExpr' e c = Ok c' -> stmt_step c c'.
Proof. intros H. eapply expr_stmt_step, compileExpr_expr_step, H. Qed.

Lemma stmt_step_changeOperand c0 c pos arg c' :
  stmt_step c0 c -> len (instructions c0) <= pos ->
  changeOperand c pos arg = Ok c' -> stmt_step c0 c'.
Proof.
  intros (E & D & V & N) Hpos H.
  eapply extends_changeOperand in H as (E' & (D' & V' & M' & N' & NM') & _); eauto.
  split; [exact E' | split; [congruence | split]].
  - intros Hs. specialize (V Hs). unfold vars_sync. rewrite V', M'. exact V.
  - intros Hs. specialize (N Hs). unfold names_sync. rewrite N', NM'. exact N.
Qed.

Lemma seqM_stmt_step steps c c' :
  Forall good_stmt steps -> seqM steps c = Ok c' -> stmt_step c c'.
Proof.
  intros HF. revert c. induction HF as [|s steps Hs HF IH]; simpl; intros c H.
  - injection H as <-. apply stmt_step_refl.
  - destruct (s c) as [c1| | |] eqn:H1; simpl in H; try discriminate.
    eapply stmt_step_trans; [apply Hs; eauto | apply IH; eauto].
Qed.

Lemma printLoop_stmt_step values c c' :
  Forall good_step values -> printLoop format_g values c = Ok c' -> stmt_step c c'.
Proof.
  intros HF. revert c. induction HF as [|v values Hv HF IH]; simpl; intros c H.
  - injection H as <-. apply stmt_step_refl.
  - destruct (v c) as [c1| | |] eqn:H1; simpl in H; try discriminate.
    apply Hv, expr_stmt_step in H1.
    destruct values as [|v2 values].
    + injection H as <-.
      eapply stmt_step_trans; [exact H1 | apply stmt_step_emit].
    + destruct (emitConst _ _ _) as [c3| | |] eqn:H3; simpl in H; try discriminate.
      apply expr_step_emitConst, expr_stmt_step in H3.
      apply IH in H.
      eapply stmt_step_trans; [exact H1|].
      eapply stmt_step_trans; [apply stmt_step_emit|].
      eapply stmt_step_trans; [exact H3|].
      eapply stmt_step_trans; [apply stmt_step_emit | exact H].
Qed.

Lemma good_stmts (ss : list ast.Stmt) :
  Forall (fun s => good_stmt (compileStmt' s)) ss ->
  Forall good_stmt (List.map compileStmt' ss).
Proof. intros H. apply Forall_map. exact H. Qed.

Lemma emit_pos c op arg : (emit c op arg).1 = len (instructions c).
Proof. reflexivity. Qed.

(** Compiling a statement appends instructions (the jumps it patches
    are its own), keeps the scope, and keeps the local names in step
    with their map. *)
Lemma compileStmt_stmt_step s : good_stmt (compileStmt' s).
Proof.
  induction s as [t v | t op v | e | vs | t body orelse IHbody IHorelse | t body IHbody
                 | t it body IHbody | name args body line IHbody | v |] using Stmt_induction;
    intros c c' H; simpl in H.
  - (* assignment *)
    destruct (compileExpr' v c) as [c1| | |] eqn:H1; simpl in H; try discriminate.
    apply compileExpr_stmt_step in H1.
    destruct t; try discriminate.
    + destruct (compileExpr' t1 c1) as [c2| | |] eqn:H2; simpl in H; try discriminate.
      destruct (compileExpr' t2 c2) as [c3| | |] eqn:H3; simpl in H; try discriminate.
      injection H as <-.
      apply compileExpr_stmt_step in H2, H3.
      eapply stmt_step_trans; [exact H1|]. eapply stmt_step_trans; [exact H2|].
      eapply stmt_step_trans; [exact H3 | apply stmt_step_emit].
    + injection H as <-.
      eapply stmt_step_trans; [exact H1 | apply stmt_step_storeTarget].
  - (* augmented assignment *)
    destruct t; try discriminate.
    match type of H with
    | bind (compileExpr' v ?c1) _ = _ =>
        assert (Hload : stmt_step c c1);
        [|destruct (compileExpr' v c1) as [c2| | |] eqn:H2; simpl in H; try discriminate]
    end.
    { destruct (scopeDepth c =? 0).
      - destruct (addName c Id) as [idx c0] eqn:Ha.
        eapply stmt_step_trans; [|apply stmt_step_emit].
        replace c0 with (addName c Id).2 by now rewrite Ha.
        apply expr_stmt_step, expr_step_addName.
      - destruct (addVarname c Id) as [idx c0] eqn:Ha.
        eapply stmt_step_trans; [|apply stmt_step_emit].
        replace c0 with (addVarname c Id).2 by now rewrite Ha.
        apply stmt_step_addVarname. }
    apply compileExpr_stmt_step in H2.
    destruct (String.eqb op "+="); [|destruct (String.eqb op "-="); [|discriminate]];
      injection H as <-;
      (eapply stmt_step_trans; [exact Hload|]; eapply stmt_step_trans; [exact H2|];
       eapply stmt_step_trans; [apply stmt_step_emit | apply stmt_step_storeTarget]).
  - (* expression statement *)
    destruct (compileExpr' e c) as [c1| | |] eqn:H1; simpl in H; try discriminate.
    injection H as <-. apply compileExpr_stmt_step in H1.
    eapply stmt_step_trans; [exact H1 | apply stmt_step_emit].
  - (* print *)
    destruct (printLoop _ _ c) as [c1| | |] eqn:H1; simpl in H; try discriminate.
    injection H as <-.
    apply printLoop_stmt_step in H1.
    + eapply stmt_step_trans; [exact H1 | apply stmt_step_emit].
    + apply Forall_map, Forall_forall. intros e _. apply compileExpr_expr_step.
  - (* if *)
    destruct (compileExpr' t c) as [c1| | |] eqn:H1; simpl in H; try discriminate.
    apply compileExpr_stmt_step in H1.
    destruct (seqM _ _) as [c3| | |] eqn:H3 in H; simpl in H; try discriminate.
    apply seqM_stmt_step in H3; [|apply good_stmts; exact IHbody].
    assert (H13 : stmt_step c c3).
    { eapply stmt_step_trans; [exact H1|].
      eapply stmt_step_trans; [apply stmt_step_emit | exact H3]. }
    pose proof (extends_len _ _ (proj1 H1)) as Hlen1.
    destruct orelse as [|o orelse].
    + eapply stmt_step_changeOperand; [exact H13| |exact H]. exact Hlen1.
    + cbn [bind emit fst snd] in H.
      destruct (changeOperand _ _ _) as [c5| | |] eqn:H5 in H; cbn [bind] in H;
        try discriminate.
      destruct (seqM _ c5) as [c6| | |] eqn:H6 in H; cbn [bind] in H; try discriminate.
      assert (H15 : stmt_step c c5).
      { eapply stmt_step_changeOperand; [|exact Hlen1|exact H5].
        eapply stmt_step_trans; [exact H13 | apply stmt_step_emit]. }
      apply seqM_stmt_step in H6; [|apply (good_stmts (o :: orelse)); exact IHorelse].
      eapply stmt_step_changeOperand; [eapply stmt_step_trans; [exact H15|exact H6]| |exact H].
      pose proof (extends_len _ _ (proj1 H13)). lia.
  - (* while *)
    destruct (compileExpr' t _) as [c1| | |] eqn:H1 in H; simpl in H; try discriminate.
    apply compileExpr_stmt_step in H1.
    destruct (seqM _ _) as [c3| | |] eqn:H3 in H; simpl in H; try discriminate.
    apply seqM_stmt_step in H3; [|apply good_stmts; exact IHbody].
    destruct (changeOperand _ _ _) as [c5| | |] eqn:H5 in H; simpl in H; try discriminate.
    injection H as <-.
    assert (H01 : stmt_step c c1).
    { eapply stmt_step_trans; [apply stmt_step_set_loopStack | exact H1]. }
    eapply stmt_step_trans; [|apply stmt_step_set_loopStack].
    eapply stmt_step_changeOperand; [| |exact H5].
    + eapply stmt_step_trans; [exact H01|].
      eapply stmt_step_trans; [apply stmt_step_emit|].
      eapply stmt_step_trans; [exact H3 | apply stmt_step_emit].
    + apply (extends_len _ _ (proj1 H01)).
  - (* for *)
    destruct (compileExpr' it c) as [c1| | |] eqn:H1; simpl in H; try discriminate.
    apply compileExpr_stmt_step in H1.
    destruct t; try discriminate.
    destruct (seqM _ _) as [c6| | |] eqn:H6 in H; simpl in H; try discriminate.
    apply seqM_stmt_step in H6; [|apply good_stmts; exact IHbody].
    destruct (changeOperand _ _ _) as [c8| | |] eqn:H8 in H; simpl in H; try discriminate.
    injection H as <-.
    assert (H03 : stmt_step c (set_loopStack (emit_ OpGetIter 0 c1)
                    (loopStack (emit_ OpGetIter 0 c1)
                     ++ [len (instructions (emit_ OpGetIter 0 c1))]))).
    { eapply stmt_step_trans; [exact H1|].
      eapply stmt_step_trans; [apply stmt_step_emit | apply stmt_step_set_loopStack]. }
    eapply stmt_step_trans; [|apply stmt_step_set_loopStack].
    eapply stmt_step_changeOperand; [| |exact H8].
    + eapply stmt_step_trans; [exact H03|].
      eapply stmt_step_trans; [apply stmt_step_emit|].
      eapply stmt_step_trans; [apply stmt_step_storeTarget|].
      eapply stmt_step_trans; [exact H6 | apply stmt_step_emit].
    + apply (extends_len _ _ (proj1 H03)).
  - (* function definition *)
    destruct (seqM _ _) as [f1| | |] eqn:Hf1 in H; simpl in H; try discriminate.
    destruct (emitConst _ _ f1) as [f2| | |] eqn:Hf2 in H; simpl in H; try discriminate.
    destruct (addConstant _ _ _) as [r| | |] eqn:Hr in H; simpl in H; try discriminate.
    destruct (addName _ name) as [idx c2] eqn:Hn in H. injection H as <-.
    apply expr_step_addConstant, expr_stmt_step in Hr.
    eapply stmt_step_trans; [|apply stmt_step_emit].
    replace c2 with (addName (emit_ OpLoadConst r.1 r.2) name).2 by now rewrite Hn.
    eapply stmt_step_trans; [|apply expr_stmt_step, expr_step_addName].
    eapply stmt_step_trans; [|apply stmt_step_emit].
    eapply stmt_step_trans; [|exact Hr].
    split; [exists []; simpl; now rewrite app_nil_r | split; auto].
  - (* return *)
    destruct v as [e|].
    + destruct (compileExpr' e c) as [c1| | |] eqn:H1; simpl in H; try discriminate.
      injection H as <-. apply compileExpr_stmt_step in H1.
      eapply stmt_step_trans; [exact H1 | apply stmt_step_emit].
    + destruct (emitConst _ _ c) as [c1| | |] eqn:H1; simpl in H; try discriminate.
      injection H as <-. apply expr_step_emitConst, expr_stmt_step in H1.
      eapply stmt_step_trans; [exact H1 | apply stmt_step_emit].
  - injection H as <-. apply stmt_step_refl.
Qed.

End CompileStmtFacts.

(** ** Name resolution inside a function *)

Lemma table_sync_empty : table_sync ∅ [].
Proof. intros id idx. rewrite lookup_empty, lookup_nil. split; [discriminate | intros [_ H]; discriminate]. Qed.

Lemma fold_addVarname_sync args c :
  vars_sync c -> vars_sync (fold_left (fun k arg => (addVarname k arg).2) args c).
Proof.
  revert c. induction args as [|a args IH]; simpl; intros c H; [exact H|].
  apply IH, vars_sync_addVarname, H.
Qed.

Lemma fold_addVarname_scope args c :
  scopeDepth (fold_left (fun k arg => (addVarname k arg).2) args c) = scopeDepth c.
Proof.
  revert c. induction args as [|a args IH]; simpl; intros c; [reflexivity|].
  rewrite IH. unfold addVarname. destruct (varnameMap c !! a); reflexivity.
Qed.

Lemma fold_addVarname_elem args c id :
  vars_sync c ->
  (id ∈ varnames (fold_left (fun k arg => (addVarname k arg).2) args c)
   <-> id ∈ varnames c \/ id ∈ args).
Proof.
  revert c. induction args as [|a args IH]; simpl; intros c Hs.
  - split; [auto | intros [H|H]; [exact H | inversion H]].
  - rewrite IH by (apply vars_sync_addVarname, Hs).
    rewrite elem_of_cons.
    unfold addVarname. destruct (varnameMap c !! a) as [i|] eqn:Ha; simpl.
    + assert (a ∈ varnames c) by (eapply table_sync_elem; eauto).
      split; [tauto|]. intros [H1|[->|H2]]; auto.
    + rewrite elem_of_app, list_elem_of_singleton. tauto.
Qed.

(** The function compiled by the examples of C10:
    [def f(): y = x; x = 1; return y]. *)
Definition late_local : ast.Stmt :=
  ast.FuncDef "f" []
    [ast.AssignStmt (ast.Name "y") (ast.Name "x");
     ast.AssignStmt (ast.Name "x") (ast.Num (ast.GoInt 1));
     ast.ReturnStmt (Some (ast.Name "y"))] 2.



(** ** The value of a module *)

Section ModuleFacts.

Variable format_g : float -> string.

Lemma compileModuleBody_cons s rest c :
  rest <> [] ->
  compileModuleBody format_g (s :: rest) c =
  (c1 <- compileStmt format_g s c ;; compileModuleBody format_g rest c1).
Proof. intros Hne. destruct rest; [contradiction|]. destruct s; reflexivity. Qed.

(** A module that ends with an expression statement: the statements
    before it are compiled as statements, the last expression is
    compiled and followed by RETURN_VALUE. *)
Lemma compileModuleBody_last body e c :
  compileModuleBody format_g (body ++ [ast.ExprStmt e]) c =
  (c1 <- seqM (List.map (compileStmt format_g) body) c ;;
   c2 <- compileExpr format_g e c1 ;;
   Ok (moduleCode (emit_ OpReturnValue 0 c2))).
Proof.
  revert c. induction body as [|s body IH]; intros c; [reflexivity|].
  change ((s :: body) ++ [ast.ExprStmt e]) with (s :: (body ++ [ast.ExprStmt e])).
  rewrite compileModuleBody_cons by (destruct body; discriminate).
  simpl. destruct (compileStmt format_g s c); simpl; auto.
Qed.

(** RETURN_VALUE in the only frame ends the run with the top of the
    stack. *)
Lemma run_loop_final_return n vm f v s :
  frames vm = [f] ->
  lookupZ (Instructions (Code f)) (IP f) = Some (ins OpReturnValue 0) ->
  Stack f = v :: s ->
  run_loop format_g (S n) vm = (Ok v, set_frames vm []).
Proof.
  intros Hf Hi Hs. simpl. unfold step. rewrite Hf.
  assert (Hlt : (Z.of_nat (length (Instructions (Code f))) <=? IP f) = false).
  { apply Z.leb_gt. unfold lookupZ in Hi. destruct (IP f <? 0) eqn:Hn; [discriminate|].
    apply lookup_lt_Some in Hi. apply Z.ltb_ge in Hn. lia. }
  rewrite Hlt, Hi. unfold exec, pop; simpl. rewrite Hs. reflexivity.
Qed.

End ModuleFacts.

(** The code of a module whose final statement is the expression
    statement [e]: the statements before it compiled as statements,
    then the code of [e], then RETURN_VALUE, with no POP_TOP; an
    expression statement anywhere else is the expression followed by
    POP_TOP. *)
Lemma Compile_last_expr (format_g : float -> string) (body : list ast.Stmt)
    (e : ast.Expr) (code : CodeObject) :
  Compile format_g (ast.mkModule (body ++ [ast.ExprStmt e])) = Ok code ->
  (exists c1 c2,
     seqM (List.map (compileStmt format_g) body) (NewCompiler 0) = Ok c1 /\
     compileExpr format_g e c1 = Ok c2 /\
     extends (instructions c1) c2 /\
     Instructions code = instructions c2 ++ [ins OpReturnValue 0])
  /\ (forall c,
        compileStmt format_g (ast.ExprStmt e) c =
        (c0 <- compileExpr format_g e c ;; Ok (emit_ OpPopTop 0 c0))).
Proof.
  intros Hcompile. split; [|reflexivity].
  unfold Compile, compileModule in Hcompile. simpl in Hcompile.
  rewrite compileModuleBody_last in Hcompile.
  destruct (seqM _ _) as [c1| | |] eqn:H1; simpl in Hcompile; try discriminate.
  destruct (compileExpr format_g e c1) as [c2| | |] eqn:H2; simpl in Hcompile;
    try discriminate.
  injection Hcompile as <-.
  exists c1, c2. split; [reflexivity | split; [exact H2 | split; [|reflexivity]]].
  apply (compileExpr_expr_step format_g e c1 c2 H2).
Qed.

(** RETURN_VALUE in the module's frame ends the run wherever it is
    met: the module [return 7; 8] returns 7, the module [8] returns 8. *)
Lemma early_return_ends_run :
  exists code code8,
    Compile no_float_format
      (ast.mkModule [ast.ReturnStmt (Some (ast.Num (ast.GoInt 7)));
                     ast.ExprStmt (ast.Num (ast.GoInt 8))]) = Ok code /\
    (Run no_float_format 20 (NewVM []) code).1 = Ok (PyInt 7) /\
    Compile no_float_format (ast.mkModule [ast.ExprStmt (ast.Num (ast.GoInt 8))])
      = Ok code8 /\
    (Run no_float_format 20 (NewVM []) code8).1 = Ok (PyInt 8).
Proof.
  eexists. eexists.
  split; [vm_compute; reflexivity|]. split; [vm_compute; reflexivity|].
  split; [vm_compute; reflexivity|]. vm_compute. reflexivity.
Qed.

(** ** Short-circuit evaluation *)

Lemma changeOperand_lookup c pos arg c' q i :
  changeOperand c pos arg = Ok c' ->
  instructions c !! q = Some i ->
  instructions c' !! q
  = Some (if decide (Z.of_nat q = pos) then mkInstruction (Op i) arg else i)
  /\ len (instructions c') = len (instructions c).
Proof.
  unfold changeOperand, lookupZ, len.
  destruct (Z.ltb_spec pos 0) as [Hneg|Hnn]; [discriminate|].
  destruct (instructions c !! Z.to_nat pos) as [ip|] eqn:Hp; [|discriminate].
  intros H Hq; injection H as <-. simpl. rewrite length_insert. split; [|reflexivity].
  destruct (decide (Z.of_nat q = pos)) as [<-|Hne].
  - rewrite Nat2Z.id in *. rewrite list_lookup_insert_eq by (eapply lookup_lt_Some; eauto).
    congruence.
  - rewrite list_lookup_insert_ne by lia. exact Hq.
Qed.

(** After [patchJumps] the instructions at the listed positions jump to
    the end of the code; the others are as before. *)
Lemma patchJumps_lookup js c c' q i :
  patchJumps js c = Ok c' ->
  instructions c !! q = Some i ->
  instructions c' !! q
  = Some (if decide (Z.of_nat q ∈ js) then mkInstruction (Op i) (len (instructions c)) else i)
  /\ len (instructions c') = len (instructions c).
Proof.
  revert c i. induction js as [|p js IH]; simpl; intros c i H Hq.
  - injection H as <-. split; [|reflexivity].
    destruct (decide (Z.of_nat q ∈ [])) as [Hin|_]; [inversion Hin | exact Hq].
  - destruct (changeOperand c p _) as [c1| | |] eqn:H1; simpl in H; try discriminate.
    destruct (changeOperand_lookup _ _ _ _ _ _ H1 Hq) as [Hq1 Hl1].
    destruct (IH _ _ H Hq1) as [Hq2 Hl2].
    split; [|congruence].
    rewrite Hq2, Hl1. f_equal.
    destruct (decide (Z.of_nat q = p)) as [Heq|Hne].
    + destruct (decide (Z.of_nat q ∈ p :: js)) as [_|Hnin];
        [|exfalso; apply Hnin; subst; constructor].
      destruct (decide (Z.of_nat q ∈ js)); reflexivity.
    + destruct (decide (Z.of_nat q ∈ js)) as [Hin|Hnin].
      * destruct (decide (Z.of_nat q ∈ p :: js)) as [_|Hn]; [reflexivity|].
        exfalso. apply Hn. now constructor.
      * destruct (decide (Z.of_nat q ∈ p :: js)) as [Hin|_]; [|reflexivity].
        apply elem_of_cons in Hin as [Hin|Hin]; contradiction.
Qed.

Lemma boolOpLoop_keeps jump rest js c js' c' p :
  boolOpLoop jump rest js c = Ok (js', c') -> p ∈ js -> p ∈ js'.
Proof.
  revert js c. induction rest as [|s rest IH]; simpl; intros js c H Hin.
  - injection H as <- <-. exact Hin.
  - destruct (s _) as [c4| | |]; simpl in H; try discriminate.
    eapply IH; [exact H|]. apply elem_of_app. auto.
Qed.

Lemma boolOpLoop_cons jump s rest js c :
  boolOpLoop jump (s :: rest) js c =
  (c4 <- s (emit_ OpPopTop 0 (emit_ jump 0 (emit_ OpDupTop 0 c))) ;;
   boolOpLoop jump rest (js ++ [len (instructions (emit_ OpDupTop 0 c))]) c4).
Proof. reflexivity. Qed.

Lemma lookupZ_app_l {A} (l k : list A) i x :
  lookupZ l i = Some x -> lookupZ (l ++ k) i = Some x.
Proof.
  unfold lookupZ. destruct (i <? 0); [discriminate|]. apply lookup_app_l_Some.
Qed.

Lemma lookupZ_lt {A} (l : list A) i x : lookupZ l i = Some x -> 0 <= i < len l.
Proof.
  unfold lookupZ, len. destruct (Z.ltb_spec i 0) as [Hneg|Hnn]; [discriminate|].
  intros Hl. apply lookup_lt_Some in Hl. lia.
Qed.

(** C7.  [A and B ...] is compiled as the code of [A], then DUP_TOP and
    POP_JUMP_IF_FALSE to the end of the whole expression, then POP_TOP
    and the code of the other operands.  When [A] has left a falsy value
    on the stack, two steps take the machine from the end of the code of
    [A] to the end of the expression with that value on top: the value
    of the expression is the value of [A], no instruction of [B] runs,
    and the globals, the store and the output are unchanged.  So
    [False and undefined] is False, while [True and undefined] is a name
    error. *)
Theorem C7_and_short_circuit (format_g : float -> string) (A B : ast.Expr)
    (rest : list ast.Expr) (c c' : Compiler)
    (Hcompile : compileExpr format_g (ast.BoolOp "and" (A :: B :: rest)) c = Ok c') :
  (exists cA,
     compileExpr format_g A c = Ok cA /\
     extends (instructions cA) c' /\
     lookupZ (instructions c') (len (instructions cA)) = Some (ins OpDupTop 0) /\
     lookupZ (instructions c') (len (instructions cA) + 1)
       = Some (ins OpPopJumpIfFalse (len (instructions c'))) /\
     len (instructions cA) + 3 <= len (instructions c') /\
     forall n vm f fs v s more,
       frames vm = f :: fs ->
       Instructions (Code f) = instructions c' ++ more ->
       IP f = len (instructions cA) ->
       Stack f = v :: s -> (length (Stack f) < StackSize)%nat ->
       Object_IsTruthy (heap vm) v = Ok false ->
       exists vm1,
         step format_g n vm = Ok (Continue vm1) /\
         step format_g n vm1
         = Ok (Continue (set_frames vm (set_IP f (len (instructions c')) :: fs))))
  /\ (exists code,
        Compile format_g
          (ast.mkModule [ast.ExprStmt (ast.BoolOp "and"
             [ast.NameConstant (ast.GoBool false); ast.Name "undefined"])]) = Ok code /\
        Run format_g 20 (NewVM []) code = (Ok (PyBool false), NewVM []))
  /\ (exists code,
        Compile format_g
          (ast.mkModule [ast.ExprStmt (ast.BoolOp "and"
             [ast.NameConstant (ast.GoBool true); ast.Name "undefined"])]) = Ok code /\
        (Run format_g 20 (NewVM []) code).1 = Error "name 'undefined' is not defined").
Proof.
  split; [|split].
  2:{ eexists. split; [vm_compute; reflexivity|]. vm_compute. reflexivity. }
  2:{ eexists. split; [vm_compute; reflexivity|]. vm_compute. reflexivity. }
  rewrite compileExpr_BoolOp in Hcompile.
  destruct (compileExpr format_g A c) as [cA| | |] eqn:HA; cbn [bind] in Hcompile;
    try discriminate.
  exists cA. split; [reflexivity|].
  match type of Hcompile with
  | bind ?m _ = _ =>
      destruct m as [[js c5]| | |] eqn:Hloop; cbn [bind fst snd] in Hcompile;
      try discriminate
  end.
  change (List.map (compileExpr format_g) (B :: rest))
    with (compileExpr format_g B :: List.map (compileExpr format_g) rest) in Hloop.
  rewrite boolOpLoop_cons in Hloop. simpl String.eqb in Hloop. cbv iota in Hloop.
  set (pos := len (instructions (emit_ OpDupTop 0 cA))) in *.
  set (c3 := emit_ OpPopTop 0 (emit_ OpPopJumpIfFalse 0 (emit_ OpDupTop 0 cA))) in *.
  destruct (compileExpr format_g B c3) as [c4| | |] eqn:HB; cbn [bind] in Hloop;
    try discriminate.
  assert (Hgood : Forall good_step (List.map (compileExpr format_g) rest)).
  { apply Forall_map, Forall_forall. intros e _. apply compileExpr_expr_step. }
  pose proof (boolOpLoop_keeps _ _ _ _ _ _ pos Hloop) as Hpos.
  destruct (boolOpLoop_expr_step _ _ _ _ _ _ Hgood Hloop) as [H45 Hjs].
  apply compileExpr_expr_step in HB.
  assert (Hc3 : instructions c3
                = instructions cA ++ [ins OpDupTop 0; ins OpPopJumpIfFalse 0; ins OpPopTop 0]).
  { unfold c3, emit_, emit; simpl. rewrite <- !app_assoc. reflexivity. }
  assert (Hposv : pos = len (instructions cA) + 1).
  { unfold pos, emit_, emit, len; simpl. rewrite length_app. simpl. lia. }
  destruct (extends_trans _ _ _ (proj1 HB) (proj1 H45)) as [more5 H5].
  rewrite Hc3 in H5.
  assert (Hlen3 : len (instructions c3) = len (instructions cA) + 3).
  { rewrite Hc3. unfold len. rewrite length_app. simpl. lia. }
  assert (Hjs' : forall p, p ∈ js -> len (instructions cA) + 1 <= p).
  { intros p Hin. apply Hjs in Hin as [Hin|Hin].
    - rewrite app_nil_l in Hin. apply list_elem_of_singleton in Hin. lia.
    - pose proof (extends_len _ _ (proj1 HB)). lia. }
  assert (HposIn : pos ∈ js).
  { apply Hpos. rewrite app_nil_l. apply list_elem_of_singleton. reflexivity. }
  assert (Hdup5 : instructions c5 !! length (instructions cA) = Some (ins OpDupTop 0)).
  { rewrite H5, <- app_assoc. apply list_lookup_middle. reflexivity. }
  assert (Hjmp5 : instructions c5 !! S (length (instructions cA))
                  = Some (ins OpPopJumpIfFalse 0)).
  { rewrite H5, <- app_assoc. rewrite lookup_app_r by lia.
    replace (S (length (instructions cA)) - length (instructions cA))%nat with 1%nat by lia.
    reflexivity. }
  destruct (patchJumps_lookup _ _ _ _ _ Hcompile Hdup5) as [Hdup Hlen].
  destruct (patchJumps_lookup _ _ _ _ _ Hcompile Hjmp5) as [Hjmp _].
  destruct (decide (Z.of_nat (length (instructions cA)) ∈ js)) as [Hin|_];
    [apply Hjs' in Hin; unfold len in Hin; lia|].
  destruct (decide (Z.of_nat (S (length (instructions cA))) ∈ js)) as [_|Hnin].
  2:{ exfalso. apply Hnin. rewrite Hposv in HposIn. unfold len in HposIn.
      replace (Z.of_nat (S (length (instructions cA))))
        with (Z.of_nat (length (instructions cA)) + 1) by lia. exact HposIn. }
  simpl in Hjmp. rewrite <- Hlen in Hjmp.
  assert (Hlen' : len (instructions cA) + 3 <= len (instructions c')).
  { rewrite Hlen. pose proof (extends_len _ _ (extends_trans _ _ _ (proj1 HB) (proj1 H45))).
    lia. }
  assert (HlkD : lookupZ (instructions c') (len (instructions cA)) = Some (ins OpDupTop 0)).
  { unfold lookupZ, len. destruct (Z.ltb_spec (Z.of_nat (length (instructions cA))) 0); [lia|].
    rewrite Nat2Z.id. exact Hdup. }
  assert (HlkJ : lookupZ (instructions c') (len (instructions cA) + 1)
                 = Some (ins OpPopJumpIfFalse (len (instructions c')))).
  { unfold lookupZ, len.
    destruct (Z.ltb_spec (Z.of_nat (length (instructions cA)) + 1) 0); [lia|].
    replace (Z.to_nat (Z.of_nat (length (instructions cA)) + 1))
      with (S (length (instructions cA))) by lia.
    exact Hjmp. }
  split; [|split; [exact HlkD | split; [exact HlkJ | split; [exact Hlen'|]]]].
  { assert (HcA3 : extends (instructions cA) c3).
    { exists [ins OpDupTop 0; ins OpPopJumpIfFalse 0; ins OpPopTop 0]. exact Hc3. }
    eapply (patchJumps_expr_step (instructions cA)) in Hcompile as [E _]; [exact E| |].
    - eapply extends_trans; [exact HcA3|].
      eapply extends_trans; [exact (proj1 HB) | exact (proj1 H45)].
    - intros p Hin. apply Hjs' in Hin. lia. }
  intros n vm f fs v s more Hfr Hcode Hip Hst Hsz Htr.
  assert (Hbound : (Z.of_nat (length (Instructions (Code f))) <=? len (instructions cA)) = false).
  { apply Z.leb_gt. rewrite Hcode, length_app. unfold len in *. lia. }
  eexists. split.
  - unfold step. rewrite Hfr, Hip, Hbound, Hcode, (lookupZ_app_l _ _ _ _ HlkD).
    unfold exec, push, peek, resume; simpl. rewrite Hst.
    apply Nat.ltb_lt in Hsz. rewrite Hst in Hsz. rewrite Hsz. reflexivity.
  - unfold step; simpl.
    assert (Hbound' : (Z.of_nat (length (Instructions (Code f)))
                       <=? len (instructions cA) + 1) = false).
    { apply Z.leb_gt. rewrite Hcode, length_app. unfold len in *. lia. }
    rewrite Hbound', Hcode, (lookupZ_app_l _ _ _ _ HlkJ).
    unfold exec, pop, jump_if, resume; simpl. rewrite Htr; simpl.
    unfold set_frames, set_IP; simpl. rewrite Hst. reflexivity.
Qed.

Lemma C7_and_short_circuit_witness :
  exists cA,
    compileExpr no_float_format (ast.NameConstant (ast.GoBool false)) (NewCompiler 0)
    = Ok cA /\
    lookupZ (instructions cA ++ [ins OpDupTop 0; ins OpPopJumpIfFalse 5; ins OpPopTop 0;
                                 ins OpLoadName 0])
            (len (instructions cA) + 1)
    = Some (ins OpPopJumpIfFalse 5).
Proof.
  assert (Hc : compileExpr no_float_format
                 (ast.BoolOp "and" (ast.NameConstant (ast.GoBool false)
                                    :: ast.Name "undefined" :: []))
                 (NewCompiler 0)
               = Ok (mkCompiler
                       [ins OpLoadConst 0; ins OpDupTop 0; ins OpPopJumpIfFalse 5;
                        ins OpPopTop 0; ins OpLoadName 0]
                       [PyBool false] ["undefined"] []
                       {["*runtime.PyBool:False" := 0]} {["undefined" := 0]} ∅ [] 0 0))
    by (vm_compute; reflexivity).
  destruct (C7_and_short_circuit no_float_format _ _ _ _ _ Hc)
    as [(cA & HA & _ & _ & HJ & _) _].
  exists cA. split; [exact HA|].
  vm_compute in HA. injection HA as <-. exact HJ.
Defined.

(** ** Printing *)

(** C3, on the code.  [PyString.String] returns the characters of the
    string with no quotes added, so [print "hello"] writes [hello] and a
    newline where the claim (and the end-to-end tests) expect
    ["hello"] and a newline.  The other parts of the claim hold on the
    examples: successive values are separated by one space, the line ends
    with one newline, and a bare [print] writes just the newline. *)
Theorem C3_print_string_unquoted (format_g : float -> string) :
  (forall n h s, Object_String format_g n h (PyString s) = Ok s)
  /\ (exists code,
        Compile format_g (ast.mkModule [ast.PrintStmt [ast.Str "hello"]]) = Ok code /\
        stdout (Run format_g 20 (NewVM []) code).2 = "hello
")
  /\ (exists code,
        Compile format_g
          (ast.mkModule [ast.PrintStmt [ast.Num (ast.GoInt 1); ast.Str "a";
                                        ast.NameConstant (ast.GoBool true)]]) = Ok code /\
        stdout (Run format_g 20 (NewVM []) code).2 = "1 a True
")
  /\ (exists code,
        Compile format_g (ast.mkModule [ast.PrintStmt []]) = Ok code /\
        stdout (Run format_g 20 (NewVM []) code).2 = "
").
Proof.
  split; [|split; [|split]].
  - intros n h s. destruct n; reflexivity.
  - eexists. split; [vm_compute; reflexivity|]. vm_compute. reflexivity.
  - eexists. split; [vm_compute; reflexivity|]. vm_compute. reflexivity.
  - eexists. split; [vm_compute; reflexivity|]. vm_compute. reflexivity.
Qed.

(** ** The end of an if/else *)

Lemma seqM_compileStmt_extends format_g body c c' :
  seqM (List.map (compileStmt format_g) body) c = Ok c' -> extends (instructions c) c'.
Proof.
  intros H. apply seqM_stmt_step in H; [apply H|].
  apply Forall_map, Forall_forall. intros s _. apply compileStmt_stmt_step.
Qed.

(** C5.  The claim fails on the code: the value of a module that ends
    with an expression statement is not the value of that expression
    when an if/else before it takes its if-branch.  [compileIfStmt]
    patches the JUMP_FORWARD that ends the if-branch with
    [len(c.instructions)], the absolute index of the end of the
    statement, and the VM executes JUMP_FORWARD as [frame.IP += Arg]
    after the increment of [IP]: from position [pos] control goes to
    [pos + 1 + end], past the end of the statement by [pos + 1]
    instructions.  In the module [x = 10; if x > 5: y = 1 else: y = 2; y]
    the jump at index 8 has operand 11 and sets [IP] to 20, beyond the 13
    instructions: the frame is dropped and the run returns None, not 1;
    with [x = 1] the else-branch runs and the run returns 2. *)
Theorem C5_if_else_skips_rest (format_g : float -> string) :
  (forall test body o orelse c c',
     compileStmt format_g (ast.IfStmt test body (o :: orelse)) c = Ok c' ->
     exists pos,
       len (instructions c) < pos < len (instructions c') /\
       lookupZ (instructions c') pos
       = Some (ins OpJumpForward (len (instructions c')))) /\
  (forall n arg f fs vm,
     exec format_g n (ins OpJumpForward arg) f fs vm
     = Ok (Continue (set_frames vm (set_IP f (int_add (IP f) arg) :: fs)))) /\
  (exists code vm',
     Compile format_g
       (ast.mkModule
          [ast.AssignStmt (ast.Name "x") (ast.Num (ast.GoInt 10));
           ast.IfStmt (ast.Compare (ast.Name "x") [">"] [ast.Num (ast.GoInt 5)])
             [ast.AssignStmt (ast.Name "y") (ast.Num (ast.GoInt 1))]
             [ast.AssignStmt (ast.Name "y") (ast.Num (ast.GoInt 2))];
           ast.ExprStmt (ast.Name "y")]) = Ok code /\
     lookupZ (Instructions code) 8 = Some (ins OpJumpForward 11) /\
     len (Instructions code) = 13 /\
     Run format_g 40 (NewVM []) code = (Ok PyNone, vm') /\
     globals vm' !! "y" = Some (PyInt 1)) /\
  (exists code,
     Compile format_g
       (ast.mkModule
          [ast.AssignStmt (ast.Name "x") (ast.Num (ast.GoInt 1));
           ast.IfStmt (ast.Compare (ast.Name "x") [">"] [ast.Num (ast.GoInt 5)])
             [ast.AssignStmt (ast.Name "y") (ast.Num (ast.GoInt 1))]
             [ast.AssignStmt (ast.Name "y") (ast.Num (ast.GoInt 2))];
           ast.ExprStmt (ast.Name "y")]) = Ok code /\
     (Run format_g 40 (NewVM []) code).1 = Ok (PyInt 2)).
Proof.
  split; [|split; [|split]].
  - intros test body o orelse c c' H. simpl in H.
    destruct (compileExpr format_g test c) as [c1| | |] eqn:H1; simpl in H; try discriminate.
    pose proof (proj1 (compileExpr_expr_step format_g test c c1 H1)) as E1.
    destruct (seqM _ _) as [c3| | |] eqn:H3 in H; simpl in H; try discriminate.
    pose proof (seqM_compileStmt_extends _ _ _ _ H3) as E3.
    cbn [bind emit fst snd] in H.
    destruct (changeOperand _ _ _) as [c5| | |] eqn:H5 in H; cbn [bind] in H;
      try discriminate.
    change (bind (compileStmt format_g o c5) _)
      with (seqM (List.map (compileStmt format_g) (o :: orelse)) c5) in H.
    destruct (seqM _ c5) as [c6| | |] eqn:H6 in H; cbn [bind] in H; try discriminate.
    pose proof (seqM_compileStmt_extends _ _ _ _ H6) as [k6 E6].
    pose proof (extends_len _ _ E1) as L1. pose proof (extends_len _ _ E3) as L3.
    unfold len in L1, L3. simpl in L3. rewrite length_app in L3. simpl in L3.
    assert (Hq4 : (instructions c3 ++ [mkInstruction OpJumpForward 0])
                    !! length (instructions c3) = Some (ins OpJumpForward 0))
      by (apply list_lookup_middle; reflexivity).
    destruct (changeOperand_lookup _ _ _ _ _ _ H5 Hq4) as [Hq5 L5].
    destruct (decide (Z.of_nat (length (instructions c3)) = len (instructions c1)))
      as [Heq|_]; [unfold len in Heq; lia|].
    assert (Hq6 : instructions c6 !! length (instructions c3) = Some (ins OpJumpForward 0))
      by (rewrite E6; apply lookup_app_l_Some; exact Hq5).
    destruct (changeOperand_lookup _ _ _ _ _ _ H Hq6) as [Hq' L'].
    destruct (decide (Z.of_nat (length (instructions c3)) = len (instructions c3)))
      as [_|Hne]; [|unfold len in Hne; lia].
    exists (len (instructions c3)).
    assert (L6 : len (instructions c3) < len (instructions c6)).
    { apply lookup_lt_Some in Hq6. unfold len. lia. }
    split; [unfold len in *; lia|].
    unfold lookupZ. destruct (Z.ltb_spec (len (instructions c3)) 0); [unfold len in *; lia|].
    unfold len at 1. rewrite Nat2Z.id, Hq', L'. reflexivity.
  - reflexivity.
  - eexists. eexists. split; [vm_compute; reflexivity|].
    split; [reflexivity|]. split; [reflexivity|].
    split; [vm_compute; reflexivity|]. vm_compute. reflexivity.
  - eexists. split; [vm_compute; reflexivity|]. vm_compute. reflexivity.
Qed.

(** ** The lexer: indentation balance *)

Section LexerFacts.

Import lexer.

Variable IsDigit : Z -> bool.
Variable IsLetter : Z -> bool.

(** [scan l l']: [l'] is [l] after reading some runes: only the position,
    the line and column and the line-start flag may differ. *)
Definition scan (l l' : Lexer) : Prop :=
  src l' = src l /\ indentStack l' = indentStack l /\
  pendingDedents l' = pendingDedents l /\
  (position l <= position l')%nat /\
  ((position l' <= length (src l))%nat \/ position l' = position l).

Lemma scan_refl l : scan l l.
Proof. unfold scan. repeat split; auto. Qed.

Lemma scan_trans l1 l2 l3 : scan l1 l2 -> scan l2 l3 -> scan l1 l3.
Proof.
  unfold scan. intros (S1 & I1 & P1 & L1 & B1) (S2 & I2 & P2 & L2 & B2).
  rewrite S1 in *. repeat split; try congruence; lia.
Qed.

Lemma readChar_scan l : scan l (readChar l).2.
Proof.
  unfold readChar. destruct (src l !! position l) as [ch|] eqn:H; [|apply scan_refl].
  apply lookup_lt_Some in H.
  destruct (ch =? 10); unfold scan; simpl; repeat split; auto; lia.
Qed.

Lemma readChar_some l ch :
  src l !! position l = Some ch ->
  (readChar l).1 = ch /\ position (readChar l).2 = S (position l) /\
  (ch <> 10 -> atLineStart (readChar l).2 = atLineStart l).
Proof.
  intros H. unfold readChar. rewrite H. simpl.
  destruct (Z.eqb_spec ch 10); simpl; repeat split; auto. contradiction.
Qed.

Lemma readChar_none l :
  src l !! position l = None -> readChar l = (0, l).
Proof. intros H. unfold readChar. rewrite H. reflexivity. Qed.

Lemma peekChar_some l ch : src l !! position l = Some ch -> peekChar l = ch.
Proof. intros H. unfold peekChar. rewrite H. reflexivity. Qed.

Lemma peekChar_none l : src l !! position l = None -> peekChar l = 0.
Proof. intros H. unfold peekChar. rewrite H. reflexivity. Qed.

(** What a loop [for cond(peek) { read }] leaves: the runes it read
    satisfy [cond]; when it was given enough fuel it stops on a rune
    that does not, or at the end of the input. *)
Lemma readWhile_scan cond n l :
  scan l (readWhile cond n l) /\
  ((forall ch, cond ch = true -> ch <> 10) ->
   atLineStart (readWhile cond n l) = atLineStart l) /\
  ((remaining l <= n)%nat -> cond 0 = false ->
   cond (peekChar (readWhile cond n l)) = false).
Proof.
  revert l. induction n as [|n IH]; intros l; simpl.
  - split; [apply scan_refl | split; [auto|]].
    intros Hrem H0. unfold remaining in Hrem.
    rewrite peekChar_none; [exact H0|]. apply lookup_ge_None. lia.
  - destruct (cond (peekChar l)) eqn:Hc; [|split; [apply scan_refl | auto]].
    destruct (src l !! position l) as [ch|] eqn:Hl.
    + destruct (readChar_some l ch Hl) as (_ & Hp & Ha).
      rewrite (peekChar_some _ _ Hl) in Hc.
      destruct (IH (readChar l).2) as (IH1 & IH2 & IH3).
      split; [eapply scan_trans; [apply readChar_scan | exact IH1]|].
      split.
      * intros Hcond. rewrite IH2 by exact Hcond. apply Ha. apply Hcond, Hc.
      * intros Hrem H0. apply IH3; [|exact H0].
        unfold remaining in *. rewrite Hp.
        destruct (readChar_scan l) as (Hs & _). rewrite Hs. lia.
    + rewrite (readChar_none _ Hl). simpl.
      rewrite (peekChar_none _ Hl) in Hc.
      destruct (IH l) as (IH1 & IH2 & IH3).
      split; [exact IH1 | split; [exact IH2|]].
      intros _ H0. congruence.
Qed.

Lemma skipWhitespace_scan l :
  scan l (skipWhitespace l) /\ atLineStart (skipWhitespace l) = atLineStart l.
Proof.
  unfold skipWhitespace.
  destruct (readWhile_scan (fun ch => (ch =? 32) || (ch =? 9) || (ch =? 13)) (remaining l) l)
    as (H1 & H2 & _).
  split; [exact H1|]. apply H2. intros ch Hc Heq. subst ch. discriminate.
Qed.

Lemma skipComment_scan l :
  scan l (skipComment l) /\ atLineStart (skipComment l) = atLineStart l /\
  (peekChar (skipComment l) = 0 \/ peekChar (skipComment l) = 10).
Proof.
  unfold skipComment.
  destruct (readWhile_scan (fun ch => negb ((ch =? 0) || (ch =? 10))) (remaining l) l)
    as (H1 & H2 & H3).
  split; [exact H1 | split].
  - apply H2. intros ch Hc Heq. subst ch. discriminate.
  - specialize (H3 (Nat.le_refl _) eq_refl).
    apply negb_false_iff, orb_true_iff in H3. rewrite !Z.eqb_eq in H3. exact H3.
Qed.

Lemma readStringLoop_scan n quote result l :
  scan l (readStringLoop n quote result l).2.
Proof.
  revert result l. induction n as [|n IH]; intros result l; simpl; [apply scan_refl|].
  destruct ((peekChar l =? 0) || (peekChar l =? quote)); [apply scan_refl|].
  destruct (peekChar l =? 92).
  - destruct (readChar (readChar l).2) as [next l2] eqn:H2.
    eapply scan_trans; [apply readChar_scan|].
    eapply scan_trans; [|apply IH].
    replace l2 with (readChar (readChar l).2).2 by now rewrite H2.
    apply readChar_scan.
  - destruct (readChar l) as [ch l1] eqn:H1.
    eapply scan_trans; [|apply IH].
    replace l1 with (readChar l).2 by now rewrite H1.
    apply readChar_scan.
Qed.

Lemma readString_scan quote l : scan l (readString quote l).2.
Proof.
  unfold readString.
  pose proof (readStringLoop_scan (remaining l) quote [] l) as H.
  destruct (readStringLoop _ _ _ _) as [result l1]. simpl in *.
  destruct (peekChar l1 =? quote); simpl; [|exact H].
  eapply scan_trans; [exact H | apply readChar_scan].
Qed.

Lemma readNumberLoop_scan n b l : scan l (readNumberLoop IsDigit n b l).2.
Proof.
  revert b l. induction n as [|n IH]; intros b l; simpl; [apply scan_refl|].
  destruct (IsDigit (peekChar l)).
  - eapply scan_trans; [apply readChar_scan | apply IH].
  - destruct ((peekChar l =? 46) && negb b); [|apply scan_refl].
    eapply scan_trans; [apply readChar_scan | apply IH].
Qed.


Lemma readIndent_spec n lvl l :
  scan l (readIndent n lvl l).2 /\
  atLineStart (readIndent n lvl l).2 = atLineStart l /\
  lvl <= (readIndent n lvl l).1 /\
  (lvl < (readIndent n lvl l).1 -> (position l < position (readIndent n lvl l).2)%nat).
Proof.
  revert lvl l. induction n as [|n IH]; intros lvl l; simpl.
  - split; [apply scan_refl | split; [reflexivity | split; lia]].
  - assert (Hstep : forall d, 0 < d -> peekChar l <> 10 ->
              peekChar l <> 0 ->
              scan l (readIndent n (lvl + d) (readChar l).2).2 /\
              atLineStart (readIndent n (lvl + d) (readChar l).2).2 = atLineStart l /\
              lvl <= (readIndent n (lvl + d) (readChar l).2).1 /\
              (lvl < (readIndent n (lvl + d) (readChar l).2).1 ->
               (position l < position (readIndent n (lvl + d) (readChar l).2).2)%nat)).
    { intros d Hd H10 H0.
      destruct (src l !! position l) as [ch|] eqn:Hl.
      2:{ rewrite (peekChar_none _ Hl) in H0. contradiction. }
      rewrite (peekChar_some _ _ Hl) in H10.
      destruct (readChar_some l ch Hl) as (_ & Hp & Ha).
      destruct (IH (lvl + d) (readChar l).2) as (I1 & I2 & I3 & I4).
      split; [eapply scan_trans; [apply readChar_scan | exact I1]|].
      split; [rewrite I2; apply Ha, H10|].
      split; [lia|]. intros _.
      destruct I1 as (_ & _ & _ & Hle & _). lia. }
    destruct (Z.eqb_spec (peekChar l) 32) as [H32|H32].
    + apply (Hstep 1); lia.
    + destruct (Z.eqb_spec (peekChar l) 9) as [H9|H9].
      * apply (Hstep 8); lia.
      * simpl. split; [apply scan_refl | split; [reflexivity | split; lia]].
Qed.

(** The state of the indentation: the stack ends with the level 0 pushed
    by [NewLexer] and holds no negative level; no negative number of
    DEDENTs is pending; the position is inside the source. *)
Definition Inv (l : Lexer) : Prop :=
  last (indentStack l) = Some 0 /\
  Forall (fun x => 0 <= x) (indentStack l) /\
  0 <= pendingDedents l /\
  (position l <= length (src l))%nat.

(** The number of DEDENT tokens the lexer still owes. *)
Definition owed (l : Lexer) : Z :=
  Z.of_nat (length (indentStack l)) - 1 + pendingDedents l.

(** A bound on the number of tokens still to come before end-of-input. *)
Definition budget (l : Lexer) : Z :=
  2 * Z.of_nat (remaining l) + Z.of_nat (length (indentStack l)) + pendingDedents l.

Definition delta (t : Token) : Z :=
  (if isINDENT t then 1 else 0) - (if isDEDENT t then 1 else 0).

Lemma scan_Inv l l' : scan l l' -> Inv l -> Inv l'.
Proof.
  unfold scan, Inv. intros (S & I & P & L & B) (H1 & H2 & H3 & H4).
  rewrite S, I, P. repeat split; auto. lia.
Qed.

Lemma scan_owed l l' : scan l l' -> owed l' = owed l.
Proof. unfold scan, owed. intros (S & I & P & _). now rewrite I, P. Qed.

Lemma scan_budget l l' : scan l l' -> budget l' <= budget l.
Proof.
  unfold scan, budget, remaining. intros (S & I & P & L & B). rewrite S, I, P. lia.
Qed.

Lemma scan_budget_lt l l' :
  scan l l' -> (position l < position l')%nat -> budget l' < budget l.
Proof.
  unfold scan, budget, remaining. intros (S & I & P & L & B) Hlt. rewrite S, I, P. lia.
Qed.

Lemma popLevels_spec stack indentLevel k :
  last stack = Some 0 -> Forall (fun x => 0 <= x) stack -> 0 <= indentLevel ->
  let r := popLevels stack indentLevel k in
  last r.1 = Some 0 /\ Forall (fun x => 0 <= x) r.1 /\
  Z.of_nat (length r.1) + r.2 = Z.of_nat (length stack) + k /\ k <= r.2 /\
  (indentLevel < hd 0 stack -> k < r.2).
Proof.
  revert k. induction stack as [|top rest IH]; intros k Hlast HF Hlvl; simpl.
  - discriminate.
  - destruct rest as [|next rest].
    + simpl. injection Hlast as ->. repeat split; auto; lia.
    + destruct (Z.ltb_spec indentLevel top) as [Hlt|Hge].
      * inversion HF as [|? ? Htop HF']; subst.
        destruct (IH (k + 1)) as (I1 & I2 & I3 & I4 & I5); auto.
        repeat split; auto.
        -- simpl length in *. lia.
        -- lia.
        -- intros _. lia.
      * simpl. repeat split; auto; try lia.
Qed.


(** What a token costs: after a token other than end-of-input the
    budget is smaller, the DEDENTs owed follow the token unless it is an
    indentation error (which forgets the levels it has closed), and the
    end-of-input token comes only when nothing is owed. *)
Definition token_ok (l : Lexer) (tok : Token) (l' : Lexer) : Prop :=
  Inv l' /\
  owed l' <= owed l + delta tok /\
  (isIndentationError tok = false -> owed l' = owed l + delta tok) /\
  (isEOF tok = true -> owed l' = 0) /\
  (isEOF tok = false -> budget l' < budget l).

Lemma handleIndentation_spec l :
  Inv l ->
  match handleIndentation l with
  | (Some tok, l') => token_ok l tok l'
  | (None, l') =>
      scan l l' /\ atLineStart l' = false /\ pendingDedents l' = 0
  end.
Proof.
  intros HI. pose proof HI as (Hlast & HF & Hpend & Hpos).
  unfold handleIndentation.
  destruct (Z.ltb_spec 0 (pendingDedents l)) as [Hp|Hp].
  { (* a pending DEDENT *)
    unfold token_ok, Inv, owed, budget, delta, remaining. simpl.
    repeat split; auto; try lia; discriminate. }
  destruct (atLineStart l) eqn:Hstart; simpl.
  2:{ split; [apply scan_refl | split; [exact Hstart | lia]]. }
  set (l0 := set_indent l (indentStack l) false (pendingDedents l)).
  assert (Hl0 : scan l l0) by (unfold scan; simpl; repeat split; auto).
  destruct (readIndent_spec (remaining l0) 0 l0) as (R1 & R2 & R3 & R4).
  destruct (readIndent (remaining l0) 0 l0) as [indentLevel l1] eqn:HR. simpl in *.
  pose proof (scan_trans _ _ _ Hl0 R1) as Hl1.
  pose proof (scan_Inv _ _ Hl1 HI) as HI1.
  assert (Hs1 : indentStack l1 = indentStack l) by apply Hl1.
  assert (Hp1 : pendingDedents l1 = pendingDedents l) by apply Hl1.
  destruct ((peekChar l1 =? 10) || (peekChar l1 =? 35) || (peekChar l1 =? 0)).
  { split; [exact Hl1 | split; [exact R2 | lia]]. }
  assert (Hhd : 0 <= hd 0 (indentStack l1)).
  { rewrite Hs1. destruct HF; simpl; lia. }
  destruct (Z.ltb_spec (hd 0 (indentStack l1)) indentLevel) as [Hup|Hnup].
  { (* INDENT *)
    assert (Hadv : (position l < position l1)%nat) by (apply R4; lia).
    unfold token_ok, Inv, owed, budget, delta, remaining. simpl.
    destruct Hl1 as (S1 & _ & _ & _ & B1). rewrite S1, Hs1, Hp1.
    repeat split; auto; try lia; try discriminate.
    destruct (indentStack l); [discriminate | exact Hlast]. }
  destruct (Z.ltb_spec indentLevel (hd 0 (indentStack l1))) as [Hdown|Hndown].
  2:{ split; [exact Hl1 | split; [exact R2 | lia]]. }
  (* DEDENT or indentation error *)
  destruct HI1 as (Hlast1 & HF1 & _ & Hpos1).
  pose proof (popLevels_spec (indentStack l1) indentLevel 0 Hlast1 HF1 R3)
    as (P1 & P2 & P3 & P4 & P5).
  destruct (popLevels (indentStack l1) indentLevel 0) as [stack dedentCount]. simpl in *.
  specialize (P5 Hdown).
  assert (Hrem : (remaining l1 <= remaining l)%nat).
  { unfold remaining. destruct Hl1 as (S1 & _ & _ & L1 & _). rewrite S1. lia. }
  destruct stack as [|top stack']; [discriminate|].
  destruct (Z.eqb_spec top indentLevel) as [Heq|Hne].
  - unfold token_ok, Inv, owed, budget, delta, remaining in *. simpl in *.
    rewrite Hs1 in P3.
    destruct Hl1 as (S1 & _ & _ & _ & _). rewrite S1 in *.
    repeat split; auto; try lia; try discriminate.
  - unfold token_ok, Inv, owed, budget, delta, remaining in *. simpl in *.
    rewrite Hs1 in P3.
    destruct Hl1 as (S1 & _ & _ & _ & _). rewrite S1 in *.
    repeat split; auto; try lia; try discriminate.
Qed.


(** A token read from the runes of the source, after [l]: it is none of
    the structural tokens and at least one rune was read. *)
Definition plain (l : Lexer) (tok : Token) (l' : Lexer) : Prop :=
  scan l l' /\ (position l < position l')%nat /\
  isINDENT tok = false /\ isDEDENT tok = false /\ isEOF tok = false /\
  isIndentationError tok = false.

Lemma plain_token_ok l l1 tok l' :
  Inv l -> scan l l1 -> plain l1 tok l' -> token_ok l tok l'.
Proof.
  intros HI Hs (Hs' & Hpos & H1 & H2 & H3 & H4).
  pose proof (scan_trans _ _ _ Hs Hs') as Hall.
  unfold token_ok, delta. rewrite H1, H2, H3.
  rewrite (scan_owed _ _ Hall).
  split; [eapply scan_Inv; eauto|].
  split; [lia | split; [intros _; lia | split; [discriminate|]]].
  intros _. pose proof (scan_budget _ _ Hs). pose proof (scan_budget_lt _ _ Hs' Hpos). lia.
Qed.

Lemma token_ok_scan l la tok l' :
  scan l la -> token_ok la tok l' -> token_ok l tok l'.
Proof.
  intros Hs (HI & H1 & H2 & H3 & H4).
  pose proof (scan_owed _ _ Hs) as Ho. pose proof (scan_budget _ _ Hs) as Hb.
  unfold token_ok. rewrite <- Ho.
  split; [exact HI | split; [exact H1 | split; [exact H2 | split; [exact H3|]]]].
  intros He. specialize (H4 He). lia.
Qed.

Lemma LookupIdent_plain s ln col l l' :
  scan l l' -> (position l < position l')%nat ->
  plain l (mkToken (LookupIdent s) s ln col) l'.
Proof.
  intros Hs Hp. unfold plain.
  split; [exact Hs | split; [exact Hp|]].
  unfold isINDENT, isDEDENT, isEOF, isIndentationError, LookupIdent. simpl.
  repeat (match goal with |- context [if ?b then _ else _] => destruct b end);
    repeat split; reflexivity.
Qed.

Lemma string_of_runes_single ch : (String.length (string_of_runes [ch]) <= 4)%nat.
Proof.
  unfold string_of_runes, str_of_bytes. simpl. rewrite app_nil_r.
  assert (Hlen : (length (utf8_encode ch) <= 4)%nat).
  { unfold utf8_encode.
    repeat (match goal with |- context [if ?b then _ else _] => destruct b end);
      simpl; lia. }
  revert Hlen. generalize (utf8_encode ch). intros bs.
  assert (Hgen : forall l : list Ascii.ascii,
            String.length (String.string_of_list_ascii l) = length l).
  { induction l as [|a l IH]; simpl; congruence. }
  rewrite Hgen, length_map. auto.
Qed.

Lemma unknown_char_plain ch ln col l l' :
  scan l l' -> (position l < position l')%nat ->
  plain l (mkToken ILLEGAL (string_of_runes [ch]) ln col) l'.
Proof.
  intros Hs Hp. unfold plain.
  split; [exact Hs | split; [exact Hp|]].
  unfold isINDENT, isDEDENT, isEOF, isIndentationError. simpl.
  repeat split; try reflexivity.
  destruct (String.eqb_spec (string_of_runes [ch]) "indentation error") as [Heq|]; [|reflexivity].
  pose proof (string_of_runes_single ch) as Hlen. rewrite Heq in Hlen. simpl in Hlen. lia.
Qed.

(** The rune just read, put back by [l.position--]. *)
Lemma unread_spec l ch :
  src l !! position l = Some ch ->
  let u := unread (readChar l).2 in
  src u = src l /\ position u = position l /\ indentStack u = indentStack l /\
  pendingDedents u = pendingDedents l /\ peekChar u = ch.
Proof.
  intros H. unfold unread, readChar, peekChar. rewrite H.
  destruct (ch =? 10); simpl; rewrite Nat.sub_0_r, H; repeat split; reflexivity.
Qed.

Lemma readNumber_unread l ch lexeme tt l3 :
  src l !! position l = Some ch -> IsDigit ch = true ->
  readNumber IsDigit (unread (readChar l).2) = (lexeme, tt, l3) ->
  scan l l3 /\ (position l < position l3)%nat /\ (tt = INT \/ tt = FLOAT).
Proof.
  intros H Hd. destruct (unread_spec l ch H) as (U1 & U2 & U3 & U4 & U5).
  set (u := unread (readChar l).2) in *.
  unfold readNumber.
  assert (Hrem : remaining u = S (remaining u - 1)).
  { unfold remaining. rewrite U1, U2. apply lookup_lt_Some in H. lia. }
  rewrite Hrem. simpl readNumberLoop. rewrite U5, Hd.
  pose proof (readNumberLoop_scan (remaining u - 1) false (readChar u).2) as Hs.
  destruct (readNumberLoop _ _ _ _) as [hasDecimal l4]. simpl in Hs.
  intros Heq; injection Heq as _ <- <-.
  assert (Hu : src u !! position u = Some ch) by (rewrite U1, U2; exact H).
  destruct (readChar_some u ch Hu) as (_ & Hp & _).
  pose proof (scan_trans _ _ _ (readChar_scan u) Hs) as Hall.
  split; [|split].
  - destruct Hall as (A1 & A2 & A3 & A4 & A5).
    unfold scan. rewrite A1, A2, A3, U1, U3, U4 in *.
    repeat split; auto; lia.
  - destruct Hs as (_ & _ & _ & Hge & _). lia.
  - destruct hasDecimal; auto.
Qed.

Lemma readIdentifier_unread l ch lexeme l3 :
  src l !! position l = Some ch -> IsLetter ch || (ch =? 95) = true ->
  readIdentifier IsDigit IsLetter (unread (readChar l).2) = (lexeme, l3) ->
  scan l l3 /\ (position l < position l3)%nat.
Proof.
  intros H Hd. destruct (unread_spec l ch H) as (U1 & U2 & U3 & U4 & U5).
  set (u := unread (readChar l).2) in *.
  unfold readIdentifier. rewrite U5.
  assert (Hneg : negb (IsLetter ch) && negb (ch =? 95) = false).
  { apply orb_true_iff in Hd as [->| ->]; [reflexivity | apply andb_false_r]. }
  rewrite Hneg.
  assert (Hrem : remaining u = S (remaining u - 1)).
  { unfold remaining. rewrite U1, U2. apply lookup_lt_Some in H. lia. }
  rewrite Hrem. simpl readWhile. rewrite U5.
  assert (Hc : IsLetter ch || IsDigit ch || (ch =? 95) = true).
  { apply orb_true_iff in Hd as [->| ->]; [reflexivity | apply orb_true_r]. }
  rewrite Hc.
  destruct (readWhile_scan (fun ch => IsLetter ch || IsDigit ch || (ch =? 95))
              (remaining u - 1) (readChar u).2) as (Hs & _).
  intros Heq; injection Heq as _ <-.
  assert (Hu : src u !! position u = Some ch) by (rewrite U1, U2; exact H).
  destruct (readChar_some u ch Hu) as (_ & Hp & _).
  pose proof (scan_trans _ _ _ (readChar_scan u) Hs) as Hall.
  split.
  - destruct Hall as (A1 & A2 & A3 & A4 & A5).
    unfold scan. rewrite A1, A2, A3, U1, U3, U4 in *.
    repeat split; auto; lia.
  - destruct Hs as (_ & _ & _ & Hge & _). lia.
Qed.


Lemma readChar_cases l ch l2 :
  readChar l = (ch, l2) ->
  scan l l2 /\
  (ch <> 0 -> src l !! position l = Some ch /\ position l2 = S (position l) /\
              (ch <> 10 -> atLineStart l2 = atLineStart l)).
Proof.
  intros H. split.
  - pose proof (readChar_scan l) as Hs. rewrite H in Hs. exact Hs.
  - intros Hne. destruct (src l !! position l) as [c|] eqn:Hc.
    + destruct (readChar_some l c Hc) as (H1 & H2 & H3). rewrite H in H1, H2, H3.
      simpl in H1, H2, H3. subst c. auto.
    + rewrite (readChar_none l Hc) in H. congruence.
Qed.

(** At the end of the input: one DEDENT for each level still open, then EOF. *)
Lemma end_of_input_ok l l2 tok l' ln col :
  Inv l -> scan l l2 -> pendingDedents l = 0 ->
  match indentStack l2 with
  | _ :: ((_ :: _) as rest) =>
      Some (mkToken DEDENT "" ln col,
            set_indent l2 rest (atLineStart l2) (pendingDedents l2))
  | _ => Some (mkToken EOF "" ln col, l2)
  end = Some (tok, l') ->
  token_ok l tok l'.
Proof.
  intros HI Hs Hp H.
  pose proof (scan_Inv _ _ Hs HI) as (Hlast & HF & Hpend & Hpos).
  pose proof (scan_owed _ _ Hs) as Ho. pose proof (scan_budget _ _ Hs) as Hb.
  destruct Hs as (A1 & A2 & A3 & A4 & A5).
  unfold token_ok, Inv, owed, budget, delta, remaining in *.
  destruct (indentStack l2) as [|top [|x rest]] eqn:Hst; injection H as <- <-; simpl.
  - discriminate.
  - rewrite Hst. rewrite <- A2 in *. simpl in *.
    repeat split; auto; try lia; discriminate.
  - rewrite <- A2 in *. simpl in *. inversion HF; subst.
    repeat split; auto; try lia; discriminate.
Qed.

Lemma plain_scan l tok l2 l3 : plain l tok l2 -> scan l2 l3 -> plain l tok l3.
Proof.
  intros (Hs & Hp & Hrest) Hs'. split; [exact (scan_trans _ _ _ Hs Hs')|].
  split; [|exact Hrest]. destruct Hs' as (_ & _ & _ & Hle & _). lia.
Qed.

Lemma withEq_plain l1 l2 two one lex2 lex1 ln col tok l' :
  plain l1 (mkToken one lex1 ln col) l2 ->
  plain l1 (mkToken two lex2 ln col) l2 ->
  withEq l2 two one lex2 lex1 ln col = (tok, l') -> plain l1 tok l'.
Proof.
  intros H1 H2. unfold withEq.
  destruct (peekChar l2 =? 61); intros H; injection H as <- <-.
  - exact (plain_scan _ _ _ _ H2 (readChar_scan l2)).
  - exact H1.
Qed.

Ltac plain_leaf Hs2 Hpos :=
  unfold plain; split; [exact Hs2 | split; [rewrite Hpos; lia | repeat split; reflexivity]].

(** One call of [NextToken]: the levels still to be closed follow the
    token returned, and a token other than EOF uses up some of the
    budget. *)
Lemma NextToken_rec_ok n : forall l tok l',
  Inv l -> NextToken_rec IsDigit IsLetter n l = Some (tok, l') -> token_ok l tok l'.
Proof.
  induction n as [|n IH]; intros l tok l' HI H;
    pose proof (handleIndentation_spec l HI) as Hh;
    cbn [NextToken_rec] in H;
    (destruct (handleIndentation l) as [[t|] l0];
     [injection H as <- <-; exact Hh|]);
    destruct Hh as (Hs0 & _ & Hp0);
    assert (Hpend : pendingDedents l = 0)
      by (destruct Hs0 as (_ & _ & <- & _); exact Hp0);
    destruct (skipWhitespace_scan l0) as (Hs1 & _);
    pose proof (scan_trans _ _ _ Hs0 Hs1) as Hs; clear Hs0 Hs1 Hp0;
    set (l1 := skipWhitespace l0) in *; clearbody l1; clear l0;
    destruct (readChar l1) as [ch l2] eqn:Hrc;
    destruct (readChar_cases _ _ _ Hrc) as (Hs2 & Hnz);
    pose proof (scan_trans _ _ _ Hs Hs2) as Hs12;
    (destruct (Z.eqb_spec ch 0) as [->|Hne];
     [exact (end_of_input_ok _ _ _ _ _ _ HI Hs12 Hpend H)|]);
    destruct (Hnz Hne) as (Hsrc & Hpos & _);
    assert (Hl2 : l2 = (readChar l1).2) by (rewrite Hrc; reflexivity);
    repeat match type of H with
           | (if ?b then _ else _) = _ => destruct b eqn:?
           end;
    try discriminate H;
    try (injection H as <- <-; apply (plain_token_ok l l1); [exact HI | exact Hs |];
         first [ apply unknown_char_plain; [exact Hs2 | rewrite Hpos; lia]
               | plain_leaf Hs2 Hpos ]);
    try (injection H as H; apply (plain_token_ok l l1); [exact HI | exact Hs |];
         eapply withEq_plain; [| |exact H]; plain_leaf Hs2 Hpos);
    try (destruct (readString ch l2) as [lexeme l3] eqn:Hrs; injection H as <- <-;
         apply (plain_token_ok l l1); [exact HI | exact Hs|];
         apply (plain_scan _ _ l2);
         [plain_leaf Hs2 Hpos
         |pose proof (readString_scan ch l2) as X; rewrite Hrs in X; exact X]);
    try (destruct (readNumber IsDigit (unread l2)) as [[lexeme tt] l3] eqn:Hrn;
         injection H as <- <-; rewrite Hl2 in Hrn;
         match goal with
         | Hd : IsDigit ch = true |- _ =>
             destruct (readNumber_unread _ _ _ _ _ Hsrc Hd Hrn) as (Ha & Hb & [-> | ->])
         end;
         (apply (plain_token_ok l l1); [exact HI | exact Hs|]);
         (unfold plain; split; [exact Ha | split; [exact Hb | repeat split; reflexivity]]));
    try (destruct (readIdentifier IsDigit IsLetter (unread l2)) as [lexeme l3] eqn:Hri;
         injection H as <- <-; rewrite Hl2 in Hri;
         match goal with
         | Hd : IsLetter ch || (ch =? 95) = true |- _ =>
             destruct (readIdentifier_unread _ _ _ _ Hsrc Hd Hri) as (Ha & Hb)
         end;
         apply (plain_token_ok l l1); [exact HI | exact Hs|];
         apply LookupIdent_plain; assumption).
  (* after a comment *)
  apply IH in H.
  - refine (token_ok_scan _ _ _ _ _ H).
    destruct (skipComment_scan l2) as (Hs3 & _).
    exact (scan_trans _ _ _ Hs12 Hs3).
  - destruct (skipComment_scan l2) as (Hs3 & _).
    exact (scan_Inv _ _ (scan_trans _ _ _ Hs12 Hs3) HI).
Qed.

Lemma readChar_fst l : (readChar l).1 = peekChar l.
Proof. unfold readChar, peekChar. destruct (src l !! position l); reflexivity. Qed.

(** After a comment the lexer stands before a newline or at the end of
    the input, and the nested call returns without a further one. *)
Lemma NextToken_rec_calm n l :
  atLineStart l = false -> pendingDedents l = 0 ->
  peekChar l = 0 \/ peekChar l = 10 ->
  is_Some (NextToken_rec IsDigit IsLetter n l).
Proof.
  intros Hst Hp Hpk.
  assert (Hh : handleIndentation l = (None, l)).
  { unfold handleIndentation. rewrite Hp, Hst. reflexivity. }
  assert (Hw : skipWhitespace l = l).
  { unfold skipWhitespace. destruct (remaining l); [reflexivity|]. simpl.
    destruct Hpk as [-> | ->]; reflexivity. }
  pose proof (readChar_fst l) as Hc.
  destruct n; cbn [NextToken_rec]; rewrite Hh, Hw;
    destruct (readChar l) as [ch l2]; simpl in Hc; subst ch;
    destruct Hpk as [-> | ->]; simpl; try (eexists; reflexivity);
    destruct (indentStack l2) as [|? [|? ?]]; eexists; reflexivity.
Qed.

(** [NextToken] returns a token at every state of the lexer. *)
Lemma NextToken_rec_total n l :
  Inv l -> is_Some (NextToken_rec IsDigit IsLetter (S n) l).
Proof.
  intros HI. pose proof (handleIndentation_spec l HI) as Hh.
  cbn [NextToken_rec].
  destruct (handleIndentation l) as [[t|] l0]; [eexists; reflexivity|].
  destruct Hh as (Hs0 & Hst0 & Hp0).
  destruct (skipWhitespace_scan l0) as (Hs1 & Hst1).
  set (l1 := skipWhitespace l0) in *.
  destruct (readChar l1) as [ch l2] eqn:Hrc.
  destruct (readChar_cases _ _ _ Hrc) as (Hs2 & Hnz).
  destruct (Z.eqb_spec ch 0) as [->|Hne].
  { destruct (indentStack l2) as [|? [|? ?]]; eexists; reflexivity. }
  destruct (Hnz Hne) as (_ & _ & Hst2).
  repeat match goal with
         | |- is_Some (if ?b then _ else _) => destruct b eqn:?
         end;
    try (eexists; reflexivity).
  - (* a comment *)
    destruct (skipComment_scan l2) as (Hs3 & Hst3 & Hpk).
    apply NextToken_rec_calm; [| |exact Hpk].
    + rewrite Hst3, Hst2, Hst1; [exact Hst0|]. intros ->. discriminate.
    + destruct Hs3 as (_ & _ & -> & _). destruct Hs2 as (_ & _ & -> & _).
      destruct Hs1 as (_ & _ & -> & _). exact Hp0.
  - destruct (readString ch l2); eexists; reflexivity.
  - destruct (readNumber IsDigit (unread l2)) as [[? ?] ?]; eexists; reflexivity.
  - destruct (readIdentifier IsDigit IsLetter (unread l2)); eexists; reflexivity.
Qed.




Lemma count_cons p t ts :
  count p (t :: ts) = ((if p t then 1 else 0) + count p ts)%nat.
Proof. unfold count. simpl. destruct (p t); reflexivity. Qed.

Lemma Inv_budget l : Inv l -> 1 <= budget l.
Proof.
  intros (Hlast & _ & Hp & _). unfold budget.
  destruct (indentStack l); [discriminate|]. simpl length. lia.
Qed.

Lemma isEOF_delta t :
  isEOF t = true ->
  isINDENT t = false /\ isDEDENT t = false /\ isIndentationError t = false.
Proof.
  unfold isEOF, isINDENT, isDEDENT, isIndentationError.
  destruct (Type_ t); try discriminate. auto.
Qed.

(** The whole stream: with enough fuel [AllTokens] returns, the stream
    ends with its only EOF token, and the DEDENT tokens are the INDENT
    tokens and the levels owed at the start, less what an indentation
    error dropped. *)
Lemma AllTokens_loop_spec n : forall l,
  Inv l -> budget l <= Z.of_nat n ->
  exists tokens,
    AllTokens_loop IsDigit IsLetter n l = Some tokens /\
    (exists init t, tokens = init ++ [t] /\ isEOF t = true /\
                    forallb (fun t => negb (isEOF t)) init = true) /\
    Z.of_nat (count isDEDENT tokens) <= Z.of_nat (count isINDENT tokens) + owed l /\
    (count isIndentationError tokens = 0%nat ->
     Z.of_nat (count isDEDENT tokens) = Z.of_nat (count isINDENT tokens) + owed l).
Proof.
  induction n as [|n IH]; intros l HI Hb.
  { pose proof (Inv_budget l HI). lia. }
  destruct (NextToken_rec_total 0 l HI) as [[tok l'] Hnt].
  destruct (NextToken_rec_ok _ _ _ _ HI Hnt) as (HI' & Hle & Heq & Heof & Hbud).
  cbn [AllTokens_loop]. unfold NextToken. rewrite Hnt.
  destruct (isEOF tok) eqn:He.
  - exists [tok]. destruct (isEOF_delta tok He) as (E1 & E2 & E3).
    specialize (Heq E3). specialize (Heof eq_refl).
    unfold delta in *. rewrite E1, E2 in *.
    rewrite !count_cons, E1, E2. unfold count. simpl.
    split; [reflexivity|].
    split; [exists [], tok; auto|].
    split; [lia | intros _; lia].
  - specialize (Hbud eq_refl).
    destruct (IH l' HI' ltac:(lia)) as (tokens & Hrec & (init & t & -> & Ht & Hinit) & Hd & Hbal).
    exists (tok :: init ++ [t]). rewrite Hrec. simpl.
    split; [reflexivity|].
    split; [exists (tok :: init), t; simpl; rewrite He, Hinit; auto|].
    rewrite !count_cons. unfold delta in *.
    split.
    + destruct (isINDENT tok), (isDEDENT tok); lia.
    + intros Hz. destruct (isIndentationError tok) eqn:Hie; [simpl in Hz; lia|].
      specialize (Heq eq_refl). specialize (Hbal Hz).
      destruct (isINDENT tok), (isDEDENT tok); lia.
Qed.

Lemma NewLexer_Inv source : Inv (NewLexer source).
Proof.
  unfold Inv, NewLexer. simpl.
  split; [reflexivity | split; [constructor; [lia | constructor] | split; lia]].
Qed.

End LexerFacts.

(** C8 (as amended).  For every source string [AllTokens] returns the
    complete stream, which ends with its only EOF token; the stream has
    at most as many DEDENT tokens as INDENT tokens, and exactly as many
    when it holds no [indentation error] token: at the end of the input
    one DEDENT is emitted for each level still open, before EOF.  The
    two predicates stand for [unicode.IsDigit] and [unicode.IsLetter],
    which are false on 0, the rune [peekChar] gives at the end of the
    input. *)
Theorem C8_indent_dedent_balance (IsDigit IsLetter : Z -> bool) (source : string) :
  IsDigit 0 = false -> IsLetter 0 = false ->
  exists tokens,
    lexer.AllTokens IsDigit IsLetter (lexer.NewLexer source) = Some tokens /\
    (exists init t, tokens = init ++ [t] /\ lexer.isEOF t = true /\
                    forallb (fun t => negb (lexer.isEOF t)) init = true) /\
    (lexer.count lexer.isDEDENT tokens <= lexer.count lexer.isINDENT tokens)%nat /\
    (lexer.count lexer.isIndentationError tokens = 0%nat ->
     lexer.count lexer.isDEDENT tokens = lexer.count lexer.isINDENT tokens).
Proof.
  intros _ _.
  pose proof (NewLexer_Inv source) as HI.
  destruct (AllTokens_loop_spec IsDigit IsLetter
              (2 * length (lexer.src (lexer.NewLexer source)) + 2)
              (lexer.NewLexer source) HI) as (tokens & Hrun & Hlast & Hle & Heq).
  { unfold budget, lexer.remaining. simpl. lia. }
  exists tokens.
  assert (Ho : owed (lexer.NewLexer source) = 0) by reflexivity.
  rewrite Ho in Hle, Heq.
  split; [exact Hrun | split; [exact Hlast | split; [lia|]]].
  intros Hz. specialize (Heq Hz). lia.
Qed.

Lemma C8_indent_dedent_balance_witness :
  exists tokens,
    lexer.AllTokens ascii_IsDigit ascii_IsLetter (lexer.NewLexer "if x:
  if y:
    z") = Some tokens /\
    (exists init t, tokens = init ++ [t] /\ lexer.isEOF t = true /\
                    forallb (fun t => negb (lexer.isEOF t)) init = true) /\
    (lexer.count lexer.isDEDENT tokens <= lexer.count lexer.isINDENT tokens)%nat /\
    (lexer.count lexer.isIndentationError tokens = 0%nat ->
     lexer.count lexer.isDEDENT tokens = lexer.count lexer.isINDENT tokens).
Proof. apply C8_indent_dedent_balance; reflexivity. Defined.

(** C8, counterexample.  The second line of the source is indented less
    than the first one and more than the start: [handleIndentation]
    pops the open level and returns the [indentation error] token, not
    a DEDENT, and at the end of the input no level is left to close.
    The stream has one INDENT and no DEDENT. *)
Lemma C8_unbalanced_stream :
  exists tokens,
    lexer.AllTokens ascii_IsDigit ascii_IsLetter (lexer.NewLexer "  a
 b") = Some tokens /\
    List.map lexer.Type_ tokens =
      [lexer.INDENT; lexer.IDENT; lexer.NEWLINE; lexer.ILLEGAL; lexer.IDENT; lexer.EOF] /\
    lexer.count lexer.isINDENT tokens = 1%nat /\
    lexer.count lexer.isDEDENT tokens = 0%nat.
Proof.
  eexists. split.
  - vm_compute. reflexivity.
  - vm_compute. auto.
Qed.

(** ** Two runs of one code object

    A run leaves its lists and dictionaries in the store, so a second
    run allocates at other addresses.  [relocate b] moves every
    reference by [b], in a value and in the constants of the code
    objects it points to. *)

Fixpoint relocate (b : nat) (o : Object) : Object :=
  match o with
  | PyList a => PyList (b + a)
  | PyDict a => PyDict (b + a)
  | PyFunction c name => PyFunction (relocate_code b c) name
  | _ => o
  end
with relocate_code (b : nat) (c : CodeObject) : CodeObject :=
  match c with
  | mkCodeObject addr instrs consts names varnames argc file name line =>
      mkCodeObject addr instrs (List.map (relocate b) consts) names varnames argc
                   file name line
  end.

Definition relocate_cell (b : nat) (c : HeapObj) : HeapObj :=
  match c with
  | HList els => HList (relocate b <$> els)
  | HDict p ks => HDict (relocate b <$> p) ks
  end.

(** The store of the second run: what was there before, then the cells
    of the first run, moved. *)
Definition relocate_heap (pre : Heap) (h : Heap) : Heap :=
  pre ++ (relocate_cell (length pre) <$> h).

Definition relocate_frame (b : nat) (f : Frame) : Frame :=
  mkFrame (relocate_code b (Code f)) (IP f) (relocate b <$> Stack f)
          (relocate b <$> Locals f).

Definition relocate_vm (pre : Heap) (vm : VM) : VM :=
  mkVM (relocate_frame (length pre) <$> frames vm)
       (relocate (length pre) <$> globals vm)
       (relocate_heap pre (heap vm)) (stdout vm).

Definition relocate_turn (pre : Heap) (t : turn) : turn :=
  match t with
  | Continue vm => Continue (relocate_vm pre vm)
  | Return v vm => Return (relocate (length pre) v) (relocate_vm pre vm)
  end.

Definition res_map {A B} (f : A -> B) (r : res A) : res B :=
  match r with
  | Ok a => Ok (f a)
  | Error e => Error e
  | Panic e => Panic e
  | OutOfFuel => OutOfFuel
  end.

(** No list and no dictionary among the constants of a code object or of
    the code objects of its function constants: the code objects that
    [Compile] builds are of this kind. *)
Fixpoint scalar (o : Object) : bool :=
  match o with
  | PyList _ | PyDict _ => false
  | PyFunction c _ => scalar_consts c
  | _ => true
  end
with scalar_consts (c : CodeObject) : bool :=
  match c with
  | mkCodeObject _ _ consts _ _ _ _ _ _ => forallb scalar consts
  end.

Lemma res_map_id {A} (r : res A) : res_map (fun x => x) r = r.
Proof. destruct r; reflexivity. Qed.

Lemma bind_res_map {A A' B B'} (g : A -> A') (f : B -> B')
    (m : res A) (k : A -> res B) (k' : A' -> res B') :
  (forall x, k' (g x) = res_map f (k x)) ->
  bind (res_map g m) k' = res_map f (bind m k).
Proof. intros H. destruct m; simpl; auto. Qed.

Lemma bind_same {A B B'} (f : B -> B') (m : res A) (k : A -> res B) (k' : A -> res B') :
  (forall x, k' x = res_map f (k x)) ->
  bind m k' = res_map f (bind m k).
Proof. intros H. destruct m; simpl; auto. Qed.

Lemma bind_ext {A B} (m : res A) (k k' : A -> res B) :
  (forall x, k' x = k x) -> bind m k' = bind m k.
Proof. intros H. destruct m; simpl; auto. Qed.

Lemma mapM_fmap {A A' B} (g : A -> A') (f : A' -> res B) (l : list A) :
  mapM f (g <$> l) = mapM (fun x => f (g x)) l.
Proof. induction l as [|x l IH]; csimpl; [reflexivity|]. rewrite IH. reflexivity. Qed.

Lemma mapM_ext {A B} (f f' : A -> res B) (l : list A) :
  (forall x, f x = f' x) -> mapM f l = mapM f' l.
Proof. intros H. induction l as [|x l IH]; simpl; [reflexivity|]. rewrite H, IH. reflexivity. Qed.

Lemma relocate_scalar b :
  (forall o, scalar o = true -> relocate b o = o) /\
  (forall c, scalar_consts c = true -> relocate_code b c = c).
Proof.
  assert (Hobj : forall o, scalar o = true -> relocate b o = o).
  { fix IH 1. intros o. destruct o as [| | | | | | | |c name|]; simpl; try reflexivity;
      try discriminate.
    intros H. f_equal.
    destruct c as [addr instrs consts names varnames argc file nm line]. simpl in *.
    f_equal. induction consts as [|k ks IHks]; simpl in *; [reflexivity|].
    apply andb_true_iff in H as [Hk Hks]. f_equal; [apply IH; exact Hk | apply IHks; exact Hks]. }
  split; [exact Hobj|].
  intros [addr instrs consts names varnames argc file nm line] H. simpl in *.
  f_equal. induction consts as [|k ks IHks]; simpl in *; [reflexivity|].
  apply andb_true_iff in H as [Hk Hks]. f_equal; [apply Hobj; exact Hk | apply IHks; exact Hks].
Qed.

Section Relocation.

Variable format_g : float -> string.
Variable pre : Heap.
Local Abbreviation b := (length pre).

Lemma get_list_relocate g a :
  get_list (relocate_heap pre g) (b + a) = res_map (fmap (relocate b)) (get_list g a).
Proof.
  unfold get_list, relocate_heap.
  rewrite lookup_app_r by lia. replace (length pre + a - length pre)%nat with a by lia.
  rewrite list_lookup_fmap. destruct (g !! a) as [[els|p ks]|]; reflexivity.
Qed.

Lemma get_dict_relocate g a :
  get_dict (relocate_heap pre g) (b + a) =
  res_map (fun d => (relocate b <$> d.1, d.2)) (get_dict g a).
Proof.
  unfold get_dict, relocate_heap.
  rewrite lookup_app_r by lia. replace (length pre + a - length pre)%nat with a by lia.
  rewrite list_lookup_fmap. destruct (g !! a) as [[els|p ks]|]; reflexivity.
Qed.

Lemma Object_Type_relocate o : Object_Type (relocate b o) = Object_Type o.
Proof. destruct o; reflexivity. Qed.

Lemma Object_IsTruthy_relocate g o :
  Object_IsTruthy (relocate_heap pre g) (relocate b o) = Object_IsTruthy g o.
Proof.
  destruct o; simpl; try reflexivity.
  - rewrite get_list_relocate. destruct (get_list g ref); simpl; try reflexivity.
    rewrite length_fmap. reflexivity.
  - rewrite get_dict_relocate. destruct (get_dict g ref); simpl; try reflexivity.
    rewrite map_size_fmap. reflexivity.
Qed.

Lemma Object_String_relocate n : forall g o,
  Object_String format_g n (relocate_heap pre g) (relocate b o) =
  Object_String format_g n g o.
Proof.
  induction n as [|n IH]; intros g o; destruct o; simpl; try reflexivity.
  - rewrite get_list_relocate. destruct (get_list g ref) as [els| | |]; simpl; try reflexivity.
    rewrite mapM_fmap. rewrite (mapM_ext _ (Object_String format_g n g)); [reflexivity|].
    intros x. apply IH.
  - rewrite get_dict_relocate. destruct (get_dict g ref) as [[p ks]| | |]; simpl; try reflexivity.
    erewrite mapM_ext; [reflexivity|].
    intros key. simpl. rewrite lookup_fmap.
    destruct (p !! key) as [v|]; simpl; [rewrite IH; reflexivity|].
    change GoNil with (relocate b GoNil). rewrite IH. reflexivity.
Qed.

Lemma list_equal_fmap (r : Object -> Object) (eq eq' : Object -> Object -> res bool) :
  (forall x y, eq' (r x) (r y) = eq x y) ->
  forall xs ys, list_equal eq' (r <$> xs) (r <$> ys) = list_equal eq xs ys.
Proof.
  intros H. induction xs as [|x xs IH]; intros [|y ys]; csimpl; try reflexivity.
  rewrite H. destruct (eq x y) as [[|]| | |]; simpl; auto.
Qed.

Lemma Addr_relocate c : Addr (relocate_code b c) = Addr c.
Proof. destruct c; reflexivity. Qed.

Lemma Object_Equal_relocate n : forall g x y,
  Object_Equal n (relocate_heap pre g) (relocate b x) (relocate b y) =
  Object_Equal n g x y.
Proof.
  induction n as [|n IH]; intros g x y; destruct x, y; simpl;
    rewrite ?Addr_relocate; try reflexivity.
  - rewrite !get_list_relocate.
    destruct (get_list g ref) as [xs| | |]; simpl; try reflexivity.
    destruct (get_list g ref0) as [ys| | |]; simpl; try reflexivity.
    rewrite !length_fmap. destruct (negb (length xs =? length ys)%nat); [reflexivity|].
    apply list_equal_fmap. intros; apply IH.
  - rewrite !get_dict_relocate.
    destruct (get_dict g ref) as [[p pk]| | |]; simpl; try reflexivity.
    destruct (get_dict g ref0) as [[q qk]| | |]; simpl; try reflexivity.
    rewrite !map_size_fmap. destruct (negb (size p =? size q)%nat); [reflexivity|].
    rewrite map_to_list_fmap, mapM_fmap.
    erewrite mapM_ext; [reflexivity|].
    intros [k v]. simpl. rewrite lookup_fmap.
    destruct (q !! k) as [w|]; simpl; [apply IH | reflexivity].
Qed.

Lemma toGoInt_relocate o : toGoInt (relocate b o) = toGoInt o.
Proof. destruct o; reflexivity. Qed.

Lemma toGoFloat_relocate o : toGoFloat (relocate b o) = toGoFloat o.
Proof. destruct o; reflexivity. Qed.

Ltac case_ifs :=
  repeat match goal with
         | |- context [if ?c then _ else _] => destruct c
         end.

Lemma binaryOp_relocate l r op :
  binaryOp (relocate b l) (relocate b r) op = res_map (relocate b) (binaryOp l r op).
Proof.
  unfold binaryOp, unsupported_operand.
  destruct l, r; simpl; case_ifs; reflexivity.
Qed.

Lemma unaryOp_relocate o op :
  unaryOp (relocate b o) op = res_map (relocate b) (unaryOp o op).
Proof. unfold unaryOp. destruct o; simpl; case_ifs; reflexivity. Qed.

Lemma compareOp_relocate l r op :
  compareOp (relocate b l) (relocate b r) op = res_map (relocate b) (compareOp l r op).
Proof.
  unfold compareOp.
  destruct l, r; simpl; try reflexivity;
    match goal with |- context [match ?c with Some _ => _ | None => _ end] => destruct c end;
    reflexivity.
Qed.

Lemma toGoString_relocate n g o :
  toGoString format_g n (relocate_heap pre g) (relocate b o) = toGoString format_g n g o.
Proof.
  destruct o; try reflexivity; unfold toGoString;
    change (PyList (b + ref)) with (relocate b (PyList ref)) ||
    change (PyDict (b + ref)) with (relocate b (PyDict ref)) || idtac;
    try apply Object_String_relocate.
Qed.

Lemma heap_insert_relocate g a c :
  <[(b + a)%nat := relocate_cell b c]> (relocate_heap pre g) =
  relocate_heap pre (<[a := c]> g).
Proof.
  unfold relocate_heap. rewrite insert_app_r_alt by lia.
  replace (b + a - b)%nat with a by lia. rewrite list_fmap_insert. reflexivity.
Qed.

Lemma alloc_relocate g c :
  alloc (relocate_heap pre g) (relocate_cell b c) =
  ((b + (alloc g c).1)%nat, relocate_heap pre (alloc g c).2).
Proof.
  unfold alloc, relocate_heap. simpl.
  rewrite length_app, length_fmap, fmap_app, app_assoc. reflexivity.
Qed.

Lemma PyDict_Set_relocate n g a key value :
  PyDict_Set format_g n (relocate_heap pre g) (b + a) (relocate b key) (relocate b value) =
  res_map (relocate_heap pre) (PyDict_Set format_g n g a key value).
Proof.
  unfold PyDict_Set. rewrite get_dict_relocate, Object_String_relocate.
  destruct (get_dict g a) as [[p ks]| | |]; simpl; try reflexivity.
  destruct (Object_String format_g n g key) as [keyStr| | |]; simpl; try reflexivity.
  rewrite <- heap_insert_relocate. simpl. rewrite fmap_insert, lookup_fmap.
  destruct (p !! keyStr); reflexivity.
Qed.

Lemma PyDict_Get_relocate n g a key :
  PyDict_Get format_g n (relocate_heap pre g) (b + a) (relocate b key) =
  res_map (fmap (relocate b)) (PyDict_Get format_g n g a key).
Proof.
  unfold PyDict_Get. rewrite get_dict_relocate, Object_String_relocate.
  destruct (get_dict g a) as [[p ks]| | |]; simpl; try reflexivity.
  destruct (Object_String format_g n g key) as [keyStr| | |]; simpl; try reflexivity.
  rewrite lookup_fmap. reflexivity.
Qed.

Lemma list_member_fmap (r : Object -> Object) (eq eq' : Object -> res bool) :
  (forall x, eq' (r x) = eq x) ->
  forall els, list_member eq' (r <$> els) = list_member eq els.
Proof.
  intros H. induction els as [|e els IH]; csimpl; [reflexivity|].
  rewrite H. destruct (eq e) as [[|]| | |]; simpl; auto.
Qed.

Lemma lookupZ_fmap {A B} (f : A -> B) (l : list A) i :
  lookupZ (f <$> l) i = f <$> lookupZ l i.
Proof. unfold lookupZ. destruct (i <? 0); [reflexivity|]. apply list_lookup_fmap. Qed.

Lemma inOp_relocate n g l r :
  inOp format_g n (relocate_heap pre g) (relocate b l) (relocate b r) =
  res_map (relocate b) (inOp format_g n g l r).
Proof.
  unfold inOp. destruct r; simpl; try reflexivity.
  - destruct l; reflexivity.
  - rewrite get_list_relocate. destruct (get_list g ref) as [els| | |]; simpl; try reflexivity.
    rewrite (list_member_fmap _ (Object_Equal n g l)) by (intros; apply Object_Equal_relocate).
    destruct (list_member _ els); reflexivity.
  - rewrite PyDict_Get_relocate.
    destruct (PyDict_Get format_g n g ref l) as [[v|]| | |]; reflexivity.
Qed.

Lemma subscript_relocate n g c i :
  subscript format_g n (relocate_heap pre g) (relocate b c) (relocate b i) =
  res_map (relocate b) (subscript format_g n g c i).
Proof.
  unfold subscript. destruct c; simpl; try reflexivity.
  - rewrite toGoInt_relocate. destruct (toGoInt i) as [idx| | |]; simpl; try reflexivity.
    destruct ((idx <? 0) || (str_len Value <=? idx)); [reflexivity|].
    destruct (lookupZ (bytes_of Value) idx); reflexivity.
  - rewrite get_list_relocate, toGoInt_relocate.
    destruct (get_list g ref) as [els| | |]; simpl; try reflexivity.
    destruct (toGoInt i) as [idx| | |]; simpl; try reflexivity.
    rewrite length_fmap, lookupZ_fmap.
    destruct ((idx <? 0) || (Z.of_nat (length els) <=? idx)); [reflexivity|].
    destruct (lookupZ els idx); reflexivity.
  - rewrite PyDict_Get_relocate, Object_String_relocate.
    destruct (PyDict_Get format_g n g ref i) as [[v|]| | |]; simpl; try reflexivity.
    destruct (Object_String format_g n g i); reflexivity.
Qed.

Lemma storeSubscript_relocate n g c i v :
  storeSubscript format_g n (relocate_heap pre g) (relocate b c) (relocate b i)
                 (relocate b v) =
  res_map (relocate_heap pre) (storeSubscript format_g n g c i v).
Proof.
  unfold storeSubscript. destruct c; simpl; try reflexivity.
  - rewrite get_list_relocate, toGoInt_relocate.
    destruct (get_list g ref) as [els| | |]; simpl; try reflexivity.
    destruct (toGoInt i) as [idx| | |]; simpl; try reflexivity.
    rewrite length_fmap.
    destruct ((idx <? 0) || (Z.of_nat (length els) <=? idx)); [reflexivity|].
    simpl. rewrite <- heap_insert_relocate. simpl. rewrite list_fmap_insert. reflexivity.
  - apply PyDict_Set_relocate.
Qed.

Lemma range_loop_relocate n : forall up i stop step,
  res_map (fmap (relocate b)) (range_loop n up i stop step) = range_loop n up i stop step.
Proof.
  induction n as [|n IH]; intros up i stop step; simpl;
    destruct (if up then i <? stop else stop <? i); try reflexivity.
  specialize (IH up (int_add i step) stop step).
  destruct (range_loop n up (int_add i step) stop step) as [l| | |]; simpl in *;
    try reflexivity.
  injection IH as IH. simpl. do 2 f_equal. exact IH.
Qed.

Lemma call_builtin_relocate n g fn args :
  call_builtin format_g n (relocate_heap pre g) fn (relocate b <$> args) =
  res_map (fun v => (relocate b v.1, relocate_heap pre v.2))
          (call_builtin format_g n g fn args).
Proof.
  destruct fn; unfold call_builtin.
  - destruct args as [|a [|a' args]]; csimpl; try reflexivity.
    + destruct a; simpl; try reflexivity.
      * rewrite get_list_relocate. destruct (get_list g ref); simpl; try reflexivity.
        rewrite length_fmap. reflexivity.
      * rewrite get_dict_relocate. destruct (get_dict g ref); simpl; try reflexivity.
        rewrite map_size_fmap. reflexivity.
    + rewrite length_fmap. reflexivity.
  - assert (Hb : forall bounds : res (Z * Z * Z),
              bind bounds (fun bounds =>
                let '(start, stop, step) := bounds in
                elements <- range_loop n (0 <? step) start stop step ;;
                let '(a, h') := alloc (relocate_heap pre g) (HList elements) in
                Ok (PyList a, h')) =
              res_map (fun v => (relocate b v.1, relocate_heap pre v.2))
                (bind bounds (fun bounds =>
                   let '(start, stop, step) := bounds in
                   elements <- range_loop n (0 <? step) start stop step ;;
                   let '(a, h') := alloc g (HList elements) in
                   Ok (PyList a, h')))).
    { intros [[[start stop] step]| | |]; simpl; try reflexivity.
      pose proof (range_loop_relocate n (0 <? step) start stop step) as Hr.
      destruct (range_loop n (0 <? step) start stop step) as [els| | |]; simpl in *;
        try reflexivity.
      injection Hr as Hr. unfold alloc, relocate_heap. simpl.
      rewrite length_app, length_fmap, fmap_app, app_assoc. simpl. rewrite Hr.
      reflexivity. }
    destruct args as [|a1 [|a2 [|a3 [|a4 args]]]]; csimpl; rewrite ?toGoInt_relocate;
      first [reflexivity | apply Hb].
  - destruct args as [|a [|a' args]]; csimpl; try reflexivity.
    rewrite Object_Type_relocate. destruct (Object_Type a); reflexivity.
  - destruct args as [|a [|a' args]]; csimpl; try reflexivity.
    rewrite toGoString_relocate. destruct (toGoString format_g n g a); reflexivity.
Qed.

(** *** Frames *)

Lemma push_relocate o f :
  push (relocate b o) (relocate_frame b f) = res_map (relocate_frame b) (push o f).
Proof.
  unfold push. simpl. rewrite length_fmap.
  destruct (length (Stack f) <? StackSize)%nat; reflexivity.
Qed.

Lemma pop_relocate f :
  pop (relocate_frame b f) =
  res_map (fun r => (relocate b r.1, relocate_frame b r.2)) (pop f).
Proof. unfold pop. simpl. destruct (Stack f); reflexivity. Qed.

Lemma peek_relocate f : peek (relocate_frame b f) = relocate b (peek f).
Proof. unfold peek. simpl. destruct (Stack f); reflexivity. Qed.

Lemma pop_n_relocate k : forall acc f,
  pop_n k (relocate b <$> acc) (relocate_frame b f) =
  res_map (fun r => (relocate b <$> r.1, relocate_frame b r.2)) (pop_n k acc f).
Proof.
  induction k as [|k IH]; intros acc f; simpl; [reflexivity|].
  rewrite pop_relocate. destruct (pop f) as [[o f']| | |]; simpl; try reflexivity.
  apply (IH (o :: acc)).
Qed.

Lemma Names_relocate c : Names (relocate_code b c) = Names c.
Proof. destruct c; reflexivity. Qed.
Lemma Varnames_relocate c : Varnames (relocate_code b c) = Varnames c.
Proof. destruct c; reflexivity. Qed.
Lemma Instructions_relocate c : Instructions (relocate_code b c) = Instructions c.
Proof. destruct c; reflexivity. Qed.
Lemma Argcount_relocate c : Argcount (relocate_code b c) = Argcount c.
Proof. destruct c; reflexivity. Qed.
Lemma Consts_relocate c : Consts (relocate_code b c) = relocate b <$> Consts c.
Proof. destruct c; reflexivity. Qed.

Lemma builtins_relocate name :
  builtins !! name = relocate b <$> (builtins !! name).
Proof.
  rewrite <- lookup_fmap. f_equal.
Qed.

Lemma NewFrame_relocate c :
  NewFrame (relocate_code b c) = relocate_frame b (NewFrame c).
Proof.
  unfold NewFrame, relocate_frame. simpl. rewrite Varnames_relocate, fmap_replicate.
  reflexivity.
Qed.

Lemma Code_relocate f : Code (relocate_frame b f) = relocate_code b (Code f).
Proof. reflexivity. Qed.
Lemma Locals_relocate f : Locals (relocate_frame b f) = relocate b <$> Locals f.
Proof. reflexivity. Qed.
Lemma Stack_relocate f : Stack (relocate_frame b f) = relocate b <$> Stack f.
Proof. reflexivity. Qed.
Lemma IP_relocate f : IP (relocate_frame b f) = IP f.
Proof. reflexivity. Qed.
Lemma heap_relocate vm : heap (relocate_vm pre vm) = relocate_heap pre (heap vm).
Proof. reflexivity. Qed.
Lemma stdout_relocate vm : stdout (relocate_vm pre vm) = stdout vm.
Proof. reflexivity. Qed.

Ltac reloc_rewrite :=
  rewrite ?Code_relocate, ?Locals_relocate, ?IP_relocate, ?heap_relocate,
    ?stdout_relocate, ?pop_relocate, ?push_relocate, ?peek_relocate, ?Names_relocate,
    ?Consts_relocate, ?Argcount_relocate, ?lookupZ_fmap,
    ?Object_IsTruthy_relocate, ?Object_String_relocate, ?Object_Equal_relocate,
    ?binaryOp_relocate, ?unaryOp_relocate, ?compareOp_relocate, ?inOp_relocate,
    ?subscript_relocate, ?storeSubscript_relocate, ?Object_Type_relocate,
    ?get_list_relocate, ?length_fmap.

Ltac reloc_step :=
  match goal with
  | |- _ = res_map _ (bind ?m _) => destruct m as [?| | |]
  | |- _ = res_map _ (match ?m with _ => _ end) => destruct m
  | |- _ = res_map _ (if ?m then _ else _) => destruct m
  end.

Ltac reloc :=
  repeat (cbn [bind res_map fst snd fmap option_fmap option_map];
          reloc_rewrite;
          cbn [bind res_map fst snd fmap option_fmap option_map];
          try reflexivity; try reloc_step).

Lemma binary_relocate vm f fs (op op' : Object -> Object -> res Object) :
  (forall l r, op' (relocate b l) (relocate b r) = res_map (relocate b) (op l r)) ->
  binary (relocate_vm pre vm) (relocate_frame b f) (relocate_frame b <$> fs) op' =
  res_map (relocate_turn pre) (binary vm f fs op).
Proof.
  intros H. unfold binary, resume.
  rewrite pop_relocate. destruct (pop f) as [[r f1]| | |]; simpl; try reflexivity.
  rewrite pop_relocate. destruct (pop f1) as [[l f2]| | |]; simpl; try reflexivity.
  rewrite H. destruct (op l r) as [v| | |]; simpl; try reflexivity.
  rewrite push_relocate. destruct (push v f2); reflexivity.
Qed.

Lemma load_name_relocate vm f fs arg what :
  load_name (relocate_vm pre vm) (relocate_frame b f) (relocate_frame b <$> fs) arg what =
  res_map (relocate_turn pre) (load_name vm f fs arg what).
Proof.
  unfold load_name, resume. simpl. rewrite Names_relocate.
  destruct (lookupZ (Names (Code f)) arg) as [name|]; [|reflexivity].
  rewrite lookup_fmap. destruct (globals vm !! name) as [obj|]; simpl.
  - rewrite push_relocate. destruct (push obj f); reflexivity.
  - pose proof (builtins_relocate name) as Hb.
    destruct (builtins !! name) as [obj|]; [|reflexivity].
    injection Hb as Hb. rewrite Hb at 1.
    rewrite push_relocate. destruct (push obj f); reflexivity.
Qed.

Lemma store_name_relocate vm f fs arg :
  store_name (relocate_vm pre vm) (relocate_frame b f) (relocate_frame b <$> fs) arg =
  res_map (relocate_turn pre) (store_name vm f fs arg).
Proof.
  unfold store_name, resume. simpl. rewrite Names_relocate.
  destruct (lookupZ (Names (Code f)) arg) as [name|]; [|reflexivity].
  rewrite pop_relocate. destruct (pop f) as [[r f1]| | |]; simpl; try reflexivity.
  unfold relocate_turn, relocate_vm. simpl. rewrite fmap_insert. reflexivity.
Qed.

Lemma jump_if_relocate vm f fs o want target :
  jump_if (relocate_vm pre vm) (relocate_frame b f) (relocate_frame b <$> fs)
          (relocate b o) want target =
  res_map (relocate_turn pre) (jump_if vm f fs o want target).
Proof.
  unfold jump_if, resume. simpl. rewrite Object_IsTruthy_relocate.
  destruct (Object_IsTruthy (heap vm) o) as [t| | |]; simpl; try reflexivity.
  destruct (Bool.eqb t want); reflexivity.
Qed.

Lemma exec_relocate n ins f fs vm :
  exec format_g n ins (relocate_frame b f) (relocate_frame b <$> fs) (relocate_vm pre vm) =
  res_map (relocate_turn pre) (exec format_g n ins f fs vm).
Proof.
  destruct ins as [op arg]. unfold exec. cbn [Op Arg].
  destruct op;
    try apply load_name_relocate; try apply store_name_relocate;
    try (apply binary_relocate; intros l r; simpl;
         first [ apply binaryOp_relocate | apply compareOp_relocate
               | apply inOp_relocate | apply subscript_relocate
               | rewrite Object_Equal_relocate;
                 destruct (Object_Equal n (heap vm) l r); reflexivity ]);
    try (rewrite peek_relocate; apply jump_if_relocate);
    try reflexivity;
    try (unfold resume; reloc; fail).
  - (* STORE_FAST *)
    unfold resume. rewrite pop_relocate, Locals_relocate, lookupZ_fmap.
    destruct (pop f) as [[o f1]| | |]; cbn [bind res_map fst snd]; try reflexivity.
    destruct (lookupZ (Locals f) arg); cbn [fmap option_fmap option_map]; [|reflexivity].
    cbn [res_map]. unfold relocate_turn, relocate_vm, set_frames, set_Locals. simpl.
    unfold relocate_frame. simpl. rewrite list_fmap_insert. reflexivity.
  - (* UNARY_NOT *)
    unfold resume. rewrite pop_relocate.
    destruct (pop f) as [[o f1]| | |]; cbn [bind res_map fst snd]; try reflexivity.
    rewrite heap_relocate, Object_IsTruthy_relocate.
    destruct (Object_IsTruthy (heap vm) o) as [t| | |]; cbn [bind res_map]; try reflexivity.
    change (PyBool (negb t)) with (relocate b (PyBool (negb t))) at 1.
    rewrite push_relocate. destruct (push (PyBool (negb t)) f1); reflexivity.
  - rewrite pop_relocate.
    destruct (pop f) as [[o f1]| | |]; cbn [bind res_map fst snd]; try reflexivity.
    apply jump_if_relocate.
  - rewrite pop_relocate.
    destruct (pop f) as [[o f1]| | |]; cbn [bind res_map fst snd]; try reflexivity.
    apply jump_if_relocate.
  - (* BUILD_LIST *)
    destruct (arg <? 0); [reflexivity|].
    change (@nil Object) with (relocate b <$> @nil Object) at 1.
    rewrite pop_n_relocate.
    destruct (pop_n (Z.to_nat arg) [] f) as [[els f1]| | |]; cbn [bind res_map fst snd];
      try reflexivity.
    rewrite heap_relocate.
    change (HList (relocate b <$> els)) with (relocate_cell b (HList els)).
    rewrite alloc_relocate. unfold alloc. cbn [fst snd].
    change (PyList (b + length (heap vm))) with (relocate b (PyList (length (heap vm)))).
    rewrite push_relocate. destruct (push _ f1); reflexivity.
  - (* BUILD_DICT *)
    rewrite heap_relocate.
    assert (Ha : alloc (relocate_heap pre (heap vm)) (HDict ∅ []) =
                 ((b + length (heap vm))%nat,
                  relocate_heap pre (heap vm ++ [HDict ∅ []]))).
    { unfold alloc, relocate_heap.
      rewrite length_app, length_fmap, fmap_app, app_assoc. simpl.
      rewrite fmap_empty. reflexivity. }
    rewrite Ha. unfold alloc. cbn beta iota zeta.
    set (a := length (heap vm)).
    generalize (heap vm ++ [HDict ∅ []]). intros h0.
    match goal with
    | |- bind (?l' _ _ _) _ = res_map _ (bind (?l _ _ _) _) =>
        set (loop' := l'); set (loop := l)
    end.
    assert (Hloop : forall k h f0,
              loop' k (relocate_heap pre h) (relocate_frame b f0) =
              res_map (fun r => (relocate_heap pre r.1, relocate_frame b r.2))
                      (loop k h f0)).
    { induction k as [|k IH]; intros h f0; [reflexivity|].
      cbn [loop loop']. fold loop loop'.
      rewrite pop_relocate.
      destruct (pop f0) as [[value f1]| | |]; cbn [bind res_map fst snd]; try reflexivity.
      rewrite pop_relocate.
      destruct (pop f1) as [[key f2]| | |]; cbn [bind res_map fst snd]; try reflexivity.
      rewrite PyDict_Set_relocate.
      destruct (PyDict_Set format_g n h a key value) as [h'| | |]; cbn [bind res_map];
        try reflexivity.
      apply IH. }
    rewrite Hloop.
    destruct (loop (Z.to_nat arg) h0 f) as [[h1 f1]| | |]; cbn [bind res_map fst snd];
      try reflexivity.
    change (PyDict (b + a)) with (relocate b (PyDict a)).
    rewrite push_relocate. destruct (push _ f1); reflexivity.
  - (* CALL_FUNCTION *)
    destruct (arg <? 0); [reflexivity|].
    change (@nil Object) with (relocate b <$> @nil Object) at 1.
    rewrite pop_n_relocate.
    destruct (pop_n (Z.to_nat arg) [] f) as [[args f1]| | |]; cbn [bind res_map fst snd];
      try reflexivity.
    rewrite pop_relocate.
    destruct (pop f1) as [[fn f2]| | |]; cbn [bind res_map fst snd]; try reflexivity.
    destruct fn as [| | | | | | | |code name|name [native|]]; cbn [relocate];
      try reflexivity.
    + rewrite length_fmap, Argcount_relocate.
      destruct (negb (Z.of_nat (length args) =? Argcount code)); [reflexivity|].
      rewrite NewFrame_relocate, Locals_relocate, length_fmap.
      unfold pushFrame. cbn [frames set_frames relocate_vm]. cbn [length].
      rewrite length_fmap.
      destruct (S (length fs) <? MaxFrames)%nat; [|reflexivity].
      cbn [bind res_map relocate_turn]. do 2 f_equal.
      unfold relocate_vm, set_frames, set_Locals, relocate_frame. simpl.
      rewrite fmap_app, fmap_take, fmap_drop. reflexivity.
    + rewrite heap_relocate, call_builtin_relocate.
      destruct (call_builtin format_g n (heap vm) native args) as [[v h']| | |];
        cbn [bind res_map fst snd]; try reflexivity.
      rewrite push_relocate. destruct (push v f2); reflexivity.
  - (* RETURN_VALUE *)
    rewrite pop_relocate.
    destruct (pop f) as [[v f1]| | |]; cbn [bind res_map fst snd]; try reflexivity.
    destruct fs as [|caller fs']; [reflexivity|]. rewrite fmap_cons.
    rewrite push_relocate. destruct (push v caller); reflexivity.
  - (* DUP_TOP *)
    rewrite peek_relocate, push_relocate. destruct (push (peek f) f); reflexivity.
  - (* GET_ITER *)
    rewrite pop_relocate.
    destruct (pop f) as [[v f1]| | |]; cbn [bind res_map fst snd]; try reflexivity.
    destruct v; cbn [relocate]; try reflexivity.
    + rewrite heap_relocate.
      set (chars := map (fun char : Z => PyString (string_of_rune char)) (runes Value)).
      assert (Hc : relocate b <$> chars = chars).
      { unfold chars. generalize (runes Value). intros rs.
        induction rs as [|r rs IH]; csimpl; [reflexivity|]. rewrite IH. reflexivity. }
      assert (Ha : alloc (relocate_heap pre (heap vm)) (HList chars) =
                   ((b + length (heap vm))%nat,
                    relocate_heap pre (heap vm ++ [HList chars]))).
      { unfold alloc, relocate_heap.
        rewrite length_app, length_fmap, fmap_app, app_assoc. simpl.
        rewrite Hc. reflexivity. }
      rewrite Ha. unfold alloc. cbn beta iota zeta.
      change (PyList (b + length (heap vm))) with (relocate b (PyList (length (heap vm)))).
      rewrite push_relocate. destruct (push _ f1); reflexivity.
    + change (PyList (b + ref)) with (relocate b (PyList ref)).
      rewrite push_relocate. destruct (push _ f1); reflexivity.
  - (* FOR_ITER *)
    rewrite pop_relocate.
    destruct (pop f) as [[v f1]| | |]; cbn [bind res_map fst snd]; try reflexivity.
    rewrite Stack_relocate.
    assert (Hidx :
      match relocate b <$> Stack f1 with
      | PyInt idx :: s => (idx, set_Stack (relocate_frame b f1) s)
      | _ => (0, relocate_frame b f1)
      end =
      (match Stack f1 with
       | PyInt idx :: s => (idx, set_Stack f1 s)
       | _ => (0, f1)
       end.1,
       relocate_frame b
         match Stack f1 with
         | PyInt idx :: s => (idx, set_Stack f1 s)
         | _ => (0, f1)
         end.2)).
    { destruct (Stack f1) as [|[] s]; reflexivity. }
    rewrite Hidx. clear Hidx.
    destruct (match Stack f1 with
              | PyInt idx :: s => (idx, set_Stack f1 s)
              | _ => (0, f1)
              end) as [iterIndex f2]. cbn [fst snd].
    destruct v; cbn [relocate]; try reflexivity.
    rewrite heap_relocate, get_list_relocate.
    destruct (get_list (heap vm) ref) as [els| | |]; cbn [bind res_map]; try reflexivity.
    rewrite length_fmap, lookupZ_fmap.
    destruct (iterIndex <? Z.of_nat (length els)); [|reflexivity].
    change (PyInt (int_add iterIndex 1)) with (relocate b (PyInt (int_add iterIndex 1))) at 1.
    rewrite push_relocate.
    destruct (push (PyInt (int_add iterIndex 1)) f2) as [f3| | |]; cbn [bind res_map];
      try reflexivity.
    change (PyList (b + ref)) with (relocate b (PyList ref)).
    rewrite push_relocate.
    destruct (push (PyList ref) f3) as [f4| | |]; cbn [bind res_map]; try reflexivity.
    destruct (lookupZ els iterIndex) as [e|]; cbn [fmap option_fmap option_map];
      [|reflexivity].
    rewrite push_relocate. destruct (push e f4); reflexivity.
Qed.

Lemma step_relocate n vm :
  step format_g n (relocate_vm pre vm) = res_map (relocate_turn pre) (step format_g n vm).
Proof.
  unfold step. cbn [frames relocate_vm].
  destruct (frames vm) as [|f fs]; [reflexivity|]. rewrite fmap_cons.
  rewrite Code_relocate, Instructions_relocate, IP_relocate.
  destruct (Z.of_nat (length (Instructions (Code f))) <=? IP f); [reflexivity|].
  destruct (lookupZ (Instructions (Code f)) (IP f)) as [ins|]; [|reflexivity].
  apply (exec_relocate n ins (set_IP f (IP f + 1)) fs vm).
Qed.

Lemma run_loop_relocate n : forall vm,
  run_loop format_g n (relocate_vm pre vm) =
  (res_map (relocate b) (run_loop format_g n vm).1,
   relocate_vm pre (run_loop format_g n vm).2).
Proof.
  induction n as [|n IH]; intros vm; [reflexivity|].
  cbn [run_loop]. rewrite step_relocate.
  destruct (step format_g n vm) as [[vm'|v vm']| | |]; cbn [res_map relocate_turn];
    try reflexivity.
  apply IH.
Qed.

Lemma Run_relocate n vm code :
  Run format_g n (relocate_vm pre vm) (relocate_code b code) =
  (res_map (relocate b) (Run format_g n vm code).1,
   relocate_vm pre (Run format_g n vm code).2).
Proof.
  unfold Run, pushFrame. rewrite NewFrame_relocate.
  cbn [frames relocate_vm]. rewrite length_fmap.
  destruct (length (frames vm) <? MaxFrames)%nat; [|reflexivity].
  apply (run_loop_relocate n (set_frames vm (NewFrame code :: frames vm))).
Qed.

End Relocation.

Lemma NewVM_relocate (h : Heap) : relocate_vm h (NewVM []) = NewVM h.
Proof.
  unfold relocate_vm, NewVM, relocate_heap. simpl.
  rewrite fmap_empty, app_nil_r. reflexivity.
Qed.

(** A run that starts with the store [h] is the run that starts with the
    empty store, moved by the size of [h]. *)
Lemma Run_any_store format_g (h : Heap) n code :
  scalar_consts code = true ->
  Run format_g n (NewVM h) code =
  (res_map (relocate (length h)) (Run format_g n (NewVM []) code).1,
   relocate_vm h (Run format_g n (NewVM []) code).2).
Proof.
  intros Hs. rewrite <- (Run_relocate format_g h n (NewVM []) code).
  rewrite NewVM_relocate, (proj2 (relocate_scalar (length h)) code Hs). reflexivity.
Qed.



(** ** Invariants of the compiler's tables

    A property of the constant pool, the name tables and their maps
    that the table operations keep is kept by the whole compilation,
    which touches the tables through those operations only. *)

Definition same_tables (c c' : Compiler) : Prop :=
  consts c' = consts c /\ constMap c' = constMap c /\
  names c' = names c /\ nameMap c' = nameMap c /\
  varnames c' = varnames c /\ varnameMap c' = varnameMap c.

(** The constants the compiler makes from literals. *)
Definition atom (o : Object) : bool :=
  match o with
  | PyInt _ | PyFloat _ | PyString _ | PyBool _ | PyNone => true
  | _ => false
  end.

Lemma atom_ToPyObject v : atom (ToPyObject v) = true.
Proof. destruct v; reflexivity. Qed.

Section TableInvariant.

Variable format_g : float -> string.
Variable P : Compiler -> Prop.

Hypothesis P_tables : forall c c', same_tables c c' -> P c -> P c'.
Hypothesis P_new : forall a d, P (set_scopeDepth (NewCompiler a) d).
Hypothesis P_name : forall c name, P c -> P (addName c name).2.
Hypothesis P_var : forall c name, P c -> P (addVarname c name).2.
Hypothesis P_atom : forall c obj r,
  atom obj = true -> P c -> addConstant format_g c obj = Ok r -> P r.2.
Hypothesis P_func : forall c f argc file name line r,
  P c -> P f ->
  addConstant format_g c (PyFunction (mkCode f argc file name line) name) = Ok r ->
  P r.2.

Set Default Proof Using "All".

Definition keeps (step : Compiler -> res Compiler) : Prop :=
  forall c c', P c -> step c = Ok c' -> P c'.

Lemma same_tables_refl c : same_tables c c.
Proof. repeat split. Qed.

Lemma keeps_emit op arg c : P c -> P (emit_ op arg c).
Proof. apply P_tables. repeat split. Qed.

Lemma keeps_loopStack l c : P c -> P (set_loopStack c l).
Proof. apply P_tables. repeat split. Qed.

Lemma keeps_changeOperand c pos arg c' :
  P c -> changeOperand c pos arg = Ok c' -> P c'.
Proof.
  unfold changeOperand. intros HP H.
  destruct (lookupZ (instructions c) pos); [|discriminate].
  injection H as <-. revert HP. apply P_tables. repeat split.
Qed.

Lemma keeps_patchJumps js : keeps (patchJumps js).
Proof.
  induction js as [|p js IH]; intros c c' HP H; simpl in H.
  - injection H as <-. exact HP.
  - destruct (changeOperand c p _) as [c1| | |] eqn:H1; simpl in H; try discriminate.
    eapply IH; [|exact H]. eapply keeps_changeOperand; eauto.
Qed.

Lemma keeps_emitConst obj : atom obj = true -> keeps (emitConst format_g obj).
Proof.
  intros Ha c c' HP H. unfold emitConst in H.
  destruct (addConstant format_g c obj) as [r| | |] eqn:H1; simpl in H; try discriminate.
  injection H as <-. apply keeps_emit. eapply P_atom; eauto.
Qed.

Lemma keeps_compileName id c : P c -> P (compileName id c).
Proof.
  intros HP. unfold compileName.
  destruct (scopeDepth c =? 0).
  - pose proof (P_name c id HP). destruct (addName c id). now apply keeps_emit.
  - destruct (varnameMap c !! id).
    + pose proof (P_var c id HP). destruct (addVarname c id). now apply keeps_emit.
    + pose proof (P_name c id HP). destruct (addName c id). now apply keeps_emit.
Qed.

Lemma keeps_storeTarget id c : P c -> P (storeTarget id c).
Proof.
  intros HP. unfold storeTarget.
  destruct (scopeDepth c =? 0).
  - pose proof (P_name c id HP). destruct (addName c id). now apply keeps_emit.
  - pose proof (P_var c id HP). destruct (addVarname c id). now apply keeps_emit.
Qed.

Lemma keeps_seqM steps : Forall keeps steps -> keeps (seqM steps).
Proof.
  intros HF. induction HF as [|s steps Hs HF IH]; intros c c' HP H; simpl in H.
  - injection H as <-. exact HP.
  - destruct (s c) as [c1| | |] eqn:H1; simpl in H; try discriminate.
    eapply IH; [|exact H]. eapply Hs; eauto.
Qed.

Lemma keeps_boolOpLoop jump rest : Forall keeps rest ->
  forall js c r, P c -> boolOpLoop jump rest js c = Ok r -> P r.2.
Proof.
  intros HF. induction HF as [|s rest Hs HF IH]; intros js c r HP H; simpl in H.
  - injection H as <-. exact HP.
  - destruct (s _) as [c4| | |] eqn:H4; simpl in H; try discriminate.
    eapply IH; [|exact H]. eapply Hs; [|exact H4].
    eapply P_tables; [|exact HP]. repeat split.
Qed.

Lemma keeps_compareLoop ops : forall rights, Forall keeps rights ->
  keeps (compareLoop ops rights).
Proof.
  induction ops as [|op ops IH]; intros rights HF c c' HP H; simpl in H.
  - injection H as <-. exact HP.
  - destruct HF as [|r rights Hr HF]; [discriminate|].
    destruct (r c) as [c1| | |] eqn:H1; simpl in H; try discriminate.
    destruct (compareOpcode op); [|discriminate].
    eapply IH; [exact HF| |exact H]. apply keeps_emit. eapply Hr; eauto.
Qed.

Lemma keeps_dictLoop keys : Forall keeps keys -> forall values, Forall keeps values ->
  keeps (dictLoop keys values).
Proof.
  intros HK. induction HK as [|k keys Hk HK IH]; intros values HV c c' HP H; simpl in H.
  - injection H as <-. exact HP.
  - destruct (k c) as [c1| | |] eqn:H1; simpl in H; try discriminate.
    destruct HV as [|v values Hv HV]; [discriminate|].
    destruct (v c1) as [c2| | |] eqn:H2; simpl in H; try discriminate.
    eapply IH; [exact HV| |exact H]. eapply Hv; [|exact H2]. eapply Hk; eauto.
Qed.

Lemma keeps_printLoop values : Forall keeps values -> keeps (printLoop format_g values).
Proof.
  intros HF. induction HF as [|v values Hv HF IH]; intros c c' HP H; simpl in H.
  - injection H as <-. exact HP.
  - destruct (v c) as [c1| | |] eqn:H1; simpl in H; try discriminate.
    pose proof (Hv _ _ HP H1) as HP1.
    destruct values as [|v2 values].
    + injection H as <-. now apply keeps_emit.
    + destruct (emitConst _ _ _) as [c3| | |] eqn:H3; simpl in H; try discriminate.
      eapply IH; [|exact H]. apply keeps_emit.
      eapply (keeps_emitConst (PyString " ")); [reflexivity| |exact H3].
      now apply keeps_emit.
Qed.

Lemma compileExpr_keeps e : keeps (compileExpr format_g e).
Proof.
  induction e as [l op r IHl IHr | op e IHe | op vs IHvs | l ops rs IHl IHrs
                 | fn args IHfn IHargs | v s IHv IHs | id | n | s | v | elts IHelts
                 | ks vs IHks IHvs] using Expr_induction;
    intros c c' HP H; [simpl in H | simpl in H | | simpl in H ..].
  - destruct (compileExpr format_g l c) as [c1| | |] eqn:H1; simpl in H; try discriminate.
    destruct (compileExpr format_g r c1) as [c2| | |] eqn:H2; simpl in H; try discriminate.
    destruct (binaryOpcode op); [|discriminate]. injection H as <-.
    apply keeps_emit. eauto.
  - destruct (compileExpr format_g e c) as [c1| | |] eqn:H1; simpl in H; try discriminate.
    destruct (unaryOpcode op); [|discriminate]. injection H as <-.
    apply keeps_emit. eauto.
  - destruct vs as [|first [|second rest]]; try discriminate.
    inversion_clear IHvs as [|? ? Hfirst Hrest].
    rewrite compileExpr_BoolOp in H.
    destruct (compileExpr format_g first c) as [c1| | |] eqn:H1; cbn [bind] in H;
      try discriminate.
    match type of H with
    | bind ?m _ = _ =>
        destruct m as [[js c2]| | |] eqn:H2; cbn [bind fst snd] in H; try discriminate
    end.
    eapply keeps_patchJumps; [|exact H].
    assert (HF : Forall keeps (List.map (compileExpr format_g) (second :: rest)))
      by (apply Forall_map; exact Hrest).
    apply (keeps_boolOpLoop _ _ HF _ _ _ (Hfirst _ _ HP H1) H2).
  - destruct (compileExpr format_g l c) as [c1| | |] eqn:H1; simpl in H; try discriminate.
    eapply keeps_compareLoop; [|eapply IHl; eauto|exact H].
    apply Forall_map. exact IHrs.
  - destruct (compileExpr format_g fn c) as [c1| | |] eqn:H1; simpl in H; try discriminate.
    destruct (seqM _ c1) as [c2| | |] eqn:H2; simpl in H; try discriminate.
    injection H as <-. apply keeps_emit.
    eapply keeps_seqM; [|eapply IHfn; eauto|exact H2].
    apply Forall_map. exact IHargs.
  - destruct (compileExpr format_g v c) as [c1| | |] eqn:H1; simpl in H; try discriminate.
    destruct (compileExpr format_g s c1) as [c2| | |] eqn:H2; simpl in H; try discriminate.
    injection H as <-. apply keeps_emit. eauto.
  - injection H as <-. now apply keeps_compileName.
  - eapply keeps_emitConst; [apply atom_ToPyObject| |]; eauto.
  - eapply (keeps_emitConst (PyString s)); [reflexivity| |]; eauto.
  - eapply keeps_emitConst; [apply atom_ToPyObject| |]; eauto.
  - destruct (seqM _ c) as [c1| | |] eqn:H1; simpl in H; try discriminate.
    injection H as <-. apply keeps_emit.
    eapply keeps_seqM; [|exact HP|exact H1]. apply Forall_map. exact IHelts.
  - destruct (dictLoop _ _ c) as [c1| | |] eqn:H1; simpl in H; try discriminate.
    injection H as <-. apply keeps_emit.
    eapply keeps_dictLoop; [| |exact HP|exact H1]; apply Forall_map; assumption.
Qed.

Lemma keeps_fold_addVarname args : forall c,
  P c -> P (fold_left (fun k arg => (addVarname k arg).2) args c).
Proof.
  induction args as [|a args IH]; intros c HP; simpl; [exact HP|].
  apply IH, P_var, HP.
Qed.

Lemma compileStmt_keeps s : keeps (compileStmt format_g s).
Proof.
  induction s as [t v | t op v | e | vs | t body orelse IHbody IHorelse | t body IHbody
                 | t it body IHbody | name args body line IHbody | v |] using Stmt_induction;
    intros c c' HP H; simpl in H.
  - destruct (compileExpr format_g v c) as [c1| | |] eqn:H1; simpl in H; try discriminate.
    pose proof (compileExpr_keeps _ _ _ HP H1) as HP1.
    destruct t; try discriminate.
    + destruct (compileExpr format_g t1 c1) as [c2| | |] eqn:H2; simpl in H; try discriminate.
      destruct (compileExpr format_g t2 c2) as [c3| | |] eqn:H3; simpl in H; try discriminate.
      injection H as <-. apply keeps_emit.
      eapply compileExpr_keeps; [|exact H3]. eapply compileExpr_keeps; eauto.
    + injection H as <-. now apply keeps_storeTarget.
  - destruct t; try discriminate.
    match type of H with
    | bind (compileExpr format_g v ?c1) _ = _ =>
        assert (Hload : P c1);
        [|destruct (compileExpr format_g v c1) as [c2| | |] eqn:H2; simpl in H;
          try discriminate]
    end.
    { destruct (scopeDepth c =? 0).
      - pose proof (P_name c Id HP). destruct (addName c Id). now apply keeps_emit.
      - pose proof (P_var c Id HP). destruct (addVarname c Id). now apply keeps_emit. }
    pose proof (compileExpr_keeps _ _ _ Hload H2) as HP2.
    destruct (String.eqb op "+="); [|destruct (String.eqb op "-="); [|discriminate]];
      injection H as <-; apply keeps_storeTarget, keeps_emit, HP2.
  - destruct (compileExpr format_g e c) as [c1| | |] eqn:H1; simpl in H; try discriminate.
    injection H as <-. apply keeps_emit. eapply compileExpr_keeps; eauto.
  - destruct (printLoop _ _ c) as [c1| | |] eqn:H1; simpl in H; try discriminate.
    injection H as <-. apply keeps_emit.
    eapply keeps_printLoop; [|exact HP|exact H1].
    apply Forall_map, Forall_forall. intros e _. apply compileExpr_keeps.
  - destruct (compileExpr format_g t c) as [c1| | |] eqn:H1; simpl in H; try discriminate.
    pose proof (compileExpr_keeps _ _ _ HP H1) as HP1.
    destruct (seqM _ _) as [c3| | |] eqn:H3 in H; simpl in H; try discriminate.
    assert (HP3 : P c3).
    { eapply keeps_seqM; [|apply (keeps_emit OpPopJumpIfFalse 0), HP1|exact H3].
      apply Forall_map. exact IHbody. }
    destruct orelse as [|o orelse].
    + eapply keeps_changeOperand; eauto.
    + cbn [bind emit fst snd] in H.
      destruct (changeOperand _ _ _) as [c5| | |] eqn:H5 in H; cbn [bind] in H;
        try discriminate.
      destruct (seqM _ c5) as [c6| | |] eqn:H6 in H; cbn [bind] in H; try discriminate.
      eapply keeps_changeOperand; [|exact H].
      eapply keeps_seqM; [| |exact H6].
      * apply (proj2 (Forall_map _ _ (o :: orelse))). exact IHorelse.
      * eapply keeps_changeOperand; [|exact H5]. apply (keeps_emit OpJumpForward 0), HP3.
  - destruct (compileExpr format_g t _) as [c1| | |] eqn:H1 in H; simpl in H;
      try discriminate.
    destruct (seqM _ _) as [c3| | |] eqn:H3 in H; simpl in H; try discriminate.
    destruct (changeOperand _ _ _) as [c5| | |] eqn:H5 in H; simpl in H; try discriminate.
    injection H as <-. apply keeps_loopStack.
    eapply keeps_changeOperand; [|exact H5].
    apply keeps_emit.
    eapply keeps_seqM; [apply Forall_map; exact IHbody| |exact H3].
    apply (keeps_emit OpPopJumpIfFalse 0).
    eapply compileExpr_keeps; [|exact H1]. now apply keeps_loopStack.
  - destruct (compileExpr format_g it c) as [c1| | |] eqn:H1; simpl in H; try discriminate.
    pose proof (compileExpr_keeps _ _ _ HP H1) as HP1.
    destruct t; try discriminate.
    destruct (seqM _ _) as [c6| | |] eqn:H6 in H; simpl in H; try discriminate.
    destruct (changeOperand _ _ _) as [c8| | |] eqn:H8 in H; simpl in H; try discriminate.
    injection H as <-. apply keeps_loopStack.
    eapply keeps_changeOperand; [|exact H8]. apply keeps_emit.
    eapply keeps_seqM; [apply Forall_map; exact IHbody| |exact H6].
    apply keeps_storeTarget. eapply P_tables; [|exact HP1]. repeat split.
  - destruct (seqM _ _) as [f1| | |] eqn:H1 in H; simpl in H; try discriminate.
    destruct (emitConst _ _ f1) as [f2| | |] eqn:H2; simpl in H; try discriminate.
    destruct (addConstant _ _ _) as [r| | |] eqn:H3 in H; simpl in H; try discriminate.
    assert (HPf : P (emit_ OpReturnValue 0 f2)).
    { apply keeps_emit. eapply (keeps_emitConst PyNone); [reflexivity| |exact H2].
      eapply keeps_seqM; [apply Forall_map; exact IHbody| |exact H1].
      apply keeps_fold_addVarname, P_new. }
    assert (HPr : P r.2).
    { eapply P_func; [|exact HPf|exact H3]. eapply P_tables; [|exact HP]. repeat split. }
    pose proof (P_name (emit_ OpLoadConst r.1 r.2) name (keeps_emit _ _ _ HPr)) as HPn.
    destruct (addName _ name) as [idx c2]. injection H as <-. now apply keeps_emit.
  - destruct v as [e|]; simpl in H.
    + destruct (compileExpr format_g e c) as [c1| | |] eqn:H1; simpl in H; try discriminate.
      injection H as <-. apply keeps_emit. eapply compileExpr_keeps; eauto.
    + destruct (emitConst _ _ c) as [c1| | |] eqn:H1; simpl in H; try discriminate.
      injection H as <-. apply keeps_emit.
      eapply (keeps_emitConst PyNone); [reflexivity| |exact H1]. exact HP.
  - injection H as <-. exact HP.
Qed.

(** The code object of a module is read off a compiler state that has
    the property. *)
Lemma compileModuleBody_keeps body : forall c code,
  P c -> compileModuleBody format_g body c = Ok code ->
  exists c', P c' /\ code = moduleCode c'.
Proof.
  induction body as [|stmt rest IH]; intros c code HP H.
  - simpl in H.
    destruct (emitConst _ _ c) as [c1| | |] eqn:H1; simpl in H; try discriminate.
    injection H as <-. eexists. split; [|reflexivity]. apply keeps_emit.
    eapply (keeps_emitConst PyNone); [reflexivity| |exact H1]. exact HP.
  - assert (Hstep : compileModuleBody format_g (stmt :: rest) c =
                    (c1 <- compileStmt format_g stmt c ;; compileModuleBody format_g rest c1) \/
                    exists e, stmt = ast.ExprStmt e /\ rest = [] /\
                      compileModuleBody format_g (stmt :: rest) c =
                      (c1 <- compileExpr format_g e c ;;
                       Ok (moduleCode (emit_ OpReturnValue 0 c1)))).
    { destruct stmt; try (left; reflexivity).
      destruct rest; [right; eexists; repeat split | left; reflexivity]. }
    destruct Hstep as [Hstep | (e & -> & -> & Hstep)]; rewrite Hstep in H; clear Hstep.
    + destruct (compileStmt format_g stmt c) as [c1| | |] eqn:H1; simpl in H;
        try discriminate.
      eapply IH; [|exact H]. eapply compileStmt_keeps; eauto.
    + destruct (compileExpr format_g e c) as [c1| | |] eqn:H1; simpl in H; try discriminate.
      injection H as <-. eexists. split; [|reflexivity]. apply keeps_emit.
      eapply compileExpr_keeps; eauto.
Qed.

Lemma Compile_keeps module code :
  Compile format_g module = Ok code -> exists c', P c' /\ code = moduleCode c'.
Proof.
  unfold Compile, compileModule. apply compileModuleBody_keeps.
  apply (P_new 0%N 0).
Qed.

End TableInvariant.

Set Default Proof Using "Type".

(** *** The constants of compiled code *)

Definition scalar_pool (c : Compiler) : Prop := forallb scalar (consts c) = true.

Lemma addConstant_consts format_g c obj r :
  addConstant format_g c obj = Ok r ->
  (r.2 = c /\ exists key, constMap c !! key = Some r.1) \/
  (consts r.2 = consts c ++ [obj] /\ r.1 = len (consts c) /\
   names r.2 = names c /\ nameMap r.2 = nameMap c /\
   varnames r.2 = varnames c /\ varnameMap r.2 = varnameMap c /\
   instructions r.2 = instructions c).
Proof.
  unfold addConstant.
  destruct (Object_String format_g 0 [] obj) as [s| | |]; simpl; try discriminate.
  destruct (constMap c !! _) as [idx|] eqn:Hk; intros H; injection H as <-; simpl.
  - left. eauto.
  - right. repeat split.
Qed.

Lemma addName_consts c name : consts (addName c name).2 = consts c.
Proof. unfold addName. destruct (nameMap c !! name); reflexivity. Qed.

Lemma addVarname_consts c name : consts (addVarname c name).2 = consts c.
Proof. unfold addVarname. destruct (varnameMap c !! name); reflexivity. Qed.

Lemma atom_scalar o : atom o = true -> scalar o = true.
Proof. destruct o; simpl; congruence. Qed.

(** The constant pool of a compiled module holds numbers, strings,
    booleans, None and functions whose code objects are of the same
    kind: a list or a dictionary is built at run time. *)
Lemma Compile_scalar_consts format_g module code :
  Compile format_g module = Ok code -> scalar_consts code = true.
Proof.
  intros H.
  destruct (Compile_keeps format_g scalar_pool) with (module := module) (code := code)
    as (c' & HP & ->); [..|exact H|exact HP]; unfold scalar_pool.
  - intros c c' (Hc & _) HP. rewrite Hc. exact HP.
  - reflexivity.
  - intros c name HP. rewrite addName_consts. exact HP.
  - intros c name HP. rewrite addVarname_consts. exact HP.
  - intros c obj r Ha HP Hadd.
    apply addConstant_consts in Hadd as [[-> _] | (-> & _)]; [exact HP|].
    rewrite forallb_app, HP. simpl. rewrite (atom_scalar _ Ha). reflexivity.
  - intros c f argc file name line r HP HPf Hadd.
    apply addConstant_consts in Hadd as [[-> _] | (-> & _)]; [exact HP|].
    rewrite forallb_app, HP. simpl. rewrite HPf. reflexivity.
Qed.



(** *** Defining a function twice *)

(** What [compileFuncDefStmt] does to the compiler of the enclosing
    scope, given the code object [codeObj] built for the body. *)
Lemma compileStmt_FuncDef format_g name args body line c c' :
  compileStmt format_g (ast.FuncDef name args body line) c = Ok c' ->
  exists codeObj r,
    addConstant format_g (set_nextAddr c (Addr codeObj + 1)%N)
                (PyFunction codeObj name) = Ok r /\
    c' = emit_ OpStoreName (addName (emit_ OpLoadConst r.1 r.2) name).1
               (addName (emit_ OpLoadConst r.1 r.2) name).2.
Proof.
  intros H. simpl in H.
  destruct (seqM _ _) as [f1| | |] eqn:H1 in H; simpl in H; try discriminate.
  destruct (emitConst _ _ f1) as [f2| | |] eqn:H2; simpl in H; try discriminate.
  destruct (addConstant _ _ _) as [r| | |] eqn:H3 in H; simpl in H; try discriminate.
  eexists _, r. split; [exact H3|].
  destruct (addName _ name) as [idx c2]. injection H as <-. reflexivity.
Qed.

Lemma addConstant_function format_g c codeObj name r :
  addConstant format_g c (PyFunction codeObj name) = Ok r ->
  constMap r.2 !! ("*compiler.PyFunction:<function " +:+ name +:+ ">") = Some r.1 /\
  (forall idx, constMap c !! ("*compiler.PyFunction:<function " +:+ name +:+ ">") = Some idx ->
     r = (idx, c)).
Proof.
  unfold addConstant. simpl.
  change ("*compiler.PyFunction" +:+ ":" +:+ "<function " +:+ name +:+ ">")
    with ("*compiler.PyFunction:<function " +:+ name +:+ ">").
  destruct (constMap c !! _) as [idx|] eqn:Hk; intros H; injection H as <-; simpl.
  - split; [exact Hk|]. intros idx' [= ->]. reflexivity.
  - split; [apply lookup_insert_eq | discriminate].
Qed.

Lemma addName_found c name idx :
  nameMap c !! name = Some idx -> addName c name = (idx, c).
Proof. unfold addName. intros ->. reflexivity. Qed.

Lemma addName_lookup c name :
  nameMap (addName c name).2 !! name = Some (addName c name).1.
Proof.
  unfold addName. destruct (nameMap c !! name) as [idx|] eqn:Hn; simpl;
    [exact Hn | apply lookup_insert_eq].
Qed.

(** X3.  Constants are pooled by type and rendering, and a function
    renders as its name alone.  So when a scope defines a function and
    then defines a function of the same name again, the second
    definition adds no constant: its two instructions load the constant
    of the first definition and store it under the name, whatever the
    parameters and the body of the second definition are. *)
Theorem redefined_function_shares_constant format_g name c
    args1 body1 line1 c1 args2 body2 line2 c2 :
  compileStmt format_g (ast.FuncDef name args1 body1 line1) c = Ok c1 ->
  compileStmt format_g (ast.FuncDef name args2 body2 line2) c1 = Ok c2 ->
  exists idx nidx,
    instructions c1 = instructions c ++ [ins OpLoadConst idx; ins OpStoreName nidx] /\
    instructions c2 = instructions c1 ++ [ins OpLoadConst idx; ins OpStoreName nidx] /\
    consts c2 = consts c1.
Proof.
  intros H1 H2.
  apply compileStmt_FuncDef in H1 as (code1 & r1 & Ha1 & ->).
  apply compileStmt_FuncDef in H2 as (code2 & r2 & Ha2 & ->).
  destruct (addConstant_function _ _ _ _ _ Ha1) as (Hk1 & _).
  pose proof (addConstant_consts _ _ _ _ Ha1) as Hi1.
  assert (Hins1 : instructions r1.2 = instructions c)
    by (destruct Hi1 as [[-> _] | (_ & _ & _ & _ & _ & _ & ->)]; reflexivity).
  set (k1 := emit_ OpLoadConst r1.1 r1.2) in *.
  assert (Hmap : constMap (emit_ OpStoreName (addName k1 name).1 (addName k1 name).2) =
                 constMap r1.2).
  { unfold addName. destruct (nameMap k1 !! name); reflexivity. }
  destruct (addConstant_function _ _ _ _ _ Ha2) as (_ & Hk2).
  specialize (Hk2 r1.1). rewrite <- Hmap in Hk1. specialize (Hk2 Hk1). subst r2.
  cbn [fst snd].
  set (c1 := emit_ OpStoreName (addName k1 name).1 (addName k1 name).2) in *.
  assert (Hn : addName (emit_ OpLoadConst r1.1 (set_nextAddr c1 (Addr code2 + 1)%N)) name =
               ((addName k1 name).1,
                emit_ OpLoadConst r1.1 (set_nextAddr c1 (Addr code2 + 1)%N))).
  { apply addName_found. exact (addName_lookup k1 name). }
  rewrite Hn. cbn [fst snd].
  exists r1.1, (addName k1 name).1.
  split; [|split].
  - unfold c1, k1, addName. simpl.
    destruct (nameMap r1.2 !! name); simpl; rewrite Hins1, <- app_assoc; reflexivity.
  - unfold emit_, emit. simpl. rewrite <- app_assoc. reflexivity.
  - reflexivity.
Qed.

Lemma redefined_function_shares_constant_witness :
  exists idx nidx,
    instructions
      (mkCompiler
         [ins OpLoadConst 0; ins OpStoreName 0] 
         [PyFunction (mkCodeObject 0 [ins OpLoadConst 0; ins OpReturnValue 0;
                                      ins OpLoadConst 1; ins OpReturnValue 0]
                        [PyInt 1; PyNone] [] [] 0 "<function>" "f" 1) "f"]
         ["f"] [] (<["*compiler.PyFunction:<function f>" := 0]> ∅)
         (<["f" := 0]> ∅) ∅ [] 0 1) =
      instructions (NewCompiler 0) ++ [ins OpLoadConst idx; ins OpStoreName nidx] /\
    instructions
      (mkCompiler
         [ins OpLoadConst 0; ins OpStoreName 0; ins OpLoadConst 0; ins OpStoreName 0]
         [PyFunction (mkCodeObject 0 [ins OpLoadConst 0; ins OpReturnValue 0;
                                      ins OpLoadConst 1; ins OpReturnValue 0]
                        [PyInt 1; PyNone] [] [] 0 "<function>" "f" 1) "f"]
         ["f"] [] (<["*compiler.PyFunction:<function f>" := 0]> ∅)
         (<["f" := 0]> ∅) ∅ [] 0 2) =
      instructions
        (mkCompiler
           [ins OpLoadConst 0; ins OpStoreName 0] 
           [PyFunction (mkCodeObject 0 [ins OpLoadConst 0; ins OpReturnValue 0;
                                        ins OpLoadConst 1; ins OpReturnValue 0]
                          [PyInt 1; PyNone] [] [] 0 "<function>" "f" 1) "f"]
           ["f"] [] (<["*compiler.PyFunction:<function f>" := 0]> ∅)
           (<["f" := 0]> ∅) ∅ [] 0 1)
      ++ [ins OpLoadConst idx; ins OpStoreName nidx] /\
    consts
      (mkCompiler
         [ins OpLoadConst 0; ins OpStoreName 0; ins OpLoadConst 0; ins OpStoreName 0]
         [PyFunction (mkCodeObject 0 [ins OpLoadConst 0; ins OpReturnValue 0;
                                      ins OpLoadConst 1; ins OpReturnValue 0]
                        [PyInt 1; PyNone] [] [] 0 "<function>" "f" 1) "f"]
         ["f"] [] (<["*compiler.PyFunction:<function f>" := 0]> ∅)
         (<["f" := 0]> ∅) ∅ [] 0 2) =
    consts
      (mkCompiler
         [ins OpLoadConst 0; ins OpStoreName 0] 
         [PyFunction (mkCodeObject 0 [ins OpLoadConst 0; ins OpReturnValue 0;
                                      ins OpLoadConst 1; ins OpReturnValue 0]
                        [PyInt 1; PyNone] [] [] 0 "<function>" "f" 1) "f"]
         ["f"] [] (<["*compiler.PyFunction:<function f>" := 0]> ∅)
         (<["f" := 0]> ∅) ∅ [] 0 1).
Proof.
  refine (redefined_function_shares_constant no_float_format "f" (NewCompiler 0)
            [] [ast.ReturnStmt (Some (ast.Num (ast.GoInt 1)))] 1 _
            [] [ast.ReturnStmt (Some (ast.Num (ast.GoInt 2)))] 2 _ _ _).
  - vm_compute. reflexivity.
  - vm_compute. reflexivity.
Defined.

(** *** The name table and the constant pool hold no entry twice *)

Lemma table_sync_inj m l i j id :
  table_sync m l -> l !! i = Some id -> l !! j = Some id -> i = j.
Proof.
  intros Hs Hi Hj.
  assert (Hmi : m !! id = Some (Z.of_nat i)) by (apply Hs; rewrite Nat2Z.id; split; [lia|auto]).
  assert (Hmj : m !! id = Some (Z.of_nat j)) by (apply Hs; rewrite Nat2Z.id; split; [lia|auto]).
  rewrite Hmi in Hmj. injection Hmj. lia.
Qed.

Lemma table_sync_NoDup m l : table_sync m l -> NoDup l.
Proof.
  intros Hs. apply NoDup_alt. intros i j id. apply (table_sync_inj m l i j id Hs).
Qed.

Lemma names_sync_addName c name : names_sync c -> names_sync (addName c name).2.
Proof.
  unfold addName. destruct (nameMap c !! name) as [i|] eqn:Hn; simpl; [auto|].
  unfold names_sync. simpl. apply table_sync_add. exact Hn.
Qed.

Lemma addConstant_names format_g c obj r :
  addConstant format_g c obj = Ok r ->
  names r.2 = names c /\ nameMap r.2 = nameMap c /\
  varnames r.2 = varnames c /\ varnameMap r.2 = varnameMap c.
Proof.
  intros H. apply addConstant_consts in H as [[-> _] | (_ & _ & -> & -> & -> & -> & _)];
    repeat split.
Qed.

(** X4.  A name has one place in the name table of a compiled module
    (and a local name one place in the table of local names), so the
    operand of [LOAD_NAME], [STORE_NAME] and [LOAD_GLOBAL] determines
    the name and the name determines the operand. *)
Theorem Compile_names_distinct format_g module code :
  Compile format_g module = Ok code ->
  NoDup (Names code) /\ NoDup (Varnames code).
Proof.
  intros H.
  destruct (Compile_keeps format_g (fun c => names_sync c /\ vars_sync c))
    with (module := module) (code := code) as (c' & [HN HV] & ->); [..|exact H|].
  - intros c c' (_ & _ & Hn & Hnm & Hv & Hvm) [HN HV].
    unfold names_sync, vars_sync. rewrite Hn, Hnm, Hv, Hvm. auto.
  - intros a d. split; apply table_sync_empty.
  - intros c name [HN HV]. split; [apply names_sync_addName, HN|].
    unfold vars_sync, addName. destruct (nameMap c !! name); exact HV.
  - intros c name [HN HV]. split; [|apply vars_sync_addVarname, HV].
    unfold names_sync, addVarname. destruct (varnameMap c !! name); exact HN.
  - intros c obj r _ [HN HV] Hadd.
    apply addConstant_names in Hadd as (Hn & Hnm & Hv & Hvm).
    unfold names_sync, vars_sync. rewrite Hn, Hnm, Hv, Hvm. auto.
  - intros c f argc file name line r [HN HV] _ Hadd.
    apply addConstant_names in Hadd as (Hn & Hnm & Hv & Hvm).
    unfold names_sync, vars_sync. rewrite Hn, Hnm, Hv, Hvm. auto.
  - split; [exact (table_sync_NoDup _ _ HN) | exact (table_sync_NoDup _ _ HV)].
Qed.

Lemma Compile_names_distinct_witness :
  NoDup (Names (mkCodeObject 0
                  [ins OpLoadConst 0; ins OpStoreName 0; ins OpLoadName 0;
                   ins OpLoadName 0; ins OpBinaryAdd 0; ins OpStoreName 1;
                   ins OpLoadName 1; ins OpReturnValue 0]
                  [PyInt 1] ["x"; "y"] [] 0 "<module>" "<module>" 1)) /\
  NoDup (Varnames (mkCodeObject 0
                  [ins OpLoadConst 0; ins OpStoreName 0; ins OpLoadName 0;
                   ins OpLoadName 0; ins OpBinaryAdd 0; ins OpStoreName 1;
                   ins OpLoadName 1; ins OpReturnValue 0]
                  [PyInt 1] ["x"; "y"] [] 0 "<module>" "<module>" 1)).
Proof.
  refine (Compile_names_distinct no_float_format
            (ast.mkModule
               [ast.AssignStmt (ast.Name "x") (ast.Num (ast.GoInt 1));
                ast.AssignStmt (ast.Name "y")
                  (ast.BinaryOp (ast.Name "x") "+" (ast.Name "x"));
                ast.ExprStmt (ast.Name "y")]) _ _).
  vm_compute. reflexivity.
Defined.

(** The key under which [addConstant] pools a constant:
    [fmt.Sprintf("%T:%s", obj, obj.String())]. *)
Definition const_key (format_g : float -> string) (obj : Object) : res string :=
  s <- Object_String format_g 0 [] obj ;; Ok (Object_GoType obj +:+ ":" +:+ s).

Definition pool_sync (format_g : float -> string) (c : Compiler) : Prop :=
  exists ks, Forall2 (fun o k => const_key format_g o = Ok k) (consts c) ks /\
             table_sync (constMap c) ks.

Lemma pool_sync_addConstant format_g c obj r :
  pool_sync format_g c -> addConstant format_g c obj = Ok r -> pool_sync format_g r.2.
Proof.
  intros (ks & HF & Hs). unfold addConstant.
  destruct (Object_String format_g 0 [] obj) as [s| | |] eqn:Hstr; simpl; try discriminate.
  destruct (constMap c !! _) as [idx|] eqn:Hk; intros H; injection H as <-; simpl.
  - exists ks. auto.
  - exists (ks ++ [Object_GoType obj +:+ ":" +:+ s]). simpl. split.
    + apply Forall2_app; [exact HF|]. constructor; [|constructor].
      unfold const_key. rewrite Hstr. reflexivity.
    + replace (len (consts c)) with (len ks)
        by (unfold len; rewrite (Forall2_length _ _ _ HF); reflexivity).
      apply table_sync_add; assumption.
Qed.

(** X5.  No two constants in the pool of a compiled module have the
    same key, that is the same Go type and the same rendering: a
    literal that occurs several times is stored once. *)
Theorem Compile_consts_distinct format_g module code i j oi oj :
  Compile format_g module = Ok code ->
  Consts code !! i = Some oi -> Consts code !! j = Some oj ->
  const_key format_g oi = const_key format_g oj ->
  i = j.
Proof.
  intros H Hi Hj Hkey.
  destruct (Compile_keeps format_g (pool_sync format_g))
    with (module := module) (code := code) as (c' & (ks & HF & Hs) & ->); [..|exact H|].
  - intros c c' (Hc & Hm & _) (ks & HF & Hs). exists ks. rewrite Hc, Hm. auto.
  - intros a d. exists []. split; [constructor | apply table_sync_empty].
  - intros c name HP. unfold pool_sync, addName. destruct (nameMap c !! name); exact HP.
  - intros c name HP. unfold pool_sync, addVarname. destruct (varnameMap c !! name); exact HP.
  - intros c obj r _. apply pool_sync_addConstant.
  - intros c f argc file name line r HP _. apply pool_sync_addConstant. exact HP.
  - simpl in Hi, Hj.
    destruct (Forall2_lookup_l _ _ _ _ _ HF Hi) as (ki & Hki & Hoi).
    destruct (Forall2_lookup_l _ _ _ _ _ HF Hj) as (kj & Hkj & Hoj).
    rewrite Hoi, Hoj in Hkey. injection Hkey as ->.
    exact (table_sync_inj _ _ _ _ _ Hs Hki Hkj).
Qed.

Lemma Compile_consts_distinct_witness :
  (1 = 1)%nat.
Proof.
  refine (Compile_consts_distinct no_float_format
            (ast.mkModule
               [ast.PrintStmt [ast.Num (ast.GoInt 1); ast.Str "a"; ast.Num (ast.GoInt 1)]])
            (mkCodeObject 0
               [ins OpLoadConst 0; ins OpPrintExpr 0; ins OpLoadConst 1; ins OpPrintExpr 0;
                ins OpLoadConst 2; ins OpPrintExpr 0; ins OpLoadConst 1; ins OpPrintExpr 0;
                ins OpLoadConst 0; ins OpPrintExpr 0; ins OpPrintNewline 0;
                ins OpLoadConst 3; ins OpReturnValue 0]
               [PyInt 1; PyString " "; PyString "a"; PyNone] [] [] 0
               "<module>" "<module>" 1)
            1 1 (PyString " ") (PyString " ") _ _ _ _).
  - vm_compute. reflexivity.
  - reflexivity.
  - reflexivity.
  - reflexivity.
Defined.

(** ** Dictionaries and lists in the store *)

(** The objects whose rendering does not read the store. *)
Definition stable (o : Object) : bool :=
  match o with
  | GoNil | PyList _ | PyDict _ => false
  | _ => true
  end.

Section Containers.

Variable format_g : float -> string.

(** [obj.String()] of such an object. *)
Definition render (o : Object) : string :=
  match Object_String format_g 0 [] o with
  | Ok s => s
  | _ => ""
  end.

Lemma stable_String n h o :
  stable o = true -> Object_String format_g n h o = Ok (render o).
Proof. destruct o, n; simpl; try discriminate; reflexivity. Qed.

(** X6.  A dictionary finds its entries by the rendering of the key.
    After [d[key] = value], looking up any key with the same rendering
    as [key] gives [value] (the integer 1, the float 1.0 and the string
    "1" name one entry), a key with another rendering finds what it
    found before, and the other cells of the store are untouched. *)
Theorem PyDict_Set_Get n (h : Heap) a d key value :
  stable key = true ->
  get_dict h a = Ok d ->
  exists h',
    PyDict_Set format_g n h a key value = Ok h' /\
    (forall key', stable key' = true ->
       PyDict_Get format_g n h' a key' =
       if decide (render key' = render key)
       then Ok (Some value)
       else PyDict_Get format_g n h a key') /\
    (forall b, b <> a -> h' !! b = h !! b) /\
    length h' = length h.
Proof.
  intros Hk Hd. unfold PyDict_Set. rewrite Hd. cbn [bind].
  rewrite (stable_String n h key Hk).
  cbn [bind]. eexists. split; [reflexivity|].
  assert (Ha : (a < length h)%nat).
  { unfold get_dict in Hd. destruct (h !! a) eqn:Hl; [|discriminate].
    eapply lookup_lt_Some; eauto. }
  split; [|split].
  - intros key' Hk'. unfold PyDict_Get, get_dict.
    rewrite list_lookup_insert_eq by exact Ha. cbn [bind fst].
    rewrite !(stable_String _ _ key' Hk'). fold (get_dict h a). rewrite Hd.
    cbn [bind]. destruct (decide (render key' = render key)) as [->|Hne].
    + rewrite lookup_insert_eq. reflexivity.
    + rewrite lookup_insert_ne by congruence. reflexivity.
  - intros b Hb. apply list_lookup_insert_ne. auto.
  - apply length_insert.
Qed.


(** What [d[1] = "one"] leaves is found under the string ["1"] too. *)
Example PyDict_key_rendering :
  (h' <- PyDict_Set format_g 0 [HDict ∅ []] 0 (PyInt 1) (PyString "one") ;;
   PyDict_Get format_g 0 h' 0 (PyString "1")) = Ok (Some (PyString "one")).
Proof. reflexivity. Qed.

(** [Keys] lists the keys of [Pairs], each once. *)
Definition dict_ok (p : gmap string Object) (ks : list string) : Prop :=
  NoDup ks /\ forall k, k ∈ ks <-> is_Some (p !! k).

Definition cell_ok (c : HeapObj) : Prop :=
  match c with
  | HList _ => True
  | HDict p ks => dict_ok p ks
  end.

Definition heap_ok (h : Heap) : Prop := Forall cell_ok h.

Lemma dict_ok_empty : dict_ok ∅ [].
Proof.
  split; [constructor|]. intros k. rewrite lookup_empty. split.
  - intros H. inversion H.
  - intros [x Hx]. discriminate.
Qed.

Lemma dict_ok_insert p ks k v :
  dict_ok p ks ->
  dict_ok (<[k := v]> p) (match p !! k with Some _ => ks | None => ks ++ [k] end).
Proof.
  intros [Hnd Hin]. destruct (p !! k) as [w|] eqn:Hk.
  - split; [exact Hnd|]. intros k'. rewrite Hin.
    destruct (decide (k' = k)) as [->|Hne].
    + rewrite lookup_insert_eq, Hk. split; eauto.
    + rewrite lookup_insert_ne by congruence. reflexivity.
  - split.
    + apply NoDup_app. split; [exact Hnd|]. split; [|apply NoDup_singleton].
      intros x Hx Hx'. apply list_elem_of_singleton in Hx' as ->.
      apply Hin in Hx as [? ?]. congruence.
    + intros k'. rewrite elem_of_app, list_elem_of_singleton, Hin.
      destruct (decide (k' = k)) as [->|Hne].
      * rewrite lookup_insert_eq. split; eauto.
      * rewrite lookup_insert_ne by congruence. split; [intros [H|H]; [exact H|congruence]|auto].
Qed.

Lemma dict_ok_size p ks : dict_ok p ks -> size p = length ks.
Proof.
  intros [Hnd Hin].
  rewrite <- (size_dom (D := gset string)).
  rewrite <- (size_list_to_set (C := gset string) ks) by exact Hnd.
  f_equal. apply set_eq. intros k. rewrite elem_of_dom, elem_of_list_to_set. symmetry. apply Hin.
Qed.

Lemma heap_ok_alloc h c : heap_ok h -> cell_ok c -> heap_ok (alloc h c).2.
Proof. intros Hh Hc. unfold alloc. simpl. apply Forall_app. split; [exact Hh|]. repeat constructor. exact Hc. Qed.

Lemma heap_ok_insert h a c : heap_ok h -> cell_ok c -> heap_ok (<[a := c]> h).
Proof. intros Hh Hc. apply Forall_insert; assumption. Qed.

Lemma heap_ok_get_dict h a d : heap_ok h -> get_dict h a = Ok d -> dict_ok d.1 d.2.
Proof.
  unfold get_dict. intros Hh H. destruct (h !! a) as [[|p ks]|] eqn:Hl; try discriminate.
  injection H as <-. exact (Forall_lookup_1 _ _ _ _ Hh Hl).
Qed.

Lemma PyDict_Set_ok n h a key value h' :
  heap_ok h -> PyDict_Set format_g n h a key value = Ok h' -> heap_ok h'.
Proof.
  unfold PyDict_Set. intros Hh H.
  destruct (get_dict h a) as [d| | |] eqn:Hd; cbn [bind] in H; try discriminate.
  destruct (Object_String format_g n h key) as [keyStr| | |]; cbn [bind] in H;
    try discriminate.
  injection H as <-. apply heap_ok_insert; [exact Hh|].
  apply dict_ok_insert. eapply heap_ok_get_dict; eauto.
Qed.

Lemma storeSubscript_ok n h c i v h' :
  heap_ok h -> storeSubscript format_g n h c i v = Ok h' -> heap_ok h'.
Proof.
  unfold storeSubscript. intros Hh H. destruct c; try discriminate.
  - destruct (get_list h ref) as [els| | |]; cbn [bind] in H; try discriminate.
    destruct (toGoInt i) as [idx| | |]; cbn [bind] in H; try discriminate.
    destruct ((idx <? 0) || (Z.of_nat (length els) <=? idx)); [discriminate|].
    injection H as <-. apply heap_ok_insert; [exact Hh | exact I].
  - eapply PyDict_Set_ok; eauto.
Qed.

Lemma call_builtin_ok n h fn args r :
  heap_ok h -> call_builtin format_g n h fn args = Ok r -> heap_ok r.2.
Proof.
  intros Hh H. destruct fn; unfold call_builtin in H.
  - destruct args as [|a [|a' args]]; try discriminate.
    destruct a; try discriminate; simpl in H.
    + injection H as <-. exact Hh.
    + destruct (get_list h ref); simpl in H; try discriminate. injection H as <-. exact Hh.
    + destruct (get_dict h ref); simpl in H; try discriminate. injection H as <-. exact Hh.
  - match type of H with bind ?m _ = _ => destruct m as [[[start stop] step]| | |] end;
      cbn [bind] in H; try discriminate.
    destruct (range_loop n (0 <? step) start stop step) as [els| | |]; cbn [bind] in H;
      try discriminate.
    injection H as <-. simpl. apply (heap_ok_alloc h (HList els) Hh I).
  - destruct args as [|a [|a' args]]; try discriminate.
    destruct (Object_Type a); simpl in H; try discriminate. injection H as <-. exact Hh.
  - destruct args as [|a [|a' args]]; try discriminate.
    destruct (toGoString format_g n h a); simpl in H; try discriminate.
    injection H as <-. exact Hh.
Qed.

Definition turn_vm (t : turn) : VM :=
  match t with Continue vm => vm | Return _ vm => vm end.

Ltac inv_bind H :=
  repeat first
    [ discriminate H
    | match type of H with
      | bind ?m _ = Ok _ => destruct m as [?| | |] eqn:?; cbn [bind] in H
      | (if ?b then _ else _) = Ok _ => destruct b eqn:?
      | match ?x with _ => _ end = Ok _ => destruct x eqn:?
      end ].

Lemma exec_heap_ok n ins f fs vm t :
  heap_ok (heap vm) -> exec format_g n ins f fs vm = Ok t -> heap_ok (heap (turn_vm t)).
Proof.
  intros Hh H. destruct ins as [op arg]. unfold exec in H. cbn [Op Arg] in H.
  destruct op; unfold binary, load_name, store_name, jump_if, resume in H;
    try (inv_bind H; injection H as <-; exact Hh).
  - (* BUILD_LIST *)
    destruct (arg <? 0); [discriminate|].
    destruct (pop_n _ _ f) as [[els f1]| | |]; cbn [bind fst snd] in H; try discriminate.
    unfold alloc in H.
    destruct (push _ f1) as [f2| | |]; cbn [bind] in H; try discriminate.
    injection H as <-. apply (heap_ok_alloc _ (HList els) Hh I).
  - (* BUILD_DICT *)
    unfold alloc in H.
    match type of H with
    | bind (?l _ _ _) _ = _ => set (loop := l) in H
    end.
    assert (Hloop : forall k h f0 r, heap_ok h -> loop k h f0 = Ok r -> heap_ok r.1).
    { induction k as [|k IH]; intros h f0 r Hok Hr.
      - injection Hr as <-. exact Hok.
      - cbn [loop] in Hr. fold loop in Hr.
        destruct (pop f0) as [[value f1]| | |]; cbn [bind fst snd] in Hr; try discriminate.
        destruct (pop f1) as [[key f2]| | |]; cbn [bind fst snd] in Hr; try discriminate.
        destruct (PyDict_Set _ _ _ _ _ _) as [h1| | |] eqn:Hset; cbn [bind] in Hr;
          try discriminate.
        eapply IH; [|exact Hr]. eapply PyDict_Set_ok; eauto. }
    destruct (loop _ _ f) as [[h1 f1]| | |] eqn:Hl; cbn [bind fst snd] in H;
      try discriminate.
    destruct (push _ f1) as [f2| | |]; cbn [bind] in H; try discriminate.
    injection H as <-. simpl.
    apply (Hloop _ _ _ _ (heap_ok_alloc _ (HDict ∅ []) Hh dict_ok_empty) Hl).
  - (* STORE_SUBSCR *)
    destruct (pop f) as [[i f1]| | |]; cbn [bind fst snd] in H; try discriminate.
    destruct (pop f1) as [[c f2]| | |]; cbn [bind fst snd] in H; try discriminate.
    destruct (pop f2) as [[v f3]| | |]; cbn [bind fst snd] in H; try discriminate.
    destruct (storeSubscript _ _ _ _ _ _) as [h'| | |] eqn:Hs; cbn [bind] in H;
      try discriminate.
    injection H as <-. simpl. eapply storeSubscript_ok; eauto.
  - (* CALL_FUNCTION *)
    destruct (arg <? 0); [discriminate|].
    destruct (pop_n _ _ f) as [[args f1]| | |]; cbn [bind fst snd] in H; try discriminate.
    destruct (pop f1) as [[fn f2]| | |]; cbn [bind fst snd] in H; try discriminate.
    destruct fn as [| | | | | | | |code name|name [native|]]; try discriminate.
    + destruct (negb _); [discriminate|]. unfold pushFrame in H.
      destruct (_ <? _)%nat; [|discriminate]. injection H as <-. exact Hh.
    + destruct (call_builtin _ _ _ _ _) as [r| | |] eqn:Hc; cbn [bind] in H;
        try discriminate.
      destruct (push _ f2) as [f3| | |]; cbn [bind] in H; try discriminate.
      injection H as <-. simpl. eapply call_builtin_ok; eauto.
  - (* GET_ITER *)
    destruct (pop f) as [[v f1]| | |]; cbn [bind fst snd] in H; try discriminate.
    destruct v; try discriminate.
    + unfold alloc in H.
      destruct (push _ f1) as [f2| | |]; cbn [bind] in H; try discriminate.
      injection H as <-. simpl. apply Forall_app. split; [exact Hh|]. repeat constructor.
    + destruct (push _ f1) as [f2| | |]; cbn [bind] in H; try discriminate.
      injection H as <-. exact Hh.
Qed.

Lemma run_loop_heap_ok n : forall vm,
  heap_ok (heap vm) -> heap_ok (heap (run_loop format_g n vm).2).
Proof.
  induction n as [|n IH]; intros vm Hh; [exact Hh|].
  cbn [run_loop].
  destruct (step format_g n vm) as [[vm'|v vm']| | |] eqn:Hs; try exact Hh.
  - apply IH. unfold step in Hs.
    destruct (frames vm) as [|f fs]; [discriminate|].
    destruct (_ <=? _); [injection Hs as <-; exact Hh|].
    destruct (lookupZ _ _) as [i|]; [|discriminate].
    apply (exec_heap_ok _ _ _ _ _ _ Hh Hs).
  - unfold step in Hs. simpl.
    destruct (frames vm) as [|f fs]; [injection Hs as _ <-; exact Hh|].
    destruct (_ <=? _); [discriminate|].
    destruct (lookupZ _ _) as [i|]; [|discriminate].
    apply (exec_heap_ok _ _ _ _ _ _ Hh Hs).
Qed.

(** X7.  In every dictionary that a run leaves in the store, [Keys]
    lists the keys of [Pairs], each once, however the run ends: what
    [len] counts and what [print] shows are the same entries. *)
Theorem Run_dicts_ok n (h : Heap) code a p ks :
  heap_ok h ->
  heap (Run format_g n (NewVM h) code).2 !! a = Some (HDict p ks) ->
  NoDup ks /\ (forall k, k ∈ ks <-> is_Some (p !! k)) /\ size p = length ks.
Proof.
  intros Hh Ha.
  assert (Hok : heap_ok (heap (Run format_g n (NewVM h) code).2)).
  { unfold Run, pushFrame.
    destruct (length (frames (NewVM h)) <? MaxFrames)%nat; [|exact Hh].
    apply run_loop_heap_ok. exact Hh. }
  pose proof (Forall_lookup_1 _ _ _ _ Hok Ha) as Hd. simpl in Hd.
  split; [apply Hd | split; [apply Hd | apply dict_ok_size, Hd]].
Qed.

End Containers.

Lemma PyDict_Set_Get_witness :
  exists h',
    PyDict_Set no_float_format 0 [HDict ∅ []] 0 (PyInt 1) (PyString "one") = Ok h' /\
    (forall key', stable key' = true ->
       PyDict_Get no_float_format 0 h' 0 key' =
       if decide (render no_float_format key' = render no_float_format (PyInt 1))
       then Ok (Some (PyString "one"))
       else PyDict_Get no_float_format 0 [HDict ∅ []] 0 key') /\
    (forall b, b <> 0%nat -> h' !! b = [HDict ∅ []] !! b) /\
    length h' = length [HDict (∅ : gmap string Object) []].
Proof.
  apply (PyDict_Set_Get no_float_format 0 [HDict ∅ []] 0 (∅, []) (PyInt 1) (PyString "one"));
    reflexivity.
Defined.

Lemma Run_dicts_ok_witness :
  NoDup ["1"] /\
  (forall k, k ∈ ["1"] <-> is_Some ((<["1" := PyInt 2]> ∅ : gmap string Object) !! k)) /\
  size (<["1" := PyInt 2]> ∅ : gmap string Object) = length ["1"].
Proof.
  apply (Run_dicts_ok no_float_format 10 []
           (mkCodeObject 0
              [ins OpLoadConst 0; ins OpLoadConst 1; ins OpBuildDict 1; ins OpReturnValue 0]
              [PyInt 1; PyInt 2] [] [] 0 "<module>" "<module>" 1) 0%nat).
  - constructor.
  - vm_compute. reflexivity.
Defined.

Section Lists.

Variable format_g : float -> string.

Lemma lookupZ_insert {A} (l : list A) idx (v : A) :
  0 <= idx < Z.of_nat (length l) ->
  lookupZ (<[Z.to_nat idx := v]> l) idx = Some v.
Proof.
  intros Hr. unfold lookupZ. destruct (Z.ltb_spec idx 0); [lia|].
  apply list_lookup_insert_eq. lia.
Qed.

(** X8.  [l[i] = v] on a list in the store, with an index in range,
    writes the element in place: reading [l[i]] afterwards through any
    reference to the list gives [v], the other elements and the other
    cells of the store are as before, and the length of the list does
    not change.  The index is what [toGoInt] makes of [i]: a float is
    truncated and a boolean is 0 or 1. *)
Theorem list_store_then_load n (h : Heap) a els i idx v :
  get_list h a = Ok els ->
  toGoInt i = Ok idx ->
  0 <= idx < Z.of_nat (length els) ->
  exists h',
    storeSubscript format_g n h (PyList a) i v = Ok h' /\
    subscript format_g n h' (PyList a) i = Ok v /\
    get_list h' a = Ok (<[Z.to_nat idx := v]> els) /\
    (forall b, b <> a -> h' !! b = h !! b).
Proof.
  intros Hl Hi Hr. unfold storeSubscript, subscript. rewrite Hl, Hi. cbn [bind].
  assert (Hin : (idx <? 0) || (Z.of_nat (length els) <=? idx) = false).
  { apply orb_false_iff. split; [apply Z.ltb_ge | apply Z.leb_gt]; lia. }
  rewrite Hin. eexists. split; [reflexivity|].
  assert (Ha : (a < length h)%nat).
  { unfold get_list in Hl. destruct (h !! a) eqn:E; [|discriminate].
    eapply lookup_lt_Some; eauto. }
  assert (Hget : get_list (<[a:=HList (<[Z.to_nat idx:=v]> els)]> h) a =
                 Ok (<[Z.to_nat idx := v]> els)).
  { unfold get_list. rewrite list_lookup_insert_eq by exact Ha. reflexivity. }
  rewrite Hget. cbn [bind]. rewrite length_insert, Hin, lookupZ_insert by exact Hr.
  split; [reflexivity | split; [reflexivity|]].
  intros b Hb. apply list_lookup_insert_ne. auto.
Qed.

(** X9.  Reading [l[i]] from a list in the store never panics: it gives
    the element when the index is in range and the error [list index
    out of range] otherwise.  A negative index is out of range: there is
    no counting from the end. *)
Theorem list_subscript_total n (h : Heap) a els i idx :
  get_list h a = Ok els ->
  toGoInt i = Ok idx ->
  (0 <= idx < Z.of_nat (length els) /\
   exists v, els !! Z.to_nat idx = Some v /\
             subscript format_g n h (PyList a) i = Ok v) \/
  ((idx < 0 \/ Z.of_nat (length els) <= idx) /\
   subscript format_g n h (PyList a) i = Error "list index out of range" /\
   forall v, storeSubscript format_g n h (PyList a) i v = Error "list index out of range").
Proof.
  intros Hl Hi. unfold subscript, storeSubscript. rewrite Hl, Hi. cbn [bind].
  destruct (Z.ltb_spec idx 0) as [Hneg|Hnn]; cbn [orb].
  - right. split; [lia | split; reflexivity].
  - destruct (Z.leb_spec (Z.of_nat (length els)) idx) as [Hge|Hlt].
    + right. split; [lia | split; reflexivity].
    + left. split; [lia|].
      unfold lookupZ. destruct (Z.ltb_spec idx 0); [lia|].
      destruct (els !! Z.to_nat idx) as [v|] eqn:Hv.
      * exists v. split; reflexivity.
      * apply lookup_ge_None in Hv. lia.
Qed.

End Lists.

Lemma list_store_then_load_witness :
  exists h',
    storeSubscript no_float_format 0 [HList [PyInt 1; PyInt 2]] (PyList 0)
                   (PyFloat 1.5%float) (PyString "x") = Ok h' /\
    subscript no_float_format 0 h' (PyList 0) (PyFloat 1.5%float) = Ok (PyString "x") /\
    get_list h' 0 = Ok (<[Z.to_nat 1 := PyString "x"]> [PyInt 1; PyInt 2]) /\
    (forall b, b <> 0%nat -> h' !! b = [HList [PyInt 1; PyInt 2]] !! b).
Proof.
  apply (list_store_then_load no_float_format 0 [HList [PyInt 1; PyInt 2]] 0
           [PyInt 1; PyInt 2] (PyFloat 1.5%float) 1 (PyString "x")).
  - reflexivity.
  - vm_compute. reflexivity.
  - simpl. lia.
Defined.

Lemma list_subscript_total_witness :
  (0 <= -1 < Z.of_nat (length [PyInt 1; PyInt 2]) /\
   exists v, [PyInt 1; PyInt 2] !! Z.to_nat (-1) = Some v /\
             subscript no_float_format 0 [HList [PyInt 1; PyInt 2]] (PyList 0) (PyInt (-1))
             = Ok v) \/
  ((-1 < 0 \/ Z.of_nat (length [PyInt 1; PyInt 2]) <= -1) /\
   subscript no_float_format 0 [HList [PyInt 1; PyInt 2]] (PyList 0) (PyInt (-1))
   = Error "list index out of range" /\
   forall v, storeSubscript no_float_format 0 [HList [PyInt 1; PyInt 2]] (PyList 0)
                            (PyInt (-1)) v = Error "list index out of range").
Proof.
  apply (list_subscript_total no_float_format 0 [HList [PyInt 1; PyInt 2]] 0
           [PyInt 1; PyInt 2] (PyInt (-1)) (-1)); reflexivity.
Defined.

(** ** The built-in [range] *)

Lemma range_loop_up k : forall n i stop,
  Z.to_nat (stop - i) = k -> (k <= n)%nat ->
  MinInt <= i -> stop <= MaxInt ->
  range_loop n true i stop 1 = Ok (PyInt <$> seqZ i (stop - i)).
Proof.
  induction k as [|k IH]; intros n i stop Hk Hn Hi Hs.
  - assert (Hle : stop <= i) by lia.
    destruct n; simpl; destruct (Z.ltb_spec i stop); try lia;
      rewrite seqZ_nil by lia; reflexivity.
  - assert (Hlt : i < stop) by lia.
    destruct n as [|n]; [lia|]. simpl.
    destruct (Z.ltb_spec i stop); [|lia].
    assert (Hadd : int_add i 1 = i + 1).
    { unfold int_add. apply wrap_small. unfold in_int. lia. }
    rewrite Hadd, (IH n (i + 1) stop) by lia. simpl.
    rewrite (seqZ_cons i (stop - i)) by lia.
    replace (Z.succ i) with (i + 1) by lia.
    replace (Z.pred (stop - i)) with (stop - (i + 1)) by lia. reflexivity.
Qed.

(** X10.  [range(start, stop)] allocates a new list with the integers
    from [start] up to [stop - 1] in order, the empty list when [stop]
    is not above [start]; [range(stop)] counts from 0.  The store is
    otherwise unchanged. *)
Theorem range_builtin format_g n (h : Heap) start stop :
  in_int start -> in_int stop -> (Z.to_nat (stop - start) <= n)%nat ->
  call_builtin format_g n h BuiltinRange [PyInt start; PyInt stop] =
    Ok (PyList (length h), h ++ [HList (PyInt <$> seqZ start (stop - start))]) /\
  (start = 0 ->
   call_builtin format_g n h BuiltinRange [PyInt stop] =
     Ok (PyList (length h), h ++ [HList (PyInt <$> seqZ 0 stop)])).
Proof.
  intros [Hs1 Hs2] [Ht1 Ht2] Hn. unfold call_builtin. cbn [toGoInt bind].
  change (0 <? 1) with true. split.
  - rewrite (range_loop_up (Z.to_nat (stop - start))) by (auto; lia). reflexivity.
  - intros ->. rewrite (range_loop_up (Z.to_nat (stop - 0))) by (auto; unfold MinInt; lia).
    rewrite Z.sub_0_r. reflexivity.
Qed.

Lemma range_builtin_witness :
  call_builtin no_float_format 3 [] BuiltinRange [PyInt 0; PyInt 3] =
    Ok (PyList (length (@nil HeapObj)), [] ++ [HList (PyInt <$> seqZ 0 (3 - 0))]) /\
  (0 = 0 ->
   call_builtin no_float_format 3 [] BuiltinRange [PyInt 3] =
     Ok (PyList (length (@nil HeapObj)), [] ++ [HList (PyInt <$> seqZ 0 3)])).
Proof.
  apply (range_builtin no_float_format 3 [] 0 3).
  - unfold in_int, MinInt, MaxInt. lia.
  - unfold in_int, MinInt, MaxInt. lia.
  - simpl. lia.
Defined.
